(** * Schema derivation of egg-controller: [getSchemaByType]

    A shallow embedding of [src/lib/transformer/util/getSchemaByType.ts]
    and the properties of its three functions [getSchemaByType],
    [addRefTypeSchema] and [extendClass].

    The TypeScript compiler objects the code inspects ([ts.Type],
    [ts.Symbol], [ts.Declaration]) are records holding exactly the
    properties the code reads.  Types are JavaScript objects compared by
    identity ([c.type === type]) and may refer to each other cyclically, so
    a type is a handle [TypeId] into a finite table of descriptors; a handle
    outside the table stands for [undefined].

    [config.schemaObjects] and [config.typeCache] are shared by every
    recursive call (the spread [{ ...config, extendClass: true }] copies the
    two references, not the objects), so they form the state that is
    threaded through; [config.extendClass] is copied by value and is a
    plain argument.  The registry is a finite map from names to fragments;
    the properties a plain JavaScript object inherits from
    [Object.prototype] are not part of it.

    The helpers the file imports and the compiler API lie outside it.
    What [isArrayType], [getComment], [typeChecker.typeToString] and
    [typeChecker.getTypeAtLocation] answer for a type, symbol or declaration
    is a field of its record; [getHashCode] is a parameter; [getValue] is
    modelled below. *)

From Stdlib Require Import ZArith List Lia Wf_nat.
From stdpp Require Import base option list strings gmap pretty relations.


(** ** The TypeScript side: what the code reads of a type *)

Abbreviation TypeId := nat.

(** [ts.SyntaxKind], as far as the code distinguishes its members. *)
Inductive SyntaxKind :=
| PrivateKeyword
| ProtectedKeyword
| PublicKeyword
| StaticKeyword
| ReadonlyKeyword
| MethodDeclaration
| MethodSignature
| ArrowFunction
| PropertyDeclaration
| PropertySignature
| OtherKind (n : nat).

Global Instance SyntaxKind_eq_dec : EqDecision SyntaxKind.
Proof. solve_decision. Defined.

(** A declaration node: [modifiers] (absent on most nodes), the node's
    [kind], whether it carries a [questionToken], and the answer of
    [typeChecker.getTypeAtLocation] for it. *)
Record Declaration := mkDeclaration {
  modifiers : option (list SyntaxKind);
  kind : SyntaxKind;
  questionToken : bool;
  typeAtLocation : TypeId
}.

(** A symbol: of a type ([type.symbol]) or of a member
    ([type.getProperties()]).  [symbol_type] is [(symbol as any).type],
    [symbol_target_type] is [(symbol as any).target.type] (absent when
    either link is), [symbol_comment] is [getComment(symbol)]. *)
Record TsSymbol := mkSymbol {
  escapedName : string;
  valueDeclaration : option Declaration;
  symbol_type : option TypeId;
  symbol_target_type : option TypeId;
  symbol_comment : option string
}.

(** [LiteralType.value]; [undefined] on types that are not literals. *)
Inductive LiteralValue :=
| LitString (s : string)
| LitNumber (z : Z)
| LitUndefined.

(** A type descriptor.  [isArrayType] is the answer of the helper of that
    name, [type_comment] that of [getComment((type as any).type || type)],
    [typeToString] that of [typeChecker.typeToString(type)]; [isUnion],
    [isIntersection] and [isClassOrInterface] are the methods of
    [ts.Type]. *)
Record TsType := mkType {
  flags : Z;
  objectFlags : Z;
  symbol : option TsSymbol;
  typeArguments : option (list TypeId);
  types : list TypeId;
  value : LiteralValue;
  isArrayType : bool;
  isUnion : bool;
  isIntersection : bool;
  isClassOrInterface : bool;
  type_comment : option string;
  typeToString : string;
  getNumberIndexType : option TypeId;
  getStringIndexType : option TypeId;
  getProperties : list TsSymbol
}.

(** The members of [ts.TypeFlags] and [ts.ObjectFlags] the code tests, with
    their values in TypeScript 3. *)
Definition TypeFlags_Boolean : Z := 16.
Definition TypeFlags_EnumLiteral : Z := 1024.
Definition TypeFlags_Union : Z := 1048576.
Definition ObjectFlags_Anonymous : Z := 16.

(** [x & mask] used as a condition. *)
Definition has_flag (x mask : Z) : bool := negb (Z.land x mask =? 0)%Z.

(** ** The OpenAPI side: schema objects *)

(** A [SchemaObject] (or [ReferenceObject]) with the fields the code
    writes; an absent field is [None].  [properties] keeps the insertion
    order of the JavaScript object. *)
#[local] Set Warnings "-register-all".
Inductive SchemaObject := mkSchema {
  description : option string;
  type : option string;
  format : option string;
  items : option SchemaObject;
  enum : option (list LiteralValue);
  oneOf : option (list SchemaObject);
  allOf : option (list SchemaObject);
  properties : option (list (string * SchemaObject));
  required : option (list string);
  additionalProperties : option SchemaObject;
  ref : option string
}.

Definition emptySchema : SchemaObject :=
  mkSchema None None None None None None None None None None None.

Definition set_description (v : option string) (s : SchemaObject) :=
  mkSchema v (type s) (format s) (items s) (enum s) (oneOf s) (allOf s)
    (properties s) (required s) (additionalProperties s) (ref s).
Definition set_type (v : string) (s : SchemaObject) :=
  mkSchema (description s) (Some v) (format s) (items s) (enum s) (oneOf s)
    (allOf s) (properties s) (required s) (additionalProperties s) (ref s).
Definition set_format (v : string) (s : SchemaObject) :=
  mkSchema (description s) (type s) (Some v) (items s) (enum s) (oneOf s)
    (allOf s) (properties s) (required s) (additionalProperties s) (ref s).
Definition set_items (v : SchemaObject) (s : SchemaObject) :=
  mkSchema (description s) (type s) (format s) (Some v) (enum s) (oneOf s)
    (allOf s) (properties s) (required s) (additionalProperties s) (ref s).
Definition set_enum (v : list LiteralValue) (s : SchemaObject) :=
  mkSchema (description s) (type s) (format s) (items s) (Some v) (oneOf s)
    (allOf s) (properties s) (required s) (additionalProperties s) (ref s).
Definition set_oneOf (v : list SchemaObject) (s : SchemaObject) :=
  mkSchema (description s) (type s) (format s) (items s) (enum s) (Some v)
    (allOf s) (properties s) (required s) (additionalProperties s) (ref s).
Definition set_allOf (v : list SchemaObject) (s : SchemaObject) :=
  mkSchema (description s) (type s) (format s) (items s) (enum s) (oneOf s)
    (Some v) (properties s) (required s) (additionalProperties s) (ref s).
Definition set_properties (v : list (string * SchemaObject)) (s : SchemaObject) :=
  mkSchema (description s) (type s) (format s) (items s) (enum s) (oneOf s)
    (allOf s) (Some v) (required s) (additionalProperties s) (ref s).
Definition set_required (v : list string) (s : SchemaObject) :=
  mkSchema (description s) (type s) (format s) (items s) (enum s) (oneOf s)
    (allOf s) (properties s) (Some v) (additionalProperties s) (ref s).
Definition set_additionalProperties (v : SchemaObject) (s : SchemaObject) :=
  mkSchema (description s) (type s) (format s) (items s) (enum s) (oneOf s)
    (allOf s) (properties s) (required s) (Some v) (ref s).

(** [{ $ref: `#/components/schemas/${name}` }] *)
Definition ref_prefix : string := "#/components/schemas/".
Definition refSchema (name : string) : SchemaObject :=
  mkSchema None None None None None None None None None None
    (Some (ref_prefix +:+ name)).

(** [obj[key] = v] on an object used as an ordered map: an existing key
    keeps its place, a new key goes last. *)
Fixpoint assign (key : string) (v : SchemaObject)
    (obj : list (string * SchemaObject)) : list (string * SchemaObject) :=
  match obj with
  | [] => [(key, v)]
  | (k, w) :: rest =>
      if String.eqb k key then (k, v) :: rest else (k, w) :: assign key v rest
  end.

(** ** The shared context and the outcome of a call *)

(** An entry of [config.typeCache] (interface [TypeCache]). *)
Record TypeCache := mkTypeCache {
  typeName : string;
  schemaName : string;
  cache_type : TypeId;
  hashCode : option string
}.

(** The two objects every call shares through [config]. *)
Record State := mkState {
  schemaObjects : gmap string SchemaObject;
  typeCache : list TypeCache
}.

(** A fresh context: [{ schemaObjects: {}, typeCache: [] }]. *)
Definition freshState : State := mkState ∅ [].

(** The only exception the code can raise is the [TypeError] of a property
    read on [undefined]. *)
Inductive JsError := TypeError.

(** A call returns a value, throws (both leave a state behind), or the
    model runs out of recursion depth. *)
Inductive Outcome (A : Type) :=
| Ret (a : A) (st : State)
| Throw (e : JsError) (st : State)
| OutOfFuel.
Arguments Ret {A} a st.
Arguments Throw {A} e st.
Arguments OutOfFuel {A}.

Definition bind {A B : Type} (m : Outcome A) (k : A → State → Outcome B)
    : Outcome B :=
  match m with
  | Ret a st => k a st
  | Throw e st => Throw e st
  | OutOfFuel => OutOfFuel
  end.

Notation "'let*' ( x , st ) ':=' m 'in' k" := (bind m (fun x st => k))
  (at level 10, x name, st name, m at level 100, k at level 200,
   only parsing).

(** The state an outcome leaves behind, when it leaves one. *)
Definition final_state {A : Type} (o : Outcome A) : option State :=
  match o with
  | Ret _ st => Some st
  | Throw _ st => Some st
  | OutOfFuel => None
  end.

Definition terminates {A : Type} (o : Outcome A) : Prop := o ≠ OutOfFuel.

(** ** The three functions *)

(** Modelled from the spec: [getValue] of [../../util], which is not among
    the sources.  "Any optional/absent structural lookup must be treated as
    absent, never as a fault": [getValue(() => e)] is the value of [e], or
    [undefined] when a property read on the way to it fails.  The
    evaluation of the thunk is an [option] here, [None] when it fails or
    yields [undefined]. *)
Definition getValue {A : Type} (thunk : option A) : option A := thunk.

(** [getValue(() => type.symbol.escapedName)] *)
Definition symbolName (d : TsType) : option string :=
  getValue (escapedName <$> symbol d).

(** [ts.isMethodDeclaration], [ts.isMethodSignature], [ts.isArrowFunction]
    compare the node's kind. *)
Definition isMethodDeclaration (n : Declaration) : bool :=
  bool_decide (kind n = MethodDeclaration).
Definition isMethodSignature (n : Declaration) : bool :=
  bool_decide (kind n = MethodSignature).
Definition isArrowFunction (n : Declaration) : bool :=
  bool_decide (kind n = ArrowFunction).

(** The filter of [extendClass] (lines 162-169): a member is kept unless
    its value declaration has modifiers and one of them is [private] or
    [protected]. *)
Definition isPrivateOrProtected (m : SyntaxKind) : bool :=
  bool_decide (m = PrivateKeyword) || bool_decide (m = ProtectedKeyword).

Definition keptByFilter (sym : TsSymbol) : bool :=
  match valueDeclaration sym with
  | None => true
  | Some decl =>
      match modifiers decl with
      | None => true
      | Some ms => negb (existsb isPrivateOrProtected ms)
      end
  end.

(** Lines 182-187: the member is declared as a method or an arrow
    function. *)
Definition isMethodShaped (sym : TsSymbol) : bool :=
  match valueDeclaration sym with
  | None => false
  | Some decl =>
      isMethodDeclaration decl || isMethodSignature decl || isArrowFunction decl
  end.

(** Line 192: [getValue(() => symbol.type || symbol.target.type)]. *)
Definition targetType (sym : TsSymbol) : option TypeId :=
  getValue
    match symbol_type sym with
    | Some t => Some t
    | None => symbol_target_type sym
    end.

(** Line 173: [getValue(() => symbol.valueDeclaration.questionToken)],
    used as a condition. *)
Definition hasQuestionToken (sym : TsSymbol) : bool :=
  default false (getValue (questionToken <$> valueDeclaration sym)).

(** [setProp] (lines 172-180): push the name on [required] unless the
    member is optional, then write
    [{ description: getComment(symbol), ...value }] under the name.  The
    spread lets [value.description] win when [value] has one. *)
Definition setProp (sym : TsSymbol) (value : SchemaObject)
    (schema : SchemaObject) : SchemaObject :=
  let escapedName := escapedName sym in
  let schema1 :=
    if hasQuestionToken sym then schema
    else set_required (default [] (required schema) ++ [escapedName]) schema in
  let prop :=
    match description value with
    | Some _ => value
    | None => set_description (symbol_comment sym) value
    end in
  set_properties (assign escapedName prop (default [] (properties schema1)))
    schema1.

(** Lines 30-34: [defaultSchemaObject], with the description when the
    comment is a non-empty string. *)
Definition defaultSchemaObject (d : TsType) : SchemaObject :=
  match type_comment d with
  | Some c => if String.eqb c EmptyString then emptySchema
              else set_description (Some c) emptySchema
  | None => emptySchema
  end.

(** Line 210: [{ type: 'any' }]. *)
Definition anySchema : SchemaObject := set_type "any" emptySchema.

(** Lines 112-119: the name under which a type called [typeName] is
    registered.  [schemaObjects[k]] is truthy exactly for the keys of the
    registry, whose values are objects.  The [while] loop stops at the first
    unused suffix; a registry of [n] keys cannot hold all of
    [typeName_1 .. typeName_(n+1)], so [n] rounds are enough (lemma
    [probe_spec]). *)
Definition suffixed (typeName : string) (i : nat) : string :=
  typeName +:+ "_" +:+ pretty i.

Fixpoint probe (schemaObjects : gmap string SchemaObject)
    (typeName : string) (rounds : nat) (i : nat) : nat :=
  match rounds with
  | 0 => i
  | S rounds' =>
      if bool_decide (is_Some (schemaObjects !! suffixed typeName i))
      then probe schemaObjects typeName rounds' (S i)
      else i
  end.

Definition allocateName (schemaObjects : gmap string SchemaObject)
    (typeName : string) : string :=
  if bool_decide (is_Some (schemaObjects !! typeName))
  then suffixed typeName (probe schemaObjects typeName (size schemaObjects) 1)
  else typeName.

(** [typeCache.splice(i, 1)] where [i] is the answer of a [findIndex]:
    [-1] removes the last entry. *)
Definition splice1 {A : Type} (i : option nat) (l : list A) : list A :=
  match i with
  | Some i => delete i l
  | None => take (length l - 1) l
  end.

Definition set_hashCode (h : string) (c : TypeCache) : TypeCache :=
  mkTypeCache (typeName c) (schemaName c) (cache_type c) (Some h).

Section Derivation.

(** The type table of the provider and the helper [getHashCode]. *)
Variable env : list TsType.
Variable getHashCode : SchemaObject → string.

(** The recursive calls of [getSchemaByType] are made through [rec]. *)
Variable rec : TypeId → bool → State → Outcome SchemaObject.

(** [tys.map(t => getSchemaByType(t, config))] (lines 62 and 70). *)
Fixpoint mapSchemas (tys : list TypeId) (extendClassFlag : bool)
    (st : State) : Outcome (list SchemaObject) :=
  match tys with
  | [] => Ret [] st
  | t :: rest =>
      let* (r, st1) := rec t extendClassFlag st in
      let* (rs, st2) := mapSchemas rest extendClassFlag st1 in
      Ret (r :: rs) st2
  end.

(** Line 50: [types.every(t => !!(t.flags & EnumLiteral))]; reading
    [flags] of [undefined] throws. *)
Fixpoint everyEnumLiteral (tys : list TypeId) : option bool :=
  match tys with
  | [] => Some true
  | t :: rest =>
      match env !! t with
      | None => None
      | Some d =>
          if has_flag (flags d) TypeFlags_EnumLiteral
          then everyEnumLiteral rest
          else Some false
      end
  end.

(** Lines 54-56: [types.map(t => t.value)], reached when every member is
    in the table. *)
Definition literalValues (tys : list TypeId) : list LiteralValue :=
  omap (fun t => value <$> env !! t) tys.

(** One member of the [forEach] of [extendClass] (lines 170-214). *)
Definition extendClass_member (sym : TsSymbol) (schema : SchemaObject)
    (st : State) : Outcome SchemaObject :=
  if isMethodShaped sym then Ret schema st
  else
    match targetType sym with
    | Some target =>
        let* (v, st1) := rec target false st in
        Ret (setProp sym v schema) st1
    | None =>
        match valueDeclaration sym with
        | Some decl =>
            let propType := typeAtLocation decl in
            let propSymbol := env !! propType ≫= symbol in
            if bool_decide (getValue (escapedName <$> propSymbol) = Some "Function")
            then Ret schema st
            else
              match getValue (propSymbol ≫= valueDeclaration) with
              | Some arrowType =>
                  if isArrowFunction arrowType then Ret schema st
                  else
                    let* (v, st1) := rec propType false st in
                    Ret (setProp sym v schema) st1
              | None =>
                  let* (v, st1) := rec propType false st in
                  Ret (setProp sym v schema) st1
              end
        | None => Ret (setProp sym anySchema schema) st
        end
    end.

Fixpoint extendClass_members (syms : list TsSymbol) (schema : SchemaObject)
    (st : State) : Outcome SchemaObject :=
  match syms with
  | [] => Ret schema st
  | sym :: rest =>
      let* (schema1, st1) := extendClass_member sym schema st in
      extendClass_members rest schema1 st1
  end.

(** [extendClass] (lines 143-216).  Its recursive calls run with
    [extendClass: false]. *)
Definition extendClass (d : TsType) (defaultSchemaObject : SchemaObject)
    (st : State) : Outcome SchemaObject :=
  let schema :=
    set_required [] (set_properties [] (set_type "object" defaultSchemaObject)) in
  let indexType :=
    match getNumberIndexType d with
    | Some t => Some t
    | None => getStringIndexType d
    end in
  let* (schema1, st1) :=
    match indexType with
    | Some it =>
        let* (r, st1) := rec it false st in
        Ret (set_additionalProperties r schema) st1
    | None => Ret schema st
    end in
  extendClass_members (filter keptByFilter (getProperties d)) schema1 st1.

(** [addRefTypeSchema] (lines 100-141).  [cacheData] is the object pushed
    on [typeCache]; the later write [cacheData.hashCode = hashCode] changes
    the entry in the array.  The array only grows between the push and that
    write (the one [splice] is followed by the throwing read of
    [cache.schemaName]), so the entry still sits at the index it was pushed
    at. *)
Definition addRefTypeSchema (ty : TypeId) (d : TsType) (st : State)
    : Outcome SchemaObject :=
  let cache := list_find (fun c => cache_type c = ty) (typeCache st) in
  match cache with
  | Some (_, c) => Ret (refSchema (schemaName c)) st
  | None =>
      match symbol d with
      | None => Throw TypeError st
      | Some sy =>
          let typeName0 := escapedName sy in
          let schemaName0 := allocateName (schemaObjects st) typeName0 in
          let cacheData := mkTypeCache typeName0 schemaName0 ty None in
          let cacheDataIndex := length (typeCache st) in
          let st1 := mkState (schemaObjects st) (typeCache st ++ [cacheData]) in
          let* (schema, st2) := rec ty true st1 in
          let hashCode0 := getHashCode schema in
          let cacheIndex :=
            list_find
              (fun c => hashCode c = Some hashCode0 ∧ typeName c = typeName0)
              (typeCache st2) in
          match cacheIndex with
          | Some _ =>
              let st3 :=
                mkState (schemaObjects st2)
                  (splice1
                     (fst <$> list_find (fun c => schemaName c = schemaName0)
                                (typeCache st2))
                     (typeCache st2)) in
              match cache with
              | Some (_, c) => Ret (refSchema (schemaName c)) st3
              | None => Throw TypeError st3
              end
          | None =>
              let st3 :=
                mkState (<[schemaName0 := schema]> (schemaObjects st2))
                  (alter (set_hashCode hashCode0) cacheDataIndex (typeCache st2)) in
              Ret (refSchema schemaName0) st3
          end
      end
  end.

(** Lines 26-28: a type whose symbol is called [Promise] is replaced by
    its first type argument, once.  The result is [None] when that leaves
    [undefined] (or when the argument of the call was [undefined]): the
    next read, [(type as any).type] on line 31, throws. *)
Definition unwrapPromise (ty : TypeId) : option TypeId :=
  match env !! ty with
  | None => Some ty
  | Some d =>
      if bool_decide (symbolName d = Some "Promise")
      then typeArguments d ≫= head
      else Some ty
  end.

Definition resolveType (ty0 : TypeId) : option (TypeId * TsType) :=
  ty ← unwrapPromise ty0; d ← env !! ty; Some (ty, d).

(** [getSchemaByType] (lines 22-98), one level of it. *)
Definition getSchemaByType_body (ty0 : TypeId) (extendClassFlag : bool)
    (st : State) : Outcome SchemaObject :=
  match resolveType ty0 with
  | None => Throw TypeError st
  | Some (ty, d) =>
      let defaultSchemaObject := defaultSchemaObject d in
      if isArrayType d then
        match typeArguments d ≫= head with
        | None => Throw TypeError st
        | Some elt =>
            let* (r, st1) := rec elt extendClassFlag st in
            Ret (set_items r (set_type "array" defaultSchemaObject)) st1
        end
      else if has_flag (flags d) TypeFlags_Boolean then
        Ret (set_type "boolean" defaultSchemaObject) st
      else if isUnion d then
        match everyEnumLiteral (types d) with
        | None => Throw TypeError st
        | Some true =>
            Ret (set_enum (literalValues (types d))
                   (set_type "string" defaultSchemaObject)) st
        | Some false =>
            let* (rs, st1) := mapSchemas (types d) extendClassFlag st in
            Ret (set_oneOf rs (set_type "object" defaultSchemaObject)) st1
        end
      else if isIntersection d then
        let* (rs, st1) := mapSchemas (types d) extendClassFlag st in
        Ret (set_allOf rs (set_type "object" defaultSchemaObject)) st1
      else if isClassOrInterface d then
        match symbol d with
        | None => Throw TypeError st
        | Some sy =>
            if String.eqb (escapedName sy) "Date" then
              Ret (set_format "date" (set_type "string" defaultSchemaObject)) st
            else if String.eqb (escapedName sy) "Object" then
              Ret (set_type "any" defaultSchemaObject) st
            else if extendClassFlag then extendClass d defaultSchemaObject st
            else addRefTypeSchema ty d st
        end
      else if has_flag (objectFlags d) ObjectFlags_Anonymous then
        extendClass d defaultSchemaObject st
      else
        Ret (set_type (typeToString d) defaultSchemaObject) st
  end.

End Derivation.

(** [getSchemaByType(type, config)] with [config.extendClass] passed as
    [extendClassFlag]; [fuel] bounds the depth of the recursion. *)
Fixpoint getSchemaByType (env : list TsType)
    (getHashCode : SchemaObject → string) (fuel : nat) (ty : TypeId)
    (extendClassFlag : bool) (st : State) : Outcome SchemaObject :=
  match fuel with
  | 0 => OutOfFuel
  | S fuel' =>
      getSchemaByType_body env getHashCode
        (getSchemaByType env getHashCode fuel') ty extendClassFlag st
  end.

(** ** Basic facts: outcomes and fuel *)

Lemma bind_Ret_inv {A B : Type} (m : Outcome A) (k : A → State → Outcome B)
    (b : B) (st' : State) :
  bind m k = Ret b st' → ∃ a st1, m = Ret a st1 ∧ k a st1 = Ret b st'.
Proof. destruct m; simpl; intros H; try discriminate. eauto. Qed.

Lemma bind_terminates {A B : Type} (m : Outcome A)
    (k : A → State → Outcome B) :
  terminates m → (∀ a st1, m = Ret a st1 → terminates (k a st1)) →
  terminates (bind m k).
Proof.
  unfold terminates. destruct m; simpl; intros Hm Hk; [eauto | done | done].
Qed.

Lemma bind_mono {A B : Type} (m1 m2 : Outcome A)
    (k1 k2 : A → State → Outcome B) :
  (terminates m1 → m2 = m1) →
  (∀ a st, terminates (k1 a st) → k2 a st = k1 a st) →
  terminates (bind m1 k1) → bind m2 k2 = bind m1 k1.
Proof.
  unfold terminates. intros Hm Hk Ht. destruct m1; simpl in *.
  - rewrite Hm by done. simpl. by apply Hk.
  - by rewrite Hm.
  - done.
Qed.

(** [rec2] answers like [rec1] wherever [rec1] answers. *)
Definition rec_le (rec1 rec2 : TypeId → bool → State → Outcome SchemaObject)
    : Prop :=
  ∀ ty f st, terminates (rec1 ty f st) → rec2 ty f st = rec1 ty f st.

Section Monotone.

Variable env : list TsType.
Variable getHashCode : SchemaObject → string.
Variables rec1 rec2 : TypeId → bool → State → Outcome SchemaObject.
Hypothesis Hle : rec_le rec1 rec2.

Lemma mapSchemas_mono tys f st :
  terminates (mapSchemas rec1 tys f st) →
  mapSchemas rec2 tys f st = mapSchemas rec1 tys f st.
Proof.
  revert st. induction tys as [|t tys IH]; intros st; simpl; [done|].
  apply bind_mono; [apply Hle|]. intros r st1.
  apply bind_mono; [apply IH | done].
Qed.

Lemma extendClass_member_mono sym schema st :
  terminates (extendClass_member env rec1 sym schema st) →
  extendClass_member env rec2 sym schema st
  = extendClass_member env rec1 sym schema st.
Proof.
  unfold extendClass_member.
  repeat first
    [ done
    | apply bind_mono; [apply Hle | done]
    | case_match ].
Qed.

Lemma extendClass_members_mono syms schema st :
  terminates (extendClass_members env rec1 syms schema st) →
  extendClass_members env rec2 syms schema st
  = extendClass_members env rec1 syms schema st.
Proof.
  revert schema st. induction syms as [|sym syms IH]; intros schema st; simpl;
    [done|].
  apply bind_mono; [apply extendClass_member_mono | intros; by apply IH].
Qed.

Lemma extendClass_mono d dflt st :
  terminates (extendClass env rec1 d dflt st) →
  extendClass env rec2 d dflt st = extendClass env rec1 d dflt st.
Proof.
  unfold extendClass.
  apply bind_mono; [| intros; by apply extendClass_members_mono].
  case_match; [|done]. apply bind_mono; [apply Hle | done].
Qed.

Lemma addRefTypeSchema_mono ty d st :
  terminates (addRefTypeSchema getHashCode rec1 ty d st) →
  addRefTypeSchema getHashCode rec2 ty d st
  = addRefTypeSchema getHashCode rec1 ty d st.
Proof.
  unfold addRefTypeSchema.
  destruct (list_find _ (typeCache st)) as [[i c]|]; [done|].
  destruct (symbol d) as [sy|]; [|done].
  apply bind_mono; [apply Hle | done].
Qed.

Lemma getSchemaByType_body_mono ty f st :
  terminates (getSchemaByType_body env getHashCode rec1 ty f st) →
  getSchemaByType_body env getHashCode rec2 ty f st
  = getSchemaByType_body env getHashCode rec1 ty f st.
Proof.
  unfold getSchemaByType_body.
  repeat first
    [ done
    | apply bind_mono; [apply Hle | done]
    | apply bind_mono; [apply mapSchemas_mono | done]
    | apply extendClass_mono
    | apply addRefTypeSchema_mono
    | case_match ].
Qed.

End Monotone.

(** More fuel never changes an answer. *)
Lemma getSchemaByType_mono env getHashCode (n m : nat) :
  n ≤ m →
  rec_le (getSchemaByType env getHashCode n) (getSchemaByType env getHashCode m).
Proof.
  revert m. induction n as [|n IH]; intros m Hnm ty f st Ht; [done|].
  destruct m as [|m]; [lia|]. simpl.
  apply getSchemaByType_body_mono; [apply IH; lia | done].
Qed.

(** ** References held by a fragment *)

(** Every [$ref] string that occurs in a fragment, at any depth. *)
Fixpoint refNames (s : SchemaObject) : list string :=
  match s with
  | mkSchema _ _ _ it _ oo ao ps _ ap rf =>
      from_option (fun r => [r]) [] rf
      ++ from_option refNames [] it
      ++ from_option (flat_map refNames) [] oo
      ++ from_option (flat_map refNames) [] ao
      ++ from_option (flat_map (fun p => refNames (snd p))) [] ps
      ++ from_option refNames [] ap
  end.

(** Every reference of [s] is [#/components/schemas/<name>] for a [name]
    among [names]. *)
Definition refs_within (names : list string) (s : SchemaObject) : Prop :=
  ∀ r, r ∈ refNames s → ∃ name, r = ref_prefix +:+ name ∧ name ∈ names.

Lemma elem_of_flat_map {A B : Type} (f : A → list B) (l : list A) (y : B) :
  y ∈ flat_map f l ↔ ∃ x, x ∈ l ∧ y ∈ f x.
Proof.
  rewrite list_elem_of_In, in_flat_map.
  split; intros (x & Hx & Hy); exists x; by rewrite ?list_elem_of_In in *.
Qed.

Lemma refs_within_unfold names s :
  refs_within names s ↔
    (∀ r, ref s = Some r → ∃ name, r = ref_prefix +:+ name ∧ name ∈ names) ∧
    (∀ v, items s = Some v → refs_within names v) ∧
    (∀ l, oneOf s = Some l → Forall (refs_within names) l) ∧
    (∀ l, allOf s = Some l → Forall (refs_within names) l) ∧
    (∀ l, properties s = Some l →
       Forall (fun p => refs_within names (snd p)) l) ∧
    (∀ v, additionalProperties s = Some v → refs_within names v).
Proof.
  destruct s as [de ty fo it en oo ao ps rq ap rf]. unfold refs_within. simpl.
  split.
  - intros H. repeat split.
    + intros r ->. apply H. simpl. apply list_elem_of_here.
    + intros v -> r Hr. apply H. rewrite !elem_of_app. right; left. done.
    + intros l ->. apply Forall_forall. intros v Hv r Hr. apply H. simpl.
      rewrite !elem_of_app, !elem_of_flat_map. right; right; left. eauto.
    + intros l ->. apply Forall_forall. intros v Hv r Hr. apply H. simpl.
      rewrite !elem_of_app, !elem_of_flat_map. right; right; right; left. eauto.
    + intros l ->. apply Forall_forall. intros p Hp r Hr. apply H. simpl.
      rewrite !elem_of_app, !elem_of_flat_map.
      right; right; right; right; left. eauto.
    + intros v -> r Hr. apply H. rewrite !elem_of_app. do 5 right. done.
  - intros (Hrf & Hit & Hoo & Hao & Hps & Hap) r.
    rewrite !elem_of_app.
    intros [Hr|[Hr|[Hr|[Hr|[Hr|Hr]]]]].
    + destruct rf as [r'|]; simpl in Hr; [|by apply elem_of_nil in Hr].
      apply Hrf. f_equal. symmetry. by apply list_elem_of_singleton.
    + destruct it as [v|]; simpl in Hr; [|by apply elem_of_nil in Hr].
      by eapply Hit.
    + destruct oo as [l|]; simpl in Hr; [|by apply elem_of_nil in Hr].
      apply elem_of_flat_map in Hr as (v & Hv & Hr).
      specialize (Hoo l eq_refl). rewrite Forall_forall in Hoo. by eapply Hoo.
    + destruct ao as [l|]; simpl in Hr; [|by apply elem_of_nil in Hr].
      apply elem_of_flat_map in Hr as (v & Hv & Hr).
      specialize (Hao l eq_refl). rewrite Forall_forall in Hao. by eapply Hao.
    + destruct ps as [l|]; simpl in Hr; [|by apply elem_of_nil in Hr].
      apply elem_of_flat_map in Hr as (p & Hp & Hr).
      specialize (Hps l eq_refl). rewrite Forall_forall in Hps. by eapply Hps.
    + destruct ap as [v|]; simpl in Hr; [|by apply elem_of_nil in Hr].
      by eapply Hap.
Qed.

Lemma refs_within_mono names names' s :
  names ⊆ names' → refs_within names s → refs_within names' s.
Proof. intros Hsub H r Hr. destruct (H r Hr) as (n & -> & Hn). eauto. Qed.

Lemma refs_within_empty names : refs_within names emptySchema.
Proof. intros r Hr. simpl in Hr. by apply elem_of_nil in Hr. Qed.

Lemma refs_within_refSchema names name :
  name ∈ names → refs_within names (refSchema name).
Proof.
  intros Hn r Hr. simpl in Hr. apply list_elem_of_singleton in Hr. eauto.
Qed.

Lemma refs_within_set_description names v s :
  refs_within names s → refs_within names (set_description v s).
Proof. rewrite !refs_within_unfold. by destruct s. Qed.
Lemma refs_within_set_type names v s :
  refs_within names s → refs_within names (set_type v s).
Proof. rewrite !refs_within_unfold. by destruct s. Qed.
Lemma refs_within_set_format names v s :
  refs_within names s → refs_within names (set_format v s).
Proof. rewrite !refs_within_unfold. by destruct s. Qed.
Lemma refs_within_set_enum names v s :
  refs_within names s → refs_within names (set_enum v s).
Proof. rewrite !refs_within_unfold. by destruct s. Qed.
Lemma refs_within_set_required names v s :
  refs_within names s → refs_within names (set_required v s).
Proof. rewrite !refs_within_unfold. by destruct s. Qed.

Lemma refs_within_set_items names v s :
  refs_within names v → refs_within names s →
  refs_within names (set_items v s).
Proof.
  rewrite !(refs_within_unfold _ s), !(refs_within_unfold _ (set_items v s)).
  destruct s; simpl. intros Hv (?&?&?&?&?&?).
  repeat split; try done. by intros ? [= <-].
Qed.
Lemma refs_within_set_additionalProperties names v s :
  refs_within names v → refs_within names s →
  refs_within names (set_additionalProperties v s).
Proof.
  rewrite !(refs_within_unfold _ s),
    !(refs_within_unfold _ (set_additionalProperties v s)).
  destruct s; simpl. intros Hv (?&?&?&?&?&?).
  repeat split; try done. by intros ? [= <-].
Qed.
Lemma refs_within_set_oneOf names l s :
  Forall (refs_within names) l → refs_within names s →
  refs_within names (set_oneOf l s).
Proof.
  rewrite !(refs_within_unfold _ s), !(refs_within_unfold _ (set_oneOf l s)).
  destruct s; simpl. intros Hv (?&?&?&?&?&?).
  repeat split; try done. by intros ? [= <-].
Qed.
Lemma refs_within_set_allOf names l s :
  Forall (refs_within names) l → refs_within names s →
  refs_within names (set_allOf l s).
Proof.
  rewrite !(refs_within_unfold _ s), !(refs_within_unfold _ (set_allOf l s)).
  destruct s; simpl. intros Hv (?&?&?&?&?&?).
  repeat split; try done. by intros ? [= <-].
Qed.
Lemma refs_within_set_properties names l s :
  Forall (fun p => refs_within names (snd p)) l → refs_within names s →
  refs_within names (set_properties l s).
Proof.
  rewrite !(refs_within_unfold _ s),
    !(refs_within_unfold _ (set_properties l s)).
  destruct s; simpl. intros Hv (?&?&?&?&?&?).
  repeat split; try done. by intros ? [= <-].
Qed.

Lemma Forall_assign (P : string * SchemaObject → Prop) key v obj :
  P (key, v) → Forall P obj → Forall P (assign key v obj).
Proof.
  intros Hv. induction 1 as [|[k w] rest Hw Hrest IH]; simpl.
  - by constructor.
  - destruct (String.eqb_spec k key) as [->|]; constructor; auto.
Qed.

Lemma refs_within_properties names s :
  refs_within names s →
  Forall (fun p => refs_within names (snd p)) (default [] (properties s)).
Proof.
  rewrite refs_within_unfold. intros (_&_&_&_&H&_).
  destruct (properties s); simpl; auto.
Qed.

Lemma refs_within_setProp names sym v schema :
  refs_within names v → refs_within names schema →
  refs_within names (setProp sym v schema).
Proof.
  intros Hv Hs. unfold setProp.
  set (schema1 := if hasQuestionToken sym then schema else _).
  assert (refs_within names schema1) as Hs1.
  { subst schema1. destruct (hasQuestionToken sym); [done|].
    by apply refs_within_set_required. }
  apply refs_within_set_properties; [|done].
  apply Forall_assign; [|by apply refs_within_properties].
  simpl. destruct (description v); [done|].
  by apply refs_within_set_description.
Qed.

(** ** What a call does to the shared context *)

Section Invariants.

Variable env : list TsType.
Variable getHashCode : SchemaObject → string.

Definition classTyped (t : TypeId) : Prop :=
  ∃ d, env !! t = Some d ∧ isClassOrInterface d = true.

Definition cacheNames (st : State) : list string :=
  schemaName <$> typeCache st.

(** A call that returns has pushed the entries [new] on the cache and
    touched nothing else of it: every new entry belongs to a
    class-or-interface type and is registered; the registry kept its keys,
    and each fragment it holds is the one it held before or was stored for
    a new entry and refers to cached names only. *)
Definition extends_by (new : list TypeCache) (st st' : State) : Prop :=
  typeCache st' = typeCache st ++ new ∧
  Forall (fun c => classTyped (cache_type c) ∧
                   is_Some (schemaObjects st' !! schemaName c)) new ∧
  (∀ k, is_Some (schemaObjects st !! k) → is_Some (schemaObjects st' !! k)) ∧
  (∀ k s, schemaObjects st' !! k = Some s →
     schemaObjects st !! k = Some s ∨
     (refs_within (cacheNames st') s ∧ k ∈ schemaName <$> new)).

Definition extends (st st' : State) : Prop := ∃ new, extends_by new st st'.

(** Whatever the outcome, an entry of the cache was there before or belongs
    to a class-or-interface type. *)
Definition provenance (st st' : State) : Prop :=
  ∀ c, c ∈ typeCache st' → c ∈ typeCache st ∨ classTyped (cache_type c).

Lemma extends_refl st : extends st st.
Proof.
  exists []. repeat split; auto.
  - by rewrite app_nil_r.
Qed.

Lemma extends_names st st' : extends st st' → cacheNames st ⊆ cacheNames st'.
Proof.
  intros (new & Hc & _). unfold cacheNames. rewrite Hc, fmap_app.
  by apply list_subseteq_app_l.
Qed.

Lemma extends_trans st st1 st2 :
  extends st st1 → extends st1 st2 → extends st st2.
Proof.
  intros H1 H2. pose proof (extends_names _ _ H2) as Hn.
  destruct H1 as (new1 & Hc1 & Hf1 & Hg1 & Hr1).
  destruct H2 as (new2 & Hc2 & Hf2 & Hg2 & Hr2).
  exists (new1 ++ new2). repeat split.
  - by rewrite Hc2, Hc1, app_assoc.
  - apply Forall_app. split; [|done].
    eapply Forall_impl; [exact Hf1|]. intros c [? ?]. auto.
  - auto.
  - intros k s Hk. rewrite fmap_app, elem_of_app.
    destruct (Hr2 k s Hk) as [Hk1|[? ?]]; [|by auto].
    destruct (Hr1 k s Hk1) as [?|[? ?]]; [by auto|].
    right. split; [|by auto]. by eapply refs_within_mono.
Qed.

Lemma provenance_refl st : provenance st st.
Proof. intros c Hc. by left. Qed.

Lemma provenance_trans st st1 st2 :
  provenance st st1 → provenance st1 st2 → provenance st st2.
Proof.
  intros H1 H2 c Hc. destruct (H2 c Hc) as [Hc1|?]; [|by right]. by apply H1.
Qed.

Lemma extends_provenance st st' : extends st st' → provenance st st'.
Proof.
  intros (new & Hc & Hf & _) c. rewrite Hc, elem_of_app. intros [?|Hin].
  - by left.
  - right. rewrite Forall_forall in Hf. by apply Hf.
Qed.

(** The three outcomes, with [Q] what is known of a returned value. *)
Definition outcome_ok {A : Type} (Q : list string → A → Prop) (st : State)
    (o : Outcome A) : Prop :=
  match o with
  | Ret a st' => extends st st' ∧ Q (cacheNames st') a
  | Throw _ st' => provenance st st'
  | OutOfFuel => True
  end.

Lemma outcome_ok_bind {A B : Type} (Q : list string → A → Prop)
    (Q' : list string → B → Prop) st (m : Outcome A)
    (k : A → State → Outcome B) :
  outcome_ok Q st m →
  (∀ a st1, extends st st1 → Q (cacheNames st1) a → outcome_ok Q' st1 (k a st1)) →
  outcome_ok Q' st (bind m k).
Proof.
  destruct m as [a st1|e st1|]; simpl; [|done|done].
  intros [He Hq] Hk. specialize (Hk a st1 He Hq).
  destruct (k a st1) as [b st2|e st2|]; simpl in *; [|  |done].
  - destruct Hk. split; [by eapply extends_trans | done].
  - eapply provenance_trans; [by apply extends_provenance | done].
Qed.

Definition rec_ok (rec : TypeId → bool → State → Outcome SchemaObject) : Prop :=
  ∀ ty f st, outcome_ok refs_within st (rec ty f st).

Section Step.

Variable rec : TypeId → bool → State → Outcome SchemaObject.
Hypothesis Hrec : rec_ok rec.

Lemma mapSchemas_ok tys f st :
  outcome_ok (fun names rs => Forall (refs_within names) rs) st
    (mapSchemas rec tys f st).
Proof.
  revert st. induction tys as [|t tys IH]; intros st; simpl.
  - split; [apply extends_refl | constructor].
  - eapply outcome_ok_bind; [apply Hrec|]. intros r st1 He1 Hr.
    eapply outcome_ok_bind; [apply IH|]. intros rs st2 He2 Hrs. simpl.
    split; [apply extends_refl|]. constructor; [|done].
    eapply refs_within_mono; [by apply extends_names | done].
Qed.

Lemma extendClass_member_ok sym schema st :
  refs_within (cacheNames st) schema →
  outcome_ok refs_within st (extendClass_member env rec sym schema st).
Proof.
  intros Hs.
  assert (outcome_ok refs_within st (Ret schema st)) as Hskip.
  { split; [apply extends_refl | done]. }
  assert (∀ t, outcome_ok refs_within st
            (let* (v, st1) := rec t false st in Ret (setProp sym v schema) st1))
    as Hcall.
  { intros t. eapply outcome_ok_bind; [apply Hrec|]. intros v st1 He Hv. simpl.
    split; [apply extends_refl|]. apply refs_within_setProp; [done|].
    eapply refs_within_mono; [by apply extends_names | done]. }
  unfold extendClass_member. repeat case_match; auto.
  simpl. split; [apply extends_refl|].
  apply refs_within_setProp; [|done].
  apply refs_within_set_type, refs_within_empty.
Qed.

Lemma extendClass_members_ok syms schema st :
  refs_within (cacheNames st) schema →
  outcome_ok refs_within st (extendClass_members env rec syms schema st).
Proof.
  revert schema st. induction syms as [|sym syms IH]; intros schema st Hs; simpl.
  - split; [apply extends_refl | done].
  - eapply outcome_ok_bind; [by apply extendClass_member_ok|].
    intros schema1 st1 _ Hs1. by apply IH.
Qed.

Lemma refs_within_default names d : refs_within names (defaultSchemaObject d).
Proof.
  unfold defaultSchemaObject. repeat case_match;
    auto using refs_within_empty, refs_within_set_description.
Qed.

Lemma extendClass_ok d dflt st :
  refs_within (cacheNames st) dflt →
  outcome_ok refs_within st (extendClass env rec d dflt st).
Proof.
  intros Hd. unfold extendClass.
  assert (refs_within (cacheNames st)
            (set_required [] (set_properties [] (set_type "object" dflt))))
    as Hs.
  { apply refs_within_set_required, refs_within_set_properties; [constructor|].
    by apply refs_within_set_type. }
  eapply outcome_ok_bind with (Q := refs_within).
  - case_match.
    + eapply outcome_ok_bind; [apply Hrec|]. intros r st1 He Hr. simpl.
      split; [apply extends_refl|].
      apply refs_within_set_additionalProperties; [done|].
      eapply refs_within_mono; [by apply extends_names | done].
    + split; [apply extends_refl | done].
  - intros schema1 st1 _ Hs1. by apply extendClass_members_ok.
Qed.

Lemma splice1_subseteq {A : Type} (i : option nat) (l : list A) :
  splice1 i l ⊆ l.
Proof.
  destruct i as [i|]; simpl.
  - intros x Hx. by eapply list_elem_of_delete_inv.
  - apply subseteq_take.
Qed.

Lemma pushed_provenance st st' c0 :
  classTyped (cache_type c0) →
  provenance (mkState (schemaObjects st) (typeCache st ++ [c0])) st' →
  provenance st st'.
Proof.
  intros Hc0 H c Hc. destruct (H c Hc) as [Hin|?]; [|by right].
  simpl in Hin. apply elem_of_app in Hin as [?|Hin]; [by left|].
  apply list_elem_of_singleton in Hin as ->. by right.
Qed.

Lemma addRefTypeSchema_ok ty d st :
  env !! ty = Some d → isClassOrInterface d = true →
  outcome_ok refs_within st (addRefTypeSchema getHashCode rec ty d st).
Proof.
  intros Hty Hcls. unfold addRefTypeSchema.
  destruct (list_find _ (typeCache st)) as [[i c]|] eqn:Hfind.
  { simpl. split; [apply extends_refl|]. apply refs_within_refSchema.
    apply list_find_Some in Hfind as (Hi & _ & _).
    apply list_elem_of_fmap. exists c. split; [done|].
    by eapply list_elem_of_lookup_2. }
  destruct (symbol d) as [sy|]; [|apply provenance_refl].
  set (name0 := allocateName (schemaObjects st) (escapedName sy)).
  set (cd := mkTypeCache (escapedName sy) name0 ty None).
  assert (classTyped (cache_type cd)) as Hcd by (by exists d).
  pose proof (Hrec ty true (mkState (schemaObjects st) (typeCache st ++ [cd])))
    as H.
  destruct (rec ty true _) as [schema st2|e st2|]; simpl in *; [| |done].
  - destruct H as [He Hs].
    destruct (list_find _ (typeCache st2)) as [[j c]|].
    + simpl. apply (pushed_provenance _ _ cd); [exact Hcd|].
      eapply provenance_trans; [by apply extends_provenance|].
      intros c' Hc'. left. simpl in Hc'. by eapply splice1_subseteq.
    + simpl. destruct He as (new2 & Hc2 & Hf2 & Hg2 & Hr2). simpl in *.
      set (cd' := set_hashCode (getHashCode schema) cd).
      assert (alter (set_hashCode (getHashCode schema)) (length (typeCache st))
                (typeCache st2) = typeCache st ++ cd' :: new2) as Halter.
      { rewrite Hc2, <- app_assoc.
        rewrite <- (Nat.add_0_r (length (typeCache st))).
        by rewrite alter_app_r. }
      assert (cacheNames
                (mkState (<[name0:=schema]> (schemaObjects st2))
                   (alter (set_hashCode (getHashCode schema))
                      (length (typeCache st)) (typeCache st2)))
              = cacheNames st2) as Hnames.
      { unfold cacheNames. simpl. rewrite Halter, Hc2.
        by rewrite <- app_assoc, !fmap_app. }
      assert (name0 ∈ cacheNames st2) as Hname0.
      { unfold cacheNames. rewrite Hc2, !fmap_app, !elem_of_app. left; right.
        simpl. apply list_elem_of_here. }
      split.
      * exists (cd' :: new2). repeat split; simpl.
        -- done.
        -- constructor.
           ++ split; [done|]. simpl. rewrite lookup_insert_eq. eauto.
           ++ eapply Forall_impl; [exact Hf2|]. intros c [? Hreg].
              split; [done|].
              destruct (decide (name0 = schemaName c)) as [<-|Hne].
              ** rewrite lookup_insert_eq. eauto.
              ** by rewrite lookup_insert_ne.
        -- intros k Hk. destruct (decide (name0 = k)) as [<-|Hne].
           ++ rewrite lookup_insert_eq. eauto.
           ++ rewrite lookup_insert_ne by done. auto.
        -- intros k s. rewrite Hnames.
           destruct (decide (name0 = k)) as [<-|Hne].
           ++ rewrite lookup_insert_eq. intros [= <-]. right.
              split; [done|]. apply list_elem_of_here.
           ++ rewrite lookup_insert_ne by done. intros Hk.
              destruct (Hr2 k s Hk) as [?|[? ?]]; [by left|].
              right. split; [done|]. by apply list_elem_of_further.
      * rewrite Hnames. by apply refs_within_refSchema.
  - by apply (pushed_provenance _ _ cd).
Qed.

(** The index used for the write [cacheData.hashCode = hashCode]: after a
    recursive call that returned, the pushed entry is where it was pushed. *)
Lemma cacheData_index st cd st2 :
  extends (mkState (schemaObjects st) (typeCache st ++ [cd])) st2 →
  typeCache st2 !! length (typeCache st) = Some cd.
Proof.
  intros (new & Hc & _). simpl in Hc. rewrite Hc, <- app_assoc.
  rewrite lookup_app_r by done. by rewrite Nat.sub_diag.
Qed.

Lemma resolveType_Some ty0 ty d :
  resolveType env ty0 = Some (ty, d) → env !! ty = Some d.
Proof.
  unfold resolveType. intros H.
  destruct (unwrapPromise env ty0) as [ty'|]; simpl in H; [|done].
  destruct (env !! ty') as [d'|] eqn:Hd; simpl in H; [|done].
  by injection H as <- <-.
Qed.

Lemma getSchemaByType_body_ok : rec_ok (getSchemaByType_body env getHashCode rec).
Proof.
  intros ty0 f st. unfold getSchemaByType_body.
  destruct (resolveType env ty0) as [[ty d]|] eqn:Hres;
    [|apply provenance_refl].
  apply resolveType_Some in Hres.
  pose proof (refs_within_default (cacheNames st) d) as Hd.
  assert (∀ s, refs_within (cacheNames st) s →
            outcome_ok refs_within st (Ret s st)) as Hret.
  { intros s Hs. split; [apply extends_refl | done]. }
  repeat case_match; subst;
    try apply provenance_refl;
    try (apply Hret;
         auto using refs_within_set_type, refs_within_set_format,
           refs_within_set_enum);
    try (by apply extendClass_ok);
    try (by apply addRefTypeSchema_ok).
  - eapply outcome_ok_bind; [apply Hrec|]. intros r st1 He Hr. simpl.
    split; [apply extends_refl|]. apply refs_within_set_items; [done|].
    apply refs_within_set_type, refs_within_default.
  - eapply outcome_ok_bind; [apply mapSchemas_ok|]. intros rs st1 He Hrs. simpl.
    split; [apply extends_refl|]. apply refs_within_set_oneOf; [done|].
    apply refs_within_set_type, refs_within_default.
  - eapply outcome_ok_bind; [apply mapSchemas_ok|]. intros rs st1 He Hrs. simpl.
    split; [apply extends_refl|]. apply refs_within_set_allOf; [done|].
    apply refs_within_set_type, refs_within_default.
Qed.

End Step.

(** The invariant of every call, at every depth. *)
Lemma getSchemaByType_ok fuel : rec_ok (getSchemaByType env getHashCode fuel).
Proof.
  induction fuel as [|fuel IH]; [done|].
  intros ty f st. simpl. by apply getSchemaByType_body_ok.
Qed.

End Invariants.

(** ** What [extendClass] does with a member *)

(** The three ways the [forEach] of [extendClass] treats a member that
    passed the filter: skip it, derive the schema of a type, or fall back
    to [{ type: 'any' }]. *)
Inductive MemberAction :=
| Skip
| Derive (t : TypeId)
| AnyType.

Definition memberAction (env : list TsType) (sym : TsSymbol) : MemberAction :=
  if isMethodShaped sym then Skip
  else
    match targetType sym with
    | Some target => Derive target
    | None =>
        match valueDeclaration sym with
        | Some decl =>
            let propType := typeAtLocation decl in
            let propSymbol := env !! propType ≫= symbol in
            if bool_decide (getValue (escapedName <$> propSymbol) = Some "Function")
            then Skip
            else
              match getValue (propSymbol ≫= valueDeclaration) with
              | Some arrowType =>
                  if isArrowFunction arrowType then Skip else Derive propType
              | None => Derive propType
              end
        | None => AnyType
        end
    end.

Lemma extendClass_member_action env rec sym schema st :
  extendClass_member env rec sym schema st =
  match memberAction env sym with
  | Skip => Ret schema st
  | Derive t =>
      let* (v, st1) := rec t false st in Ret (setProp sym v schema) st1
  | AnyType => Ret (setProp sym anySchema schema) st
  end.
Proof.
  unfold extendClass_member, memberAction. by repeat case_match.
Qed.

(** The types [extendClass] derives a schema of, in the order of the
    calls: the index type, then the types of the members. *)
Definition indexTypeOf (d : TsType) : option TypeId :=
  match getNumberIndexType d with
  | Some t => Some t
  | None => getStringIndexType d
  end.

Definition memberTarget (env : list TsType) (sym : TsSymbol) : option TypeId :=
  match memberAction env sym with
  | Derive t => Some t
  | _ => None
  end.

Definition expansionTypes (env : list TsType) (d : TsType) : list TypeId :=
  option_list (indexTypeOf d)
  ++ omap (memberTarget env) (filter keptByFilter (getProperties d)).

(** ** Termination *)

Section Termination.

Variable env : list TsType.
Variable getHashCode : SchemaObject → string.

#[local] Abbreviation run := (getSchemaByType env getHashCode).

(** The types a call on [d] hands to recursive calls without a cache
    entry in between: every arm but the class arm, which answers from the
    cache or pushes an entry first. *)
Definition inlineChildren (d : TsType) : list TypeId :=
  if isArrayType d then option_list (typeArguments d ≫= head)
  else if has_flag (flags d) TypeFlags_Boolean then []
  else if isUnion d then
    match everyEnumLiteral env (types d) with
    | Some false => types d
    | _ => []
    end
  else if isIntersection d then types d
  else if isClassOrInterface d then []
  else if has_flag (objectFlags d) ObjectFlags_Anonymous then
    expansionTypes env d
  else [].

(** [c] is reached from [t] through a type that is not a class or
    interface.  The relation is well founded exactly when no cycle of the
    type graph avoids the class and interface types. *)
Definition inline_edge (c t : TypeId) : Prop :=
  ∃ ty d, resolveType env t = Some (ty, d) ∧ c ∈ inlineChildren d.

(** The types of the table that have no cache entry yet. *)
Definition uncached (st : State) : list TypeId :=
  filter (fun t => t ∉ cache_type <$> typeCache st) (seq 0 (length env)).

Lemma filter_length_le {A : Type} (P Q : A → Prop)
    `{∀ x, Decision (P x)} `{∀ x, Decision (Q x)} (l : list A) :
  (∀ x, P x → Q x) → length (filter P l) ≤ length (filter Q l).
Proof.
  intros HPQ. induction l as [|x l IH]; [done|].
  rewrite !filter_cons. destruct (decide (P x)) as [HP|HP].
  - rewrite decide_True by auto. simpl. lia.
  - destruct (decide (Q x)); simpl; lia.
Qed.

Lemma filter_length_lt {A : Type} (P Q : A → Prop)
    `{∀ x, Decision (P x)} `{∀ x, Decision (Q x)} (l : list A) (a : A) :
  (∀ x, P x → Q x) → a ∈ l → Q a → ¬ P a →
  length (filter P l) < length (filter Q l).
Proof.
  intros HPQ Ha HQ HP. induction l as [|x l IH]; [by apply elem_of_nil in Ha|].
  rewrite !filter_cons. apply elem_of_cons in Ha as [<-|Ha].
  - rewrite decide_False, decide_True by done. simpl.
    pose proof (filter_length_le P Q l HPQ). lia.
  - specialize (IH Ha). destruct (decide (P x)) as [HPx|HPx].
    + rewrite decide_True by auto. simpl. lia.
    + destruct (decide (Q x)); simpl; lia.
Qed.

Lemma extends_uncached st st' :
  extends env st st' → length (uncached st') ≤ length (uncached st).
Proof.
  intros (new & Hc & _). unfold uncached. apply filter_length_le.
  intros t Ht Hin. apply Ht. rewrite Hc, fmap_app, elem_of_app. by left.
Qed.

Lemma push_uncached st c :
  cache_type c < length env →
  cache_type c ∉ cache_type <$> typeCache st →
  length (uncached (mkState (schemaObjects st) (typeCache st ++ [c])))
  < length (uncached st).
Proof.
  intros Hlt Hnot. unfold uncached. simpl.
  apply filter_length_lt with (a := cache_type c).
  - intros t Ht Hin. apply Ht. rewrite fmap_app, elem_of_app. by left.
  - apply elem_of_seq. lia.
  - done.
  - intros Ht. apply Ht. rewrite fmap_app, elem_of_app. right.
    apply list_elem_of_here.
Qed.

(** A computation that makes its recursive calls through [rec]. *)
Definition monotone {A : Type}
    (F : (TypeId → bool → State → Outcome SchemaObject) → Outcome A) : Prop :=
  ∀ rec1 rec2, rec_le rec1 rec2 → terminates (F rec1) → F rec2 = F rec1.

Definition halts {A : Type}
    (F : (TypeId → bool → State → Outcome SchemaObject) → Outcome A) : Prop :=
  ∃ fuel, terminates (F (run fuel)).

Lemma halts_const {A : Type} (o : Outcome A) :
  terminates o → halts (fun _ => o).
Proof. intros Ho. by exists 0. Qed.

Lemma halts_bind {A B : Type}
    (F : (TypeId → bool → State → Outcome SchemaObject) → Outcome A)
    (K : A → State →
         (TypeId → bool → State → Outcome SchemaObject) → Outcome B) :
  monotone F → (∀ a st, monotone (K a st)) →
  halts F →
  (∀ fuel a st1, F (run fuel) = Ret a st1 → halts (K a st1)) →
  halts (fun rec => bind (F rec) (fun a st1 => K a st1 rec)).
Proof.
  intros HF HK [fuel1 H1] Hk.
  destruct (F (run fuel1)) as [a st1|e st1|] eqn:HF1; [| |done].
  - destruct (Hk fuel1 a st1 HF1) as [fuel2 H2].
    exists (fuel1 `max` fuel2).
    rewrite (HF (run fuel1)), HF1; simpl.
    + rewrite (HK a st1 (run fuel2)); [done| |done].
      apply getSchemaByType_mono. lia.
    + apply getSchemaByType_mono. lia.
    + by rewrite HF1.
  - exists fuel1. by rewrite HF1.
Qed.

Lemma halts_bind_const {A B : Type}
    (F : (TypeId → bool → State → Outcome SchemaObject) → Outcome A)
    (k : A → State → Outcome B) :
  halts F → (∀ a st1, terminates (k a st1)) →
  halts (fun rec => bind (F rec) k).
Proof.
  intros [fuel H] Hk. exists fuel.
  destruct (F (run fuel)) as [a st1|e st1|]; simpl; [apply Hk|done|done].
Qed.

Lemma halts_ext {A : Type}
    (F G : (TypeId → bool → State → Outcome SchemaObject) → Outcome A) :
  (∀ rec, F rec = G rec) → halts F → halts G.
Proof. intros Heq [fuel H]. exists fuel. by rewrite <- Heq. Qed.

Lemma monotone_call ty f st : monotone (fun rec => rec ty f st).
Proof. intros rec1 rec2 Hle Ht. by apply Hle. Qed.

(** Outcomes that return extend the context (the part of the invariant
    that needs no assumption on the fragments at hand). *)
Lemma run_extends fuel ty f st r st' :
  run fuel ty f st = Ret r st' → extends env st st'.
Proof.
  intros H. pose proof (getSchemaByType_ok env getHashCode fuel ty f st) as Hok.
  rewrite H in Hok. apply Hok.
Qed.

Lemma mapSchemas_extends fuel tys f st rs st' :
  mapSchemas (run fuel) tys f st = Ret rs st' → extends env st st'.
Proof.
  intros H.
  pose proof (mapSchemas_ok env (run fuel)
                (getSchemaByType_ok env getHashCode fuel) tys f st) as Hok.
  rewrite H in Hok. apply Hok.
Qed.

Lemma extendClass_member_extends fuel sym schema st schema' st' :
  extendClass_member env (run fuel) sym schema st = Ret schema' st' →
  extends env st st'.
Proof.
  rewrite extendClass_member_action.
  destruct (memberAction env sym) as [|t|]; simpl.
  - intros [= <- <-]. apply extends_refl.
  - intros H. apply bind_Ret_inv in H as (v & st1 & Hv & [= <- <-]).
    by eapply run_extends.
  - intros [= <- <-]. apply extends_refl.
Qed.

Section Level.

(** [k] bounds the number of types without a cache entry. *)
Variable k : nat.

Lemma mapSchemas_halts tys f st :
  (∀ c, c ∈ tys → ∀ st', length (uncached st') ≤ k →
        halts (fun rec => rec c f st')) →
  length (uncached st) ≤ k →
  halts (fun rec => mapSchemas rec tys f st).
Proof.
  revert st. induction tys as [|t tys IH]; intros st Hch Hk; simpl.
  - by apply halts_const.
  - apply (halts_bind (fun rec => rec t f st)
             (fun r st1 rec =>
                let* (rs, st2) := mapSchemas rec tys f st1 in Ret (r :: rs) st2)).
    + apply monotone_call.
    + intros r st1 rec1 rec2 Hle.
      apply bind_mono; [by apply mapSchemas_mono | done].
    + apply Hch; [apply list_elem_of_here | done].
    + intros fuel r st1 Hr. apply halts_bind_const; [|done].
      apply IH.
      * intros c Hc. apply Hch. by apply list_elem_of_further.
      * apply run_extends, extends_uncached in Hr. lia.
Qed.

Lemma extendClass_member_halts sym schema st :
  (∀ c, memberTarget env sym = Some c → halts (fun rec => rec c false st)) →
  halts (fun rec => extendClass_member env rec sym schema st).
Proof.
  intros Hch.
  eapply halts_ext; [intros rec; symmetry; apply extendClass_member_action|].
  unfold memberTarget in Hch.
  destruct (memberAction env sym) as [|t|].
  - by apply halts_const.
  - apply halts_bind_const; [by apply Hch | done].
  - by apply halts_const.
Qed.

Lemma extendClass_members_halts syms schema st :
  (∀ c, c ∈ omap (memberTarget env) syms →
        ∀ st', length (uncached st') ≤ k → halts (fun rec => rec c false st')) →
  length (uncached st) ≤ k →
  halts (fun rec => extendClass_members env rec syms schema st).
Proof.
  revert schema st.
  induction syms as [|sym syms IH]; intros schema st Hch Hk; simpl.
  - by apply halts_const.
  - apply (halts_bind (fun rec => extendClass_member env rec sym schema st)
             (fun schema1 st1 rec => extendClass_members env rec syms schema1 st1)).
    + intros rec1 rec2 Hle. by apply extendClass_member_mono.
    + intros schema1 st1 rec1 rec2 Hle. by apply extendClass_members_mono.
    + apply extendClass_member_halts. intros c Hc. apply Hch; [|done].
      simpl. rewrite Hc. apply list_elem_of_here.
    + intros fuel schema1 st1 Hr. apply IH.
      * intros c Hc. apply Hch. simpl.
        destruct (memberTarget env sym); [by apply list_elem_of_further | done].
      * apply extendClass_member_extends, extends_uncached in Hr. lia.
Qed.

Lemma extendClass_halts d dflt st :
  (∀ c, c ∈ expansionTypes env d →
        ∀ st', length (uncached st') ≤ k → halts (fun rec => rec c false st')) →
  length (uncached st) ≤ k →
  halts (fun rec => extendClass env rec d dflt st).
Proof.
  intros Hch Hk. unfold extendClass. fold (indexTypeOf d).
  set (schema := set_required [] _).
  assert (∀ c, c ∈ omap (memberTarget env) (filter keptByFilter (getProperties d)) →
            ∀ st', length (uncached st') ≤ k → halts (fun rec => rec c false st'))
    as Hmem.
  { intros c Hc. apply Hch. unfold expansionTypes. rewrite elem_of_app. by right. }
  destruct (indexTypeOf d) as [it|] eqn:Hit.
  - apply (halts_bind
             (fun rec => let* (r, st1) := rec it false st in
                         Ret (set_additionalProperties r schema) st1)
             (fun schema1 st1 rec =>
                extendClass_members env rec
                  (filter keptByFilter (getProperties d)) schema1 st1)).
    + intros rec1 rec2 Hle. apply bind_mono; [apply Hle | done].
    + intros schema1 st1 rec1 rec2 Hle. by apply extendClass_members_mono.
    + apply halts_bind_const; [|done]. apply Hch; [|done].
      unfold expansionTypes. rewrite Hit, elem_of_app. left. simpl.
      apply list_elem_of_here.
    + intros fuel schema1 st1 Hr.
      apply bind_Ret_inv in Hr as (r & st1' & Hr & [= <- <-]).
      apply extendClass_members_halts; [done|].
      apply run_extends, extends_uncached in Hr. lia.
  - simpl. by apply extendClass_members_halts.
Qed.

Lemma addRefTypeSchema_halts ty d st :
  env !! ty = Some d →
  (list_find (fun c => cache_type c = ty) (typeCache st) = None →
   ∀ st', length (uncached st') < length (uncached st) →
          halts (fun rec => rec ty true st')) →
  halts (fun rec => addRefTypeSchema getHashCode rec ty d st).
Proof.
  intros Hty Hch. unfold addRefTypeSchema.
  destruct (list_find _ (typeCache st)) as [[i c]|] eqn:Hfind;
    [by apply halts_const|].
  destruct (symbol d) as [sy|]; [|by apply halts_const].
  apply halts_bind_const.
  - apply Hch; [done|].
    apply (push_uncached st
             (mkTypeCache (escapedName sy)
                (allocateName (schemaObjects st) (escapedName sy)) ty None)).
    + simpl. by eapply lookup_lt_Some.
    + simpl. apply list_find_None in Hfind. rewrite Forall_forall in Hfind.
      intros Hin. apply list_elem_of_fmap in Hin as (c & Hc & Hin).
      by apply (Hfind c).
  - intros schema st2. by destruct (list_find _ (typeCache st2)).
Qed.

(** One level of [getSchemaByType] halts when the calls it hands down do:
    the inline children with the same flag or with [extendClass: false],
    the members of a class expanded in place with [extendClass: false], and
    anything at all once a cache entry has been pushed. *)
Lemma getSchemaByType_body_halts ty0 f st :
  length (uncached st) ≤ k →
  (∀ c, inline_edge c ty0 → ∀ st', length (uncached st') ≤ k →
        halts (fun rec => rec c f st') ∧ halts (fun rec => rec c false st')) →
  (f = true → ∀ c st', length (uncached st') ≤ k →
        halts (fun rec => rec c false st')) →
  (∀ c st', length (uncached st') < length (uncached st) →
        halts (fun rec => rec c true st')) →
  halts (fun rec => getSchemaByType_body env getHashCode rec ty0 f st).
Proof.
  intros Hk Hedge Hfalse Hlower. unfold getSchemaByType_body.
  destruct (resolveType env ty0) as [[ty d]|] eqn:Hres;
    [|by apply halts_const].
  assert (∀ c, c ∈ inlineChildren d → ∀ st', length (uncached st') ≤ k →
        halts (fun rec => rec c f st') ∧ halts (fun rec => rec c false st'))
    as Hch.
  { intros c Hc. apply Hedge. by exists ty, d. }
  clear Hedge. pose proof (resolveType_Some _ _ _ _ Hres) as Hty.
  unfold inlineChildren in Hch.
  destruct (isArrayType d).
  { destruct (typeArguments d ≫= head) as [elt|]; [|by apply halts_const].
    apply halts_bind_const; [|done].
    apply Hch; [apply list_elem_of_here | done]. }
  destruct (has_flag (flags d) TypeFlags_Boolean); [by apply halts_const|].
  destruct (isUnion d).
  { destruct (everyEnumLiteral env (types d)) as [[|]|];
      [by apply halts_const| |by apply halts_const].
    apply halts_bind_const; [|done].
    apply mapSchemas_halts; [|done]. intros c Hc st' Hst'. by apply Hch. }
  destruct (isIntersection d).
  { apply halts_bind_const; [|done].
    apply mapSchemas_halts; [|done]. intros c Hc st' Hst'. by apply Hch. }
  destruct (isClassOrInterface d).
  { destruct (symbol d) as [sy|]; [|by apply halts_const].
    destruct (String.eqb (escapedName sy) "Date"); [by apply halts_const|].
    destruct (String.eqb (escapedName sy) "Object"); [by apply halts_const|].
    destruct f.
    - apply extendClass_halts; [|done]. intros c _. by apply Hfalse.
    - apply addRefTypeSchema_halts; [done|]. intros _ st' Hst'.
      by apply Hlower. }
  destruct (has_flag (objectFlags d) ObjectFlags_Anonymous);
    [|by apply halts_const].
  apply extendClass_halts; [|done]. intros c Hc st' Hst'. by apply Hch.
Qed.

End Level.

Lemma halts_step ty f st :
  halts (fun rec => getSchemaByType_body env getHashCode rec ty f st) →
  halts (fun rec => rec ty f st).
Proof. intros [fuel H]. by exists (S fuel). Qed.

(** Every call halts when the inline edges are well founded: by induction
    on the number of types without a cache entry, then on the inline
    edges, first for [extendClass: false], then for [extendClass: true]. *)
Lemma getSchemaByType_halts :
  well_founded inline_edge →
  ∀ k ty f st, length (uncached st) ≤ k → halts (fun rec => rec ty f st).
Proof.
  intros Hwf k. induction k as [k IHk] using lt_wf_ind.
  assert (∀ c st' st, length (uncached st) ≤ k →
            length (uncached st') < length (uncached st) →
            halts (fun rec => rec c true st')) as Hlower.
  { intros c st' st Hst Hlt. apply (IHk (length (uncached st'))); [lia|done]. }
  assert (∀ ty st, length (uncached st) ≤ k →
            halts (fun rec => rec ty false st)) as Hfalse.
  { intros ty. induction (Hwf ty) as [ty _ IH]. intros st Hst.
    apply halts_step, (getSchemaByType_body_halts k); [done| |done|].
    - intros c Hc st' Hst'. split; by apply IH.
    - intros c st'. by apply Hlower. }
  intros ty [|] st Hst; [|by apply Hfalse].
  revert st Hst. induction (Hwf ty) as [ty _ IH]. intros st Hst.
  apply halts_step, (getSchemaByType_body_halts k); [done| | |].
  - intros c Hc st' Hst'. split; [by apply IH | by apply Hfalse].
  - intros _ c st'. by apply Hfalse.
  - intros c st'. by apply Hlower.
Qed.

(** *** Cycles *)

(** The inline children of a type of the table. *)
Definition inlineChildrenOf (t : TypeId) : list TypeId :=
  match resolveType env t with
  | Some (_, d) => inlineChildren d
  | None => []
  end.

Lemma inline_edge_children c t : inline_edge c t ↔ c ∈ inlineChildrenOf t.
Proof.
  unfold inline_edge, inlineChildrenOf. split.
  - intros (ty & d & -> & Hc). done.
  - destruct (resolveType env t) as [[ty d]|]; [eauto|].
    intros Hc. by apply elem_of_nil in Hc.
Qed.

Lemma resolveType_lt t ty d : resolveType env t = Some (ty, d) → t < length env.
Proof.
  unfold resolveType, unwrapPromise. intros H.
  destruct (env !! t) as [d0|] eqn:Ht; [by eapply lookup_lt_Some|].
  simpl in H. by rewrite Ht in H.
Qed.

(** No cycle of the type graph avoids the class and interface types:
    following inline edges from a type never leads back to it. *)
Definition acyclic : Prop := ∀ t, ¬ tc (flip inline_edge) t t.

Lemma acyclic_well_founded : acyclic → well_founded inline_edge.
Proof.
  intros Hacyc t. apply (@tc_finite_sn _ (flip inline_edge) t).
  - intros x Hx. by apply (Hacyc x).
  - exists (flat_map inlineChildrenOf (seq 0 (length env))).
    intros y Hy. apply elem_of_flat_map.
    assert (∃ p, inline_edge y p) as [p Hp].
    { induction Hy as [x y Hxy|x y z Hxy _ IH]; [by exists x | done]. }
    exists p. split; [|by apply inline_edge_children].
    destruct Hp as (ty & d & Hres & _). apply elem_of_seq.
    apply resolveType_lt in Hres. lia.
Qed.

(** A ranking that decreases along the inline edges shows there is no
    cycle; for a given table and ranking this is a finite check. *)
Definition ranked (rank : TypeId → nat) : bool :=
  forallb (fun t => forallb (fun c => rank c <? rank t) (inlineChildrenOf t))
    (seq 0 (length env)).

Lemma ranked_acyclic rank : ranked rank = true → acyclic.
Proof.
  intros Hr.
  assert (∀ c t, inline_edge c t → rank c < rank t) as Hlt.
  { intros c t Hc. pose proof Hc as (ty & d & Hres & _).
    apply resolveType_lt in Hres. apply inline_edge_children in Hc.
    unfold ranked in Hr. rewrite forallb_forall in Hr.
    specialize (Hr t). rewrite forallb_forall in Hr.
    apply Nat.ltb_lt, Hr.
    - apply in_seq. lia.
    - by apply list_elem_of_In. }
  assert (∀ x y, tc (flip inline_edge) x y → rank y < rank x) as Htc.
  { induction 1 as [x y Hxy|x y z Hxy _ IH]; [by apply Hlt|].
    apply Hlt in Hxy. lia. }
  intros t Ht. apply Htc in Ht. lia.
Qed.

(** Termination proper: some depth suffices, and any larger depth gives
    the same outcome. *)
Lemma acyclic_halts ty f st :
  acyclic →
  ∃ fuel, terminates (run fuel ty f st) ∧
          ∀ fuel', fuel ≤ fuel' → run fuel' ty f st = run fuel ty f st.
Proof.
  intros Hacyc.
  destruct (getSchemaByType_halts (acyclic_well_founded Hacyc)
              (length (uncached st)) ty f st (le_n _)) as [fuel H].
  exists fuel. split; [done|]. intros fuel' Hle.
  by apply getSchemaByType_mono.
Qed.

End Termination.

(** ** The dispatch, arm by arm *)

Section Dispatch.

Variable env : list TsType.
Variable getHashCode : SchemaObject → string.

#[local] Abbreviation run := (getSchemaByType env getHashCode).

(** [ty] is in the table and its symbol, if any, is not called [Promise]:
    the dispatch sees [ty] itself. *)
Definition dispatched (ty : TypeId) (d : TsType) : Prop :=
  env !! ty = Some d ∧ symbolName d ≠ Some "Promise".

Lemma resolveType_dispatched ty d :
  dispatched ty d → resolveType env ty = Some (ty, d).
Proof.
  intros [Hty Hname]. unfold resolveType, unwrapPromise. rewrite Hty.
  rewrite bool_decide_eq_false_2 by done. simpl. by rewrite Hty.
Qed.

(** A lazy wrapper: the symbol is called [Promise] and the first type
    argument is [arg]. *)
Definition lazyWrapper (ty : TypeId) (arg : TypeId) : Prop :=
  ∃ d, env !! ty = Some d ∧ symbolName d = Some "Promise" ∧
       typeArguments d ≫= head = Some arg.

Lemma resolveType_lazyWrapper ty arg :
  lazyWrapper ty arg →
  resolveType env ty = d ← env !! arg; Some (arg, d).
Proof.
  intros (d & Hty & Hname & Harg). unfold resolveType, unwrapPromise.
  rewrite Hty, bool_decide_eq_true_2 by done. by rewrite Harg.
Qed.

Lemma resolveType_not_Promise ty :
  (∀ d, env !! ty = Some d → symbolName d ≠ Some "Promise") →
  resolveType env ty = d ← env !! ty; Some (ty, d).
Proof.
  intros Hname. unfold resolveType, unwrapPromise.
  destruct (env !! ty) as [d|] eqn:Hty; simpl.
  - rewrite bool_decide_eq_false_2 by auto. simpl. by rewrite Hty.
  - by rewrite Hty.
Qed.

(** A type called [Promise] without type arguments, or with an empty list
    of them: the read of [typeArguments[0]] (line 27), or the read of
    [.type] on the [undefined] it yields (line 31), throws. *)
Lemma run_Promise_without_argument fuel ty d f st :
  env !! ty = Some d → symbolName d = Some "Promise" →
  typeArguments d ≫= head = None →
  run (S fuel) ty f st = Throw TypeError st.
Proof.
  intros Hty Hname Harg. simpl. unfold getSchemaByType_body.
  unfold resolveType, unwrapPromise.
  by rewrite Hty, bool_decide_eq_true_2, Harg.
Qed.

(** The kinds of the data model, as the conditions of the dispatch chain
    (lines 36-93) that select the arm. *)
Definition booleanKinded (d : TsType) : Prop :=
  isArrayType d = false ∧ has_flag (flags d) TypeFlags_Boolean = true.

Definition unionKinded (d : TsType) : Prop :=
  isArrayType d = false ∧ has_flag (flags d) TypeFlags_Boolean = false ∧
  isUnion d = true.

Definition nominalKinded (d : TsType) (sy : TsSymbol) : Prop :=
  isArrayType d = false ∧ has_flag (flags d) TypeFlags_Boolean = false ∧
  isUnion d = false ∧ isIntersection d = false ∧
  isClassOrInterface d = true ∧ symbol d = Some sy ∧
  escapedName sy ≠ "Date" ∧ escapedName sy ≠ "Object".

Definition anonymousKinded (d : TsType) : Prop :=
  isArrayType d = false ∧ has_flag (flags d) TypeFlags_Boolean = false ∧
  isUnion d = false ∧ isIntersection d = false ∧
  isClassOrInterface d = false ∧
  has_flag (objectFlags d) ObjectFlags_Anonymous = true.

Lemma run_boolean fuel ty d f st :
  dispatched ty d → booleanKinded d →
  run (S fuel) ty f st = Ret (set_type "boolean" (defaultSchemaObject d)) st.
Proof.
  intros Hd [Harr Hbool]. simpl. unfold getSchemaByType_body.
  by rewrite (resolveType_dispatched _ _ Hd), Harr, Hbool.
Qed.

Lemma run_union fuel ty d f st :
  dispatched ty d → unionKinded d →
  run (S fuel) ty f st =
  match everyEnumLiteral env (types d) with
  | None => Throw TypeError st
  | Some true =>
      Ret (set_enum (literalValues env (types d))
             (set_type "string" (defaultSchemaObject d))) st
  | Some false =>
      let* (rs, st1) := mapSchemas (run fuel) (types d) f st in
      Ret (set_oneOf rs (set_type "object" (defaultSchemaObject d))) st1
  end.
Proof.
  intros Hd (Harr & Hbool & Hunion). simpl. unfold getSchemaByType_body.
  by rewrite (resolveType_dispatched _ _ Hd), Harr, Hbool, Hunion.
Qed.

Lemma run_nominal fuel ty d sy f st :
  dispatched ty d → nominalKinded d sy →
  run (S fuel) ty f st =
  if f then extendClass env (run fuel) d (defaultSchemaObject d) st
  else addRefTypeSchema getHashCode (run fuel) ty d st.
Proof.
  intros Hd (Harr & Hbool & Hunion & Hinter & Hcls & Hsy & HDate & HObject).
  simpl. unfold getSchemaByType_body.
  rewrite (resolveType_dispatched _ _ Hd), Harr, Hbool, Hunion, Hinter, Hcls, Hsy.
  apply String.eqb_neq in HDate, HObject. by rewrite HDate, HObject.
Qed.

Lemma run_anonymous fuel ty d f st :
  dispatched ty d → anonymousKinded d →
  run (S fuel) ty f st = extendClass env (run fuel) d (defaultSchemaObject d) st.
Proof.
  intros Hd (Harr & Hbool & Hunion & Hinter & Hcls & Hanon).
  simpl. unfold getSchemaByType_body.
  by rewrite (resolveType_dispatched _ _ Hd), Harr, Hbool, Hunion, Hinter,
    Hcls, Hanon.
Qed.

(** *** [addRefTypeSchema], path by path *)

(** The entry pushed for a type called [name]. *)
Definition cacheDataFor (st : State) (ty : TypeId) (name : string) : TypeCache :=
  mkTypeCache name (allocateName (schemaObjects st) name) ty None.

Definition pushed (st : State) (c : TypeCache) : State :=
  mkState (schemaObjects st) (typeCache st ++ [c]).

(** Cache hit (lines 103-108): the reference carries the cached name, the
    context is untouched and no recursive call is made. *)
Lemma addRefTypeSchema_hit rec ty d st i c :
  list_find (fun c => cache_type c = ty) (typeCache st) = Some (i, c) →
  addRefTypeSchema getHashCode rec ty d st = Ret (refSchema (schemaName c)) st.
Proof. intros H. unfold addRefTypeSchema. by rewrite H. Qed.

(** Lines 127-133: an earlier entry with this hash and declared name sends
    the call into the branch that reads [cache.schemaName], where [cache]
    is the [undefined] that [find] returned on line 103. *)
Lemma addRefTypeSchema_duplicate rec ty d sy st schema st2 j c :
  list_find (fun c => cache_type c = ty) (typeCache st) = None →
  symbol d = Some sy →
  rec ty true (pushed st (cacheDataFor st ty (escapedName sy))) = Ret schema st2 →
  list_find (fun c => hashCode c = Some (getHashCode schema) ∧
                      typeName c = escapedName sy) (typeCache st2) = Some (j, c) →
  addRefTypeSchema getHashCode rec ty d st =
  Throw TypeError
    (mkState (schemaObjects st2)
       (splice1
          (fst <$> list_find
                     (fun c => schemaName c
                               = allocateName (schemaObjects st) (escapedName sy))
                     (typeCache st2))
          (typeCache st2))).
Proof.
  intros Hmiss Hsy Hrec Hdup. unfold addRefTypeSchema.
  rewrite Hmiss, Hsy. unfold pushed, cacheDataFor in Hrec. rewrite Hrec. simpl.
  by rewrite Hdup.
Qed.

(** Lines 134-140: without such an entry the fragment is registered under
    the allocated name and the hash is stored on the pushed entry. *)
Lemma addRefTypeSchema_register rec ty d sy st schema st2 :
  list_find (fun c => cache_type c = ty) (typeCache st) = None →
  symbol d = Some sy →
  rec ty true (pushed st (cacheDataFor st ty (escapedName sy))) = Ret schema st2 →
  list_find (fun c => hashCode c = Some (getHashCode schema) ∧
                      typeName c = escapedName sy) (typeCache st2) = None →
  addRefTypeSchema getHashCode rec ty d st =
  Ret (refSchema (allocateName (schemaObjects st) (escapedName sy)))
    (mkState
       (<[allocateName (schemaObjects st) (escapedName sy) := schema]>
          (schemaObjects st2))
       (alter (set_hashCode (getHashCode schema)) (length (typeCache st))
          (typeCache st2))).
Proof.
  intros Hmiss Hsy Hrec Hdup. unfold addRefTypeSchema.
  rewrite Hmiss, Hsy. unfold pushed, cacheDataFor in Hrec. rewrite Hrec. simpl.
  by rewrite Hdup.
Qed.

End Dispatch.

(** ** Name allocation *)

Section Allocation.

Variable schemaObjects : gmap string SchemaObject.
Variable typeName : string.

Lemma suffixed_inj : Inj (=) (=) (suffixed typeName).
Proof.
  intros i j H. unfold suffixed in H.
  apply (inj (String.app typeName)) in H.
  apply (inj (String.app "_")) in H.
  by apply (inj pretty) in H.
Qed.

Lemma probe_spec rounds i :
  let j := probe schemaObjects typeName rounds i in
  i ≤ j ≤ i + rounds ∧
  (∀ m, i ≤ m < j → is_Some (schemaObjects !! suffixed typeName m)) ∧
  (j < i + rounds → schemaObjects !! suffixed typeName j = None).
Proof.
  revert i. induction rounds as [|rounds IH]; intros i; simpl.
  - split; [lia|]. split; intros; lia.
  - case_bool_decide as Hkey.
    + destruct (IH (S i)) as (Hle & Hused & Hfree).
      split; [lia|]. split.
      * intros m Hm. destruct (decide (m = i)) as [->|]; [done|].
        apply Hused. lia.
      * intros Hlt. apply Hfree. lia.
    + split; [lia|]. split.
      * intros m Hm. lia.
      * intros _. by apply eq_None_not_Some.
Qed.

(** A registry cannot hold more suffixed names than it has keys. *)
Lemma suffixes_bounded n :
  (∀ m, 1 ≤ m < 1 + n → is_Some (schemaObjects !! suffixed typeName m)) →
  n ≤ size schemaObjects.
Proof.
  intros Hused.
  assert (suffixed typeName <$> seq 1 n ⊆+ (map_to_list schemaObjects).*1) as H.
  { apply NoDup_submseteq.
    - apply NoDup_fmap_2; [apply suffixed_inj | apply NoDup_seq].
    - intros x Hx. apply list_elem_of_fmap in Hx as (m & -> & Hm).
      apply elem_of_seq in Hm. destruct (Hused m) as [s Hs]; [lia|].
      apply list_elem_of_fmap. exists (suffixed typeName m, s).
      split; [done|]. by apply elem_of_map_to_list. }
  apply submseteq_length in H.
  by rewrite !length_fmap, length_seq, length_map_to_list in H.
Qed.

(** Lines 112-119: the declared name when it is free; otherwise the name
    with the least suffix [_i], [i >= 1], that is free. *)
Lemma allocateName_spec :
  (schemaObjects !! typeName = None →
   allocateName schemaObjects typeName = typeName) ∧
  (is_Some (schemaObjects !! typeName) →
   ∃ i, 1 ≤ i ∧
        allocateName schemaObjects typeName = suffixed typeName i ∧
        schemaObjects !! suffixed typeName i = None ∧
        ∀ m, 1 ≤ m < i → is_Some (schemaObjects !! suffixed typeName m)).
Proof.
  unfold allocateName. split.
  - intros Hfree. rewrite bool_decide_eq_false_2; [done|].
    rewrite Hfree. by intros [? ?].
  - intros Hused. rewrite bool_decide_eq_true_2 by done.
    destruct (probe_spec (size schemaObjects) 1) as (Hle & Hbelow & Hfree).
    exists (probe schemaObjects typeName (size schemaObjects) 1).
    repeat split; [lia | | done].
    destruct (decide (probe schemaObjects typeName (size schemaObjects) 1
                      < 1 + size schemaObjects)) as [Hlt|Hge]; [by apply Hfree|].
    apply eq_None_not_Some. intros Hlast.
    pose proof (suffixes_bounded (S (size schemaObjects))) as Hbound.
    assert (S (size schemaObjects) ≤ size schemaObjects); [|lia].
    apply Hbound. intros m Hm.
    destruct (decide (m = probe schemaObjects typeName (size schemaObjects) 1))
      as [->|]; [done|].
    apply Hbelow. lia.
Qed.

(** The allocated name is never a key of the registry. *)
Lemma allocateName_fresh :
  schemaObjects !! allocateName schemaObjects typeName = None.
Proof.
  destruct allocateName_spec as [Hfree Hused].
  destruct (schemaObjects !! typeName) eqn:Hname.
  - destruct Hused as (i & _ & -> & Hi & _); [eauto | done].
  - by rewrite Hfree.
Qed.

End Allocation.

(** ** References resolve *)

Section Registry.

Variable env : list TsType.
Variable getHashCode : SchemaObject → string.

(** Every reference [#/components/schemas/<name>] held by [s] names a key
    of the registry. *)
Definition noDanglingRef (st : State) (s : SchemaObject) : Prop :=
  ∀ name, ref_prefix +:+ name ∈ refNames s →
          is_Some (schemaObjects st !! name).

(** A context between two root calls: every cached name is registered and
    the registered fragments refer to cached names. *)
Definition consistent (st : State) : Prop :=
  (∀ c, c ∈ typeCache st → is_Some (schemaObjects st !! schemaName c)) ∧
  (∀ k s, schemaObjects st !! k = Some s → refs_within (cacheNames st) s).

Lemma consistent_fresh : consistent freshState.
Proof.
  split.
  - intros c Hc. by apply elem_of_nil in Hc.
  - intros k s Hk. simpl in Hk. by rewrite lookup_empty in Hk.
Qed.

Lemma consistent_noDanglingRef st s :
  consistent st → refs_within (cacheNames st) s → noDanglingRef st s.
Proof.
  intros [Hreg _] Hs name Hname.
  destruct (Hs _ Hname) as (name' & Heq & Hin).
  apply (inj (String.app ref_prefix)) in Heq as ->.
  apply list_elem_of_fmap in Hin as (c & -> & Hc). by apply Hreg.
Qed.

Lemma extends_consistent st st' :
  consistent st → extends env st st' → consistent st'.
Proof.
  intros [Hreg Hrefs] He. pose proof (extends_names _ _ _ He) as Hnames.
  destruct He as (new & Hc & Hnew & Hgrow & Hkeys). split.
  - intros c. rewrite Hc, elem_of_app. intros [Hold|Hin]; [by auto|].
    rewrite Forall_forall in Hnew. by apply Hnew.
  - intros k s Hk. destruct (Hkeys k s Hk) as [Hold|[? _]]; [|done].
    eapply refs_within_mono; [done | by eapply Hrefs].
Qed.

(** A root call that returns leaves a consistent context and a fragment
    that refers to cached names. *)
Lemma getSchemaByType_consistent fuel ty f st r st' :
  consistent st →
  getSchemaByType env getHashCode fuel ty f st = Ret r st' →
  consistent st' ∧ refs_within (cacheNames st') r.
Proof.
  intros Hst Hrun.
  pose proof (getSchemaByType_ok env getHashCode fuel ty f st) as Hok.
  rewrite Hrun in Hok. destruct Hok as [He Hr].
  split; [by eapply extends_consistent | done].
Qed.

End Registry.

(** ** The fragment [extendClass] builds *)

(** An object fragment: [type: 'object'] with [properties] and
    [required], and not a reference. *)
Definition objectShaped (s : SchemaObject) : Prop :=
  type s = Some "object" ∧ is_Some (properties s) ∧ is_Some (required s) ∧
  ref s = None.

(** The fragment stored for a member: [{ description, ...value }]. *)
Definition propertyValue (sym : TsSymbol) (value : SchemaObject) : SchemaObject :=
  match description value with
  | Some _ => value
  | None => set_description (symbol_comment sym) value
  end.

Definition propertiesOf (s : SchemaObject) : list (string * SchemaObject) :=
  default [] (properties s).

Definition requiredOf (s : SchemaObject) : list string :=
  default [] (required s).

Lemma assign_elem key v obj : (key, v) ∈ assign key v obj.
Proof.
  induction obj as [|[k w] rest IH]; simpl; [apply list_elem_of_here|].
  destruct (String.eqb_spec k key) as [->|].
  - apply list_elem_of_here.
  - by apply list_elem_of_further.
Qed.

Lemma assign_other key v obj k w :
  k ≠ key → (k, w) ∈ obj → (k, w) ∈ assign key v obj.
Proof.
  intros Hne. induction obj as [|[k' w'] rest IH]; simpl.
  - intros H. by apply elem_of_nil in H.
  - rewrite elem_of_cons. intros [[= <- <-]|Hin].
    + destruct (String.eqb_spec k key) as [->|]; [done|].
      apply list_elem_of_here.
    + destruct (String.eqb_spec k' key) as [->|];
        apply list_elem_of_further; auto.
Qed.

Lemma assign_keys key v obj k w :
  (k, w) ∈ assign key v obj → k = key ∨ (k, w) ∈ obj.
Proof.
  induction obj as [|[k' w'] rest IH]; simpl.
  - intros H. apply list_elem_of_singleton in H as [= -> ->]. by left.
  - destruct (String.eqb_spec k' key) as [->|].
    + rewrite !elem_of_cons. intros [[= -> ->]|Hin]; auto.
    + rewrite !elem_of_cons. intros [[= -> ->]|Hin]; [by auto|].
      destruct (IH Hin); auto.
Qed.

Lemma setProp_properties sym v schema :
  propertiesOf (setProp sym v schema)
  = assign (escapedName sym) (propertyValue sym v) (propertiesOf schema).
Proof.
  unfold setProp, propertiesOf, propertyValue.
  by destruct (hasQuestionToken sym), schema.
Qed.

Lemma setProp_required sym v schema :
  requiredOf (setProp sym v schema)
  = if hasQuestionToken sym then requiredOf schema
    else requiredOf schema ++ [escapedName sym].
Proof.
  unfold setProp, requiredOf. by destruct (hasQuestionToken sym), schema.
Qed.

Lemma setProp_objectShaped sym v schema :
  objectShaped schema → objectShaped (setProp sym v schema).
Proof.
  unfold objectShaped, setProp.
  intros (Hty & Hps & Hrq & Href).
  destruct (hasQuestionToken sym), schema; simpl in *; repeat split; eauto.
Qed.

Section Expansion.

Variable env : list TsType.
Variable getHashCode : SchemaObject → string.

#[local] Abbreviation run := (getSchemaByType env getHashCode).

Lemma extendClass_member_objectShaped rec sym schema st schema' st' :
  objectShaped schema →
  extendClass_member env rec sym schema st = Ret schema' st' →
  objectShaped schema'.
Proof.
  intros Hs. rewrite extendClass_member_action.
  destruct (memberAction env sym) as [|t|]; simpl.
  - by intros [= <- <-].
  - intros H. apply bind_Ret_inv in H as (v & st1 & _ & [= <- <-]).
    by apply setProp_objectShaped.
  - intros [= <- <-]. by apply setProp_objectShaped.
Qed.

Lemma extendClass_members_objectShaped rec syms schema st schema' st' :
  objectShaped schema →
  extendClass_members env rec syms schema st = Ret schema' st' →
  objectShaped schema'.
Proof.
  revert schema st. induction syms as [|sym syms IH]; intros schema st Hs; simpl.
  - by intros [= <- <-].
  - intros H. apply bind_Ret_inv in H as (schema1 & st1 & H1 & H).
    eapply IH; [|done]. by eapply extendClass_member_objectShaped.
Qed.

Lemma extendClass_objectShaped rec d dflt st s st' :
  ref dflt = None →
  extendClass env rec d dflt st = Ret s st' → objectShaped s.
Proof.
  intros Hdflt. unfold extendClass. intros H.
  apply bind_Ret_inv in H as (schema1 & st1 & H1 & H).
  eapply extendClass_members_objectShaped; [|done].
  assert (objectShaped
            (set_required [] (set_properties [] (set_type "object" dflt))))
    as Hs by (destruct dflt; simpl in *; repeat split; eauto).
  destruct (match getNumberIndexType d with
            | Some t => Some t
            | None => getStringIndexType d
            end) as [it|].
  - apply bind_Ret_inv in H1 as (r & st1' & _ & [= <- <-]).
    destruct Hs as (?&?&?&?). by repeat split.
  - by injection H1 as <- <-.
Qed.

Lemma defaultSchemaObject_ref d : ref (defaultSchemaObject d) = None.
Proof. unfold defaultSchemaObject. by repeat case_match. Qed.

(** A property written by one member survives the members after it that
    have other names. *)
Lemma extendClass_members_keep rec syms schema st schema' st' k w :
  k ∉ escapedName <$> syms →
  (k, w) ∈ propertiesOf schema →
  extendClass_members env rec syms schema st = Ret schema' st' →
  (k, w) ∈ propertiesOf schema'.
Proof.
  revert schema st.
  induction syms as [|sym syms IH]; intros schema st Hk Hin; simpl.
  - by intros [= <- <-].
  - intros H. apply bind_Ret_inv in H as (schema1 & st1 & H1 & H).
    rewrite fmap_cons, not_elem_of_cons in Hk. destruct Hk as [Hne Hk].
    eapply IH; [done| |done].
    rewrite extendClass_member_action in H1.
    destruct (memberAction env sym) as [|t|]; simpl in H1.
    + by injection H1 as <- <-.
    + apply bind_Ret_inv in H1 as (v & st1' & _ & [= <- <-]).
      rewrite setProp_properties. by apply assign_other.
    + injection H1 as <- <-. rewrite setProp_properties. by apply assign_other.
Qed.

(** Lines 103-108 seen from the caller, at any depth. *)
Lemma run_cache_hit fuel ty d sy st i c :
  dispatched env ty d → nominalKinded d sy →
  list_find (fun c => cache_type c = ty) (typeCache st) = Some (i, c) →
  run (S fuel) ty false st = Ret (refSchema (schemaName c)) st.
Proof.
  intros Hd Hn Hhit. rewrite (run_nominal _ _ _ _ _ _ _ _ Hd Hn).
  by eapply addRefTypeSchema_hit.
Qed.

Lemma extends_cache_hit st st' ty i c :
  extends env st st' →
  list_find (fun c => cache_type c = ty) (typeCache st) = Some (i, c) →
  list_find (fun c => cache_type c = ty) (typeCache st') = Some (i, c).
Proof. intros (new & -> & _) H. by apply list_find_app_l. Qed.

(** A member whose type has a cache entry is stored as the reference to
    the cached name, whatever the other members do. *)
Lemma extendClass_members_cached fuel syms schema st schema' st'
    sym u du su i c :
  dispatched env u du → nominalKinded du su →
  list_find (fun c => cache_type c = u) (typeCache st) = Some (i, c) →
  sym ∈ syms → NoDup (escapedName <$> syms) →
  memberAction env sym = Derive u →
  extendClass_members env (run fuel) syms schema st = Ret schema' st' →
  (escapedName sym, set_description (symbol_comment sym) (refSchema (schemaName c)))
  ∈ propertiesOf schema'.
Proof.
  intros Hd Hn. revert schema st.
  induction syms as [|sym0 syms IH]; intros schema st Hhit Hin Hnodup Hact; simpl.
  { by apply elem_of_nil in Hin. }
  intros H. apply bind_Ret_inv in H as (schema1 & st1 & H1 & H).
  rewrite fmap_cons in Hnodup. apply NoDup_cons in Hnodup as [Hfresh Hnodup].
  apply elem_of_cons in Hin as [<-|Hin].
  - rewrite extendClass_member_action, Hact in H1. simpl in H1.
    apply bind_Ret_inv in H1 as (v & st1' & Hv & [= <- <-]).
    destruct fuel as [|fuel']; [done|].
    rewrite (run_cache_hit _ _ _ _ _ _ _ Hd Hn Hhit) in Hv.
    injection Hv as <- <-.
    eapply extendClass_members_keep; [exact Hfresh| |exact H].
    rewrite setProp_properties. apply assign_elem.
  - eapply IH; [|done|done|done|exact H].
    eapply extends_cache_hit; [|done].
    by eapply extendClass_member_extends.
Qed.

Lemma extendClass_cached fuel d dflt st s st' sym u du su i c :
  dispatched env u du → nominalKinded du su →
  list_find (fun c => cache_type c = u) (typeCache st) = Some (i, c) →
  sym ∈ getProperties d → keptByFilter sym = true →
  NoDup (escapedName <$> getProperties d) →
  memberAction env sym = Derive u →
  extendClass env (run fuel) d dflt st = Ret s st' →
  (escapedName sym, set_description (symbol_comment sym) (refSchema (schemaName c)))
  ∈ propertiesOf s.
Proof.
  intros Hd Hn Hhit Hin Hkept Hnodup Hact. unfold extendClass. intros H.
  apply bind_Ret_inv in H as (schema1 & st1 & H1 & H).
  eapply extendClass_members_cached; [done|done| | | |done|exact H].
  - destruct (match getNumberIndexType d with
              | Some t => Some t
              | None => getStringIndexType d
              end) as [it|].
    + apply bind_Ret_inv in H1 as (r & st1' & Hr & [= <- <-]).
      eapply extends_cache_hit; [|done]. by eapply run_extends.
    + by injection H1 as <- <-.
  - apply list_elem_of_filter. split; [by rewrite Hkept | done].
  - eapply sublist_NoDup; [exact Hnodup|].
    apply fmap_sublist, sublist_filter.
Qed.

(** What a first resolution that returns has done (lines 110-140). *)
Lemma addRefTypeSchema_Ret_inv rec ty d sy st r st' :
  list_find (fun c => cache_type c = ty) (typeCache st) = None →
  symbol d = Some sy →
  addRefTypeSchema getHashCode rec ty d st = Ret r st' →
  ∃ schema st2,
    rec ty true (pushed st (cacheDataFor st ty (escapedName sy))) = Ret schema st2 ∧
    r = refSchema (allocateName (schemaObjects st) (escapedName sy)) ∧
    st' = mkState
            (<[allocateName (schemaObjects st) (escapedName sy) := schema]>
               (schemaObjects st2))
            (alter (set_hashCode (getHashCode schema)) (length (typeCache st))
               (typeCache st2)).
Proof.
  intros Hmiss Hsy. unfold addRefTypeSchema. rewrite Hmiss, Hsy.
  fold (cacheDataFor st ty (escapedName sy)).
  fold (pushed st (cacheDataFor st ty (escapedName sy))).
  destruct (rec ty true _) as [schema st2|e st2|]; simpl; [|done|done].
  destruct (list_find _ (typeCache st2)); [done|].
  intros [= <- <-]. by exists schema, st2.
Qed.

(** The fragment registered for a type that refers to itself holds the
    reference to its own name, not a nested expansion. *)
Lemma self_reference_registered fuel ty d sy sym st r st' :
  dispatched env ty d → nominalKinded d sy →
  list_find (fun c => cache_type c = ty) (typeCache st) = None →
  sym ∈ getProperties d → keptByFilter sym = true →
  NoDup (escapedName <$> getProperties d) →
  memberAction env sym = Derive ty →
  run fuel ty false st = Ret r st' →
  let name := allocateName (schemaObjects st) (escapedName sy) in
  r = refSchema name ∧
  ∃ s, schemaObjects st' !! name = Some s ∧
       (escapedName sym, set_description (symbol_comment sym) (refSchema name))
       ∈ propertiesOf s.
Proof.
  intros Hd Hn Hmiss Hin Hkept Hnodup Hact Hrun name.
  destruct fuel as [|fuel]; [done|].
  rewrite (run_nominal _ _ _ _ _ _ _ _ Hd Hn) in Hrun.
  pose proof Hn as (_&_&_&_&_&Hsy&_).
  apply (addRefTypeSchema_Ret_inv _ _ _ sy) in Hrun
    as (schema & st2 & Hexp & -> & ->); [|done|done].
  split; [done|]. exists schema. split; [apply lookup_insert_eq|].
  destruct fuel as [|fuel]; [done|].
  rewrite (run_nominal _ _ _ _ _ _ _ _ Hd Hn) in Hexp.
  eapply (extendClass_cached _ _ _ _ _ _ sym ty d sy (length (typeCache st))
            (cacheDataFor st ty (escapedName sy))); [done..| |done|done|done|done|exact Hexp].
  unfold pushed. simpl. rewrite list_find_app_r by done.
  simpl. by rewrite decide_True.
Qed.

(** *** Which members reach the fragment *)

Lemma assign_keys_fst key v obj k :
  k ∈ (assign key v obj).*1 → k = key ∨ k ∈ obj.*1.
Proof.
  intros Hk. apply list_elem_of_fmap in Hk as ([k' w] & -> & Hin). simpl.
  apply assign_keys in Hin as [->|Hin]; [by left|].
  right. apply list_elem_of_fmap. by exists (k', w).
Qed.

Lemma extendClass_member_names rec sym schema st schema' st' k :
  extendClass_member env rec sym schema st = Ret schema' st' →
  k ∈ (propertiesOf schema').*1 ∨ k ∈ requiredOf schema' →
  (k ∈ (propertiesOf schema).*1 ∨ k ∈ requiredOf schema) ∨
  (k = escapedName sym ∧ memberAction env sym ≠ Skip).
Proof.
  rewrite extendClass_member_action.
  assert (∀ v, k ∈ (propertiesOf (setProp sym v schema)).*1 ∨
               k ∈ requiredOf (setProp sym v schema) →
               (k ∈ (propertiesOf schema).*1 ∨ k ∈ requiredOf schema) ∨
               k = escapedName sym) as Hset.
  { intros v. rewrite setProp_properties, setProp_required.
    intros [Hk|Hk].
    - apply assign_keys_fst in Hk as [->|Hk]; auto.
    - destruct (hasQuestionToken sym); [by auto|].
      apply elem_of_app in Hk as [Hk|Hk]; [by auto|].
      apply list_elem_of_singleton in Hk. auto. }
  destruct (memberAction env sym) as [|t|]; simpl.
  - intros [= <- <-]. auto.
  - intros H Hk. apply bind_Ret_inv in H as (v & st1 & _ & [= <- <-]).
    destruct (Hset v Hk) as [?|?]; [by left|by right].
  - intros [= <- <-] Hk. destruct (Hset _ Hk) as [?|?]; [by left|by right].
Qed.

Lemma extendClass_members_names rec syms schema st schema' st' k :
  extendClass_members env rec syms schema st = Ret schema' st' →
  k ∈ (propertiesOf schema').*1 ∨ k ∈ requiredOf schema' →
  (k ∈ (propertiesOf schema).*1 ∨ k ∈ requiredOf schema) ∨
  ∃ sym, sym ∈ syms ∧ escapedName sym = k ∧ memberAction env sym ≠ Skip.
Proof.
  revert schema st. induction syms as [|sym syms IH]; intros schema st; simpl.
  - intros [= <- <-]. auto.
  - intros H Hk. apply bind_Ret_inv in H as (schema1 & st1 & H1 & H).
    destruct (IH _ _ H Hk) as [Hk1|(sym' & Hin & Hname & Hact)].
    + destruct (extendClass_member_names _ _ _ _ _ _ _ H1 Hk1)
        as [?|[-> Hact]]; [by left|].
      right. exists sym. split; [apply list_elem_of_here | done].
    + right. exists sym'. split; [by apply list_elem_of_further | done].
Qed.

(** Every name in [properties] or [required] is the name of a member that
    passed the filter and was not skipped. *)
Lemma extendClass_names rec d dflt st s st' k :
  extendClass env rec d dflt st = Ret s st' →
  k ∈ (propertiesOf s).*1 ∨ k ∈ requiredOf s →
  ∃ sym, sym ∈ getProperties d ∧ keptByFilter sym = true ∧
         escapedName sym = k ∧ memberAction env sym ≠ Skip.
Proof.
  unfold extendClass. intros H Hk.
  apply bind_Ret_inv in H as (schema1 & st1 & H1 & H).
  destruct (extendClass_members_names _ _ _ _ _ _ _ H Hk)
    as [Hk1|(sym & Hin & Hname & Hact)].
  - exfalso.
    assert (propertiesOf schema1 = [] ∧ requiredOf schema1 = []) as [Hp Hr].
    { destruct (match getNumberIndexType d with
                | Some t => Some t
                | None => getStringIndexType d
                end) as [it|].
      - apply bind_Ret_inv in H1 as (r & st1' & _ & [= <- <-]).
        by destruct dflt.
      - injection H1 as <- <-. by destruct dflt. }
    rewrite Hp, Hr in Hk1. destruct Hk1 as [Hk1|Hk1]; by apply elem_of_nil in Hk1.
  - apply list_elem_of_filter in Hin as [Hkept Hin].
    exists sym. repeat split; [done| |done|done].
    by destruct (keptByFilter sym).
Qed.

Lemma NoDup_fmap_eq {A B : Type} (f : A → B) (l : list A) (x y : A) :
  NoDup (f <$> l) → x ∈ l → y ∈ l → f x = f y → x = y.
Proof.
  induction l as [|a l IH]; simpl; intros Hnd Hx Hy Hf.
  { by apply elem_of_nil in Hx. }
  apply NoDup_cons in Hnd as [Ha Hnd].
  apply elem_of_cons in Hx as [->|Hx]; apply elem_of_cons in Hy as [->|Hy].
  - done.
  - exfalso. apply Ha. rewrite Hf. apply list_elem_of_fmap. eauto.
  - exfalso. apply Ha. rewrite <- Hf. apply list_elem_of_fmap. eauto.
  - by apply IH.
Qed.

(** A member removed by the filter (private or protected) or skipped by
    the loop (declared as a method or arrow function, or, when its type is
    found through its declaration, of a type called [Function] or declared
    by an arrow function) is in neither [properties] nor [required]. *)
Lemma extendClass_skipped_absent rec d dflt st s st' sym :
  NoDup (escapedName <$> getProperties d) →
  sym ∈ getProperties d →
  keptByFilter sym = false ∨ memberAction env sym = Skip →
  extendClass env rec d dflt st = Ret s st' →
  (escapedName sym ∉ (propertiesOf s).*1) ∧ (escapedName sym ∉ requiredOf s).
Proof.
  intros Hnodup Hin Hskip Hrun.
  assert (¬ (escapedName sym ∈ (propertiesOf s).*1 ∨
             escapedName sym ∈ requiredOf s)) as Hnot; [|by auto].
  intros Hk.
  destruct (extendClass_names _ _ _ _ _ _ _ Hrun Hk)
    as (sym' & Hin' & Hkept & Hname & Hact).
  assert (sym' = sym) as -> by (by eapply NoDup_fmap_eq).
  destruct Hskip; congruence.
Qed.

End Expansion.

(** ** Type tables of the examples *)

(** A content hash for the examples: the text of the fragment. *)
Definition literalText (v : LiteralValue) : string :=
  match v with
  | LitString s => s
  | LitNumber z => pretty z
  | LitUndefined => "undefined"
  end.

Fixpoint schemaText (s : SchemaObject) : string :=
  match s with
  | mkSchema de ty fo it en oo ao ps rq ap rf =>
      "{" +:+ default EmptyString de +:+ ";" +:+ default EmptyString ty +:+ ";" +:+ default EmptyString fo
      +:+ ";" +:+ from_option schemaText EmptyString it
      +:+ ";" +:+ from_option (fun l => String.concat "," (map literalText l))
                    EmptyString en
      +:+ ";" +:+ from_option (fun l => String.concat "," (map schemaText l)) EmptyString oo
      +:+ ";" +:+ from_option (fun l => String.concat "," (map schemaText l)) EmptyString ao
      +:+ ";" +:+ from_option
                    (fun l => String.concat ","
                                (map (fun p => fst p +:+ ":" +:+ schemaText (snd p)) l))
                    EmptyString ps
      +:+ ";" +:+ from_option (String.concat ",") EmptyString rq
      +:+ ";" +:+ from_option schemaText EmptyString ap
      +:+ ";" +:+ default EmptyString rf +:+ "}"
  end.

(** [ts.TypeFlags] and [ts.ObjectFlags] members used to build tables. *)
Definition TypeFlags_String : Z := 4.
Definition TypeFlags_Number : Z := 8.
Definition TypeFlags_StringLiteral : Z := 128.
Definition TypeFlags_BooleanLiteral : Z := 512.
Definition TypeFlags_Object : Z := 524288.
Definition ObjectFlags_Class : Z := 1.
Definition ObjectFlags_Reference : Z := 4.

(** [string], [number] and the like: no symbol, no members. *)
Definition intrinsicType (fl : Z) (name : string) : TsType :=
  mkType fl 0 None None [] LitUndefined false false false false None name
    None None [].

Definition literalType (fl : Z) (v : LiteralValue) (name : string) : TsType :=
  mkType fl 0 None None [] v false false false false None name None None [].

Definition namedSymbol (name : string) : TsSymbol :=
  mkSymbol name None None None None.

(** A property declared with a type annotation, resolved through
    [getTypeAtLocation]. *)
Definition propertyOf (name : string) (ty : TypeId) (optional : bool) : TsSymbol :=
  mkSymbol name (Some (mkDeclaration None PropertyDeclaration optional ty))
    None None None.

Definition classType (name : string) (members : list TsSymbol) : TsType :=
  mkType TypeFlags_Object ObjectFlags_Class (Some (namedSymbol name)) None []
    LitUndefined false false false true None name None None members.

Definition anonymousType (members : list TsSymbol) : TsType :=
  mkType TypeFlags_Object ObjectFlags_Anonymous (Some (namedSymbol "__type"))
    None [] LitUndefined false false false false None "{ ... }" None None
    members.

Definition unionType (fl : Z) (name : option string) (members : list TypeId)
    : TsType :=
  mkType (Z.lor TypeFlags_Union fl) 0 (namedSymbol <$> name) None members
    LitUndefined false true false false None (default "union" name) None None [].

(** [Promise<arg>]: an instantiation of the interface, which is a type
    reference and not a class or interface itself. *)
Definition promiseType (arg : TypeId) (text : string) : TsType :=
  mkType TypeFlags_Object ObjectFlags_Reference (Some (namedSymbol "Promise"))
    (Some [arg]) [] LitUndefined false false false false None text None None [].

Definition numberSchema : SchemaObject := set_type "number" emptySchema.

(** [class Node { value: number; next?: Node }] *)
Definition nodeTable : list TsType :=
  [ intrinsicType TypeFlags_Number "number";
    classType "Node" [propertyOf "value" 0 false; propertyOf "next" 1 true] ].

Definition nodeSchema : SchemaObject :=
  set_required ["value"]
    (set_properties [("value", numberSchema); ("next", refSchema "Node")]
       (set_type "object" emptySchema)).

(** Two unrelated classes [Pair] with the same two fields (types 1 and 2),
    and [{ first: Pair; second: Pair }] over the two (type 3). *)
Definition pairMembers : list TsSymbol :=
  [propertyOf "left" 0 false; propertyOf "right" 0 false].

Definition pairTable : list TsType :=
  [ intrinsicType TypeFlags_Number "number";
    classType "Pair" pairMembers;
    classType "Pair" pairMembers;
    anonymousType [propertyOf "first" 1 false; propertyOf "second" 2 false] ].

Definition pairSchema : SchemaObject :=
  set_required ["left"; "right"]
    (set_properties [("left", numberSchema); ("right", numberSchema)]
       (set_type "object" emptySchema)).

Definition pairEntry (h : SchemaObject → string) : TypeCache :=
  mkTypeCache "Pair" "Pair" 1 (Some (h pairSchema)).

(** The context after the first [Pair] has been resolved. *)
Definition pairContext (h : SchemaObject → string) : State :=
  mkState {[ "Pair" := pairSchema ]} [pairEntry h].

(** The context while the second [Pair] is being expanded. *)
Definition pairPending (h : SchemaObject → string) : State :=
  mkState {[ "Pair" := pairSchema ]}
    [pairEntry h; mkTypeCache "Pair" "Pair_1" 2 None].

(** [class Foo { inner: Foo' }] where [Foo'] is another class called
    [Foo], [class Foo { x: number }] (types 1 and 2). *)
Definition nestedTable : list TsType :=
  [ intrinsicType TypeFlags_Number "number";
    classType "Foo" [propertyOf "inner" 2 false];
    classType "Foo" [propertyOf "x" 0 false] ].

Definition innerSchema : SchemaObject :=
  set_required ["x"]
    (set_properties [("x", numberSchema)] (set_type "object" emptySchema)).

Definition outerSchema : SchemaObject :=
  set_required ["inner"]
    (set_properties [("inner", refSchema "Foo")] (set_type "object" emptySchema)).

(** [Promise<Promise<string>>] (type 2) over [Promise<string>] (type 1). *)
Definition promiseTable : list TsType :=
  [ intrinsicType TypeFlags_String "string";
    promiseType 0 "Promise<string>";
    promiseType 1 "Promise<Promise<string>>" ].

(** [enum Status { Ok = "Ok", Error = "Error" }] (type 2) and
    [string | number] (type 5). *)
Definition statusTable : list TsType :=
  [ literalType (Z.lor TypeFlags_EnumLiteral TypeFlags_StringLiteral)
      (LitString "Ok") "Status.Ok";
    literalType (Z.lor TypeFlags_EnumLiteral TypeFlags_StringLiteral)
      (LitString "Error") "Status.Error";
    unionType TypeFlags_EnumLiteral (Some "Status") [0; 1];
    intrinsicType TypeFlags_String "string";
    intrinsicType TypeFlags_Number "number";
    unionType 0 None [3; 4] ].

(** [boolean] (type 2), the union of the literals [true] and [false]. *)
Definition booleanTable : list TsType :=
  [ literalType TypeFlags_BooleanLiteral LitUndefined "true";
    literalType TypeFlags_BooleanLiteral LitUndefined "false";
    unionType TypeFlags_Boolean None [0; 1] ].

(** The interface [Function] (type 1) and an object type (type 2) with a
    data member, a member of type [Function] whose symbol carries its type
    ([symbol.type]), and a member of type [Function] resolved through its
    declaration. *)
Definition handlerTable : list TsType :=
  [ intrinsicType TypeFlags_Number "number";
    classType "Function" [];
    anonymousType
      [ propertyOf "count" 0 false;
        mkSymbol "handler"
          (Some (mkDeclaration None PropertyDeclaration false 1))
          (Some 1) None None;
        propertyOf "callback" 1 false ] ].

(** [{ head: Node; size: number }] (type 2) over the table of [Node]. *)
Definition listTable : list TsType :=
  nodeTable
  ++ [ anonymousType [propertyOf "head" 1 false; propertyOf "size" 0 false] ].

(** ** The properties of the specification *)

Lemma pair_dispatched ty :
  ty = 1 ∨ ty = 2 →
  dispatched pairTable ty (classType "Pair" pairMembers) ∧
  nominalKinded (classType "Pair" pairMembers) (namedSymbol "Pair").
Proof.
  intros [-> | ->]; (split; [split; [reflexivity | by vm_compute] |]);
    repeat split; by vm_compute.
Qed.

(** The first [Pair] is registered under its declared name. *)
Lemma first_pair_registered h n :
  getSchemaByType pairTable h (3 + n) 1 false freshState
  = Ret (refSchema "Pair") (pairContext h).
Proof. vm_compute. reflexivity. Qed.

(** The second [Pair], resolved in the context the first one left, runs
    into the read of [cache.schemaName]. *)
Lemma second_pair_throws h n :
  getSchemaByType pairTable h (3 + n) 2 false (pairContext h)
  = Throw TypeError (pairContext h).
Proof.
  destruct (pair_dispatched 2) as [Hd Hn]; [by right|].
  change (3 + n) with (S (2 + n)).
  rewrite (run_nominal _ _ _ _ _ _ _ _ Hd Hn).
  rewrite (addRefTypeSchema_duplicate h _ 2 _ (namedSymbol "Pair") _
             pairSchema (pairPending h) 0 (pairEntry h)).
  - vm_compute. reflexivity.
  - vm_compute. reflexivity.
  - reflexivity.
  - vm_compute. reflexivity.
  - apply list_find_Some. split; [reflexivity|]. split; [split; reflexivity|].
    intros j y _ Hj. lia.
Qed.

(** C1 (code defect).  Two distinct classes [Pair] with the same members:
    the first resolution registers [Pair]; the second, in reference mode,
    finds the earlier entry with the same hash and declared name, removes
    its own cache entry and registers nothing, but then throws a
    [TypeError] instead of returning the reference to [Pair]. *)
Theorem identical_pairs_second_resolution_throws :
  ∀ (h : SchemaObject → string) (n : nat),
    getSchemaByType pairTable h (3 + n) 1 false freshState
    = Ret (refSchema "Pair") (pairContext h) ∧
    getSchemaByType pairTable h (3 + n) 2 false (pairContext h)
    = Throw TypeError (pairContext h) ∧
    getSchemaByType pairTable h (3 + n) 2 false (pairContext h)
    ≠ Ret (refSchema "Pair") (pairContext h).
Proof.
  intros h n. split; [apply first_pair_registered|].
  rewrite second_pair_throws. done.
Qed.

(** C2 (code defect).  A root call on a fresh context that throws: the
    object type [{ first: Pair; second: Pair }] over the two classes. *)
Theorem root_call_on_fresh_context_throws :
  ∀ (h : SchemaObject → string) (n : nat),
    getSchemaByType pairTable h (4 + n) 3 false freshState
    = Throw TypeError (pairContext h).
Proof.
  intros h n. change (4 + n) with (S (3 + n)).
  rewrite (run_anonymous pairTable h _ 3
             (anonymousType [propertyOf "first" 1 false; propertyOf "second" 2 false])).
  2:{ split; [reflexivity | by vm_compute]. }
  2:{ repeat split; by vm_compute. }
  assert (∀ st, st = freshState →
            getSchemaByType pairTable h (3 + n) 1 false st
            = Ret (refSchema "Pair") (pairContext h)) as H1.
  { intros st ->. apply first_pair_registered. }
  assert (∀ st, st = pairContext h →
            getSchemaByType pairTable h (3 + n) 2 false st
            = Throw TypeError (pairContext h)) as H2.
  { intros st ->. apply second_pair_throws. }
  generalize dependent (getSchemaByType pairTable h (3 + n)). intros rec H1 H2.
  vm_compute. erewrite H1; [|reflexivity].
  vm_compute. erewrite H2; reflexivity.
Qed.

(** C3.  In a type table where no cycle avoids the class and interface
    types, every call of [getSchemaByType] halts, in every context and in
    both modes, with an outcome that no longer depends on the depth
    allowed.  A class or interface type that has its cache entry (pushed
    before its members are expanded) resolves to the reference to the
    cached name without any recursive call; a member whose type has such
    an entry is stored as that reference; and the fragment registered for
    a type that refers to itself holds the reference to its own name. *)
Theorem cycles_through_nominal_types_terminate :
  ∀ (env : list TsType) (h : SchemaObject → string),
    acyclic env →
    (∀ ty f st,
       ∃ fuel, terminates (getSchemaByType env h fuel ty f st) ∧
               ∀ fuel', fuel ≤ fuel' →
                 getSchemaByType env h fuel' ty f st
                 = getSchemaByType env h fuel ty f st) ∧
    (∀ ty d sy fuel st i c,
       dispatched env ty d → nominalKinded d sy →
       list_find (fun c => cache_type c = ty) (typeCache st) = Some (i, c) →
       getSchemaByType env h (S fuel) ty false st
       = Ret (refSchema (schemaName c)) st) ∧
    (∀ fuel d dflt st s st' sym u du su i c,
       dispatched env u du → nominalKinded du su →
       list_find (fun c => cache_type c = u) (typeCache st) = Some (i, c) →
       sym ∈ getProperties d → keptByFilter sym = true →
       NoDup (escapedName <$> getProperties d) →
       memberAction env sym = Derive u →
       extendClass env (getSchemaByType env h fuel) d dflt st = Ret s st' →
       (escapedName sym,
        set_description (symbol_comment sym) (refSchema (schemaName c)))
       ∈ propertiesOf s) ∧
    (∀ fuel ty d sy sym st r st',
       dispatched env ty d → nominalKinded d sy →
       list_find (fun c => cache_type c = ty) (typeCache st) = None →
       sym ∈ getProperties d → keptByFilter sym = true →
       NoDup (escapedName <$> getProperties d) →
       memberAction env sym = Derive ty →
       getSchemaByType env h fuel ty false st = Ret r st' →
       r = refSchema (allocateName (schemaObjects st) (escapedName sy)) ∧
       ∃ s, schemaObjects st'
              !! allocateName (schemaObjects st) (escapedName sy) = Some s ∧
            (escapedName sym,
             set_description (symbol_comment sym)
               (refSchema (allocateName (schemaObjects st) (escapedName sy))))
            ∈ propertiesOf s).
Proof.
  intros env h Hacyc. split; [|split; [|split]].
  - intros ty f st. by apply acyclic_halts.
  - intros ty d sy fuel st i c. apply run_cache_hit.
  - intros fuel d dflt st s st' sym u du su i c. apply extendClass_cached.
  - intros fuel ty d sy sym st r st'. apply self_reference_registered.
Qed.

(** [class Node { value: number; next?: Node }]: the call halts and the
    fragment registered for [Node] refers to [Node]. *)
Lemma cycles_through_nominal_types_terminate_witness :
  acyclic nodeTable ∧
  (∃ fuel, terminates (getSchemaByType nodeTable schemaText fuel 1 false freshState)) ∧
  getSchemaByType nodeTable schemaText 4 1 false freshState
  = Ret (refSchema "Node")
      (mkState {[ "Node" := nodeSchema ]}
         [mkTypeCache "Node" "Node" 1 (Some (schemaText nodeSchema))]).
Proof.
  assert (acyclic nodeTable) as Hacyc.
  { apply (ranked_acyclic nodeTable (fun t => 2 - t)). by vm_compute. }
  split; [exact Hacyc|]. split; [|by vm_compute].
  destruct (cycles_through_nominal_types_terminate nodeTable schemaText Hacyc)
    as (Hhalt & _).
  destruct (Hhalt 1 false freshState) as (fuel & Hfuel & _). by exists fuel.
Defined.

(** C4.  After a root call has returned, every reference in the returned
    fragment and in every registered fragment is
    [#/components/schemas/<name>] for a key [name] of the registry.  This
    holds on a fresh context and on any context consistent calls have left,
    and the call leaves the context consistent again. *)
Theorem no_dangling_reference :
  ∀ (env : list TsType) (h : SchemaObject → string) (fuel : nat)
    (ty : TypeId) (f : bool) (st : State) (r : SchemaObject) (st' : State),
    consistent st →
    getSchemaByType env h fuel ty f st = Ret r st' →
    (noDanglingRef st' r ∧
     ∀ ref, ref ∈ refNames r → ∃ name, ref = ref_prefix +:+ name) ∧
    (∀ k s, schemaObjects st' !! k = Some s →
       noDanglingRef st' s ∧
       ∀ ref, ref ∈ refNames s → ∃ name, ref = ref_prefix +:+ name) ∧
    consistent st'.
Proof.
  intros env h fuel ty f st r st' Hst Hrun.
  destruct (getSchemaByType_consistent env h fuel ty f st r st' Hst Hrun)
    as [Hst' Hr].
  assert (∀ s, refs_within (cacheNames st') s →
            noDanglingRef st' s ∧
            ∀ ref, ref ∈ refNames s → ∃ name, ref = ref_prefix +:+ name) as Hok.
  { intros s Hs. split; [by apply consistent_noDanglingRef|].
    intros ref Href. destruct (Hs ref Href) as (name & -> & _). eauto. }
  split; [by apply Hok|]. split; [|done]. intros k s Hk. apply Hok.
  destruct Hst' as [_ Hrefs]. by eapply Hrefs.
Qed.

(** [{ head: Node; size: number }] on a fresh context. *)
Lemma no_dangling_reference_witness :
  consistent freshState ∧
  getSchemaByType listTable schemaText 5 2 false freshState
  = Ret
      (set_required ["head"; "size"]
         (set_properties [("head", refSchema "Node"); ("size", numberSchema)]
            (set_type "object" emptySchema)))
      (mkState {[ "Node" := nodeSchema ]}
         [mkTypeCache "Node" "Node" 1 (Some (schemaText nodeSchema))]) ∧
  noDanglingRef
    (mkState {[ "Node" := nodeSchema ]}
       [mkTypeCache "Node" "Node" 1 (Some (schemaText nodeSchema))])
    (set_required ["head"; "size"]
       (set_properties [("head", refSchema "Node"); ("size", numberSchema)]
          (set_type "object" emptySchema))).
Proof.
  assert (getSchemaByType listTable schemaText 5 2 false freshState
          = Ret
              (set_required ["head"; "size"]
                 (set_properties
                    [("head", refSchema "Node"); ("size", numberSchema)]
                    (set_type "object" emptySchema)))
              (mkState {[ "Node" := nodeSchema ]}
                 [mkTypeCache "Node" "Node" 1 (Some (schemaText nodeSchema))]))
    as Hrun by (by vm_compute).
  split; [apply consistent_fresh|]. split; [exact Hrun|].
  apply (no_dangling_reference listTable schemaText 5 2 false freshState _ _
           consistent_fresh Hrun).
Defined.

(** C5, the claim as stated fails for nested wrappers: the inner wrapper
    is rendered by the fallback arm. *)
Lemma nested_wrapper_is_not_unwrapped :
  lazyWrapper promiseTable 2 1 ∧
  getSchemaByType promiseTable schemaText 2 2 false freshState
  = Ret (set_type "Promise<string>" emptySchema) freshState ∧
  getSchemaByType promiseTable schemaText 2 1 false freshState
  = Ret (set_type "string" emptySchema) freshState ∧
  getSchemaByType promiseTable schemaText 2 2 false freshState
  ≠ getSchemaByType promiseTable schemaText 2 1 false freshState.
Proof.
  split; [by eexists; repeat split|].
  split; [by vm_compute|]. split; [by vm_compute|]. by vm_compute.
Qed.

(** C5 (amended).  A lazy wrapper whose argument is not itself called
    [Promise] is derived exactly as its argument: same outcome, same
    context. *)
Theorem lazy_wrapper_is_unwrapped_once :
  ∀ (env : list TsType) (h : SchemaObject → string) (W T : TypeId)
    (fuel : nat) (f : bool) (st : State),
    lazyWrapper env W T →
    (∀ d, env !! T = Some d → symbolName d ≠ Some "Promise") →
    getSchemaByType env h fuel W f st = getSchemaByType env h fuel T f st.
Proof.
  intros env h W T fuel f st HW HT. destruct fuel as [|fuel]; [done|].
  simpl. unfold getSchemaByType_body.
  by rewrite (resolveType_lazyWrapper _ _ _ HW), (resolveType_not_Promise _ _ HT).
Qed.

(** [Promise<string>] is derived as [string]. *)
Lemma lazy_wrapper_is_unwrapped_once_witness :
  lazyWrapper promiseTable 1 0 ∧
  getSchemaByType promiseTable schemaText 2 1 false freshState
  = getSchemaByType promiseTable schemaText 2 0 false freshState.
Proof.
  assert (lazyWrapper promiseTable 1 0) as HW by (by eexists; repeat split).
  split; [exact HW|].
  apply (lazy_wrapper_is_unwrapped_once promiseTable schemaText 1 0 2 false
           freshState HW).
  intros d [= <-]. by vm_compute.
Defined.

(** The schemas of [tys], derived one after the other from left to right,
    each in the context the one before left. *)
Inductive derivedInOrder (rec : TypeId → bool → State → Outcome SchemaObject)
    (f : bool) : list TypeId → list SchemaObject → State → State → Prop :=
| derived_nil st : derivedInOrder rec f [] [] st st
| derived_cons t tys r rs st st1 st2 :
    rec t f st = Ret r st1 →
    derivedInOrder rec f tys rs st1 st2 →
    derivedInOrder rec f (t :: tys) (r :: rs) st st2.

Lemma mapSchemas_derivedInOrder rec tys f st rs st' :
  mapSchemas rec tys f st = Ret rs st' ↔ derivedInOrder rec f tys rs st st'.
Proof.
  revert st rs. induction tys as [|t tys IH]; intros st rs; simpl.
  - split.
    + intros [= <- <-]. constructor.
    + by inversion 1.
  - split.
    + intros H. apply bind_Ret_inv in H as (r & st1 & Hr & H).
      apply bind_Ret_inv in H as (rs' & st2 & Hrs & [= <- <-]).
      econstructor; [done|]. by apply IH.
    + inversion 1 as [|? ? r rs' ? st1 ? Hr Hrs]; subst.
      rewrite Hr. simpl. apply IH in Hrs. by rewrite Hrs.
Qed.

Definition enumLiteralKinded (env : list TsType) (t : TypeId) : Prop :=
  ∃ m, env !! t = Some m ∧ has_flag (flags m) TypeFlags_EnumLiteral = true.

Definition otherKinded (env : list TsType) (t : TypeId) : Prop :=
  ∃ m, env !! t = Some m ∧ has_flag (flags m) TypeFlags_EnumLiteral = false.

Lemma everyEnumLiteral_true env tys :
  Forall (enumLiteralKinded env) tys → everyEnumLiteral env tys = Some true.
Proof.
  induction 1 as [|t tys (m & Hm & Hflag) _ IH]; simpl; [done|].
  by rewrite Hm, Hflag.
Qed.

Lemma everyEnumLiteral_false env tys :
  Forall (fun t => is_Some (env !! t)) tys → Exists (otherKinded env) tys →
  everyEnumLiteral env tys = Some false.
Proof.
  intros Hall Hex. induction Hall as [|t tys [m Hm] Hall IH]; simpl.
  - by apply Exists_nil in Hex.
  - rewrite Hm. destruct (has_flag (flags m) TypeFlags_EnumLiteral) eqn:Hflag;
      [|done].
    apply IH. apply Exists_cons in Hex as [(m' & Hm' & Hflag')|Hex]; [|done].
    congruence.
Qed.

Lemma literalValues_in_order env tys :
  Forall (fun t => is_Some (env !! t)) tys →
  Forall2 (fun t v => ∃ m, env !! t = Some m ∧ v = value m) tys
    (literalValues env tys).
Proof.
  unfold literalValues. induction 1 as [|t tys [m Hm] _ IH]; simpl; [done|].
  rewrite Hm. simpl. constructor; eauto.
Qed.

Lemma defaultSchemaObject_fields d :
  type (defaultSchemaObject d) = None ∧ enum (defaultSchemaObject d) = None ∧
  oneOf (defaultSchemaObject d) = None.
Proof. unfold defaultSchemaObject. by repeat case_match. Qed.

(** C6.  A union whose members are all enum literals yields
    [{ type: 'string', enum: [...] }] with the members' values in declared
    order; a union with a member that is not an enum literal yields the
    [oneOf] of the schemas derived from the members, in declared order. *)
Theorem union_is_enum_or_oneOf :
  ∀ (env : list TsType) (h : SchemaObject → string) (ty : TypeId) (d : TsType)
    (fuel : nat) (f : bool) (st : State),
    dispatched env ty d → unionKinded d →
    (Forall (enumLiteralKinded env) (types d) →
     ∃ r vs,
       getSchemaByType env h (S fuel) ty f st = Ret r st ∧
       type r = Some "string" ∧ enum r = Some vs ∧ oneOf r = None ∧
       Forall2 (fun t v => ∃ m, env !! t = Some m ∧ v = value m) (types d) vs) ∧
    (Forall (fun t => is_Some (env !! t)) (types d) →
     Exists (otherKinded env) (types d) →
     getSchemaByType env h (S fuel) ty f st
     = (let* (rs, st1) := mapSchemas (getSchemaByType env h fuel) (types d) f st in
        Ret (set_oneOf rs (set_type "object" (defaultSchemaObject d))) st1) ∧
     ∀ r st',
       getSchemaByType env h (S fuel) ty f st = Ret r st' ↔
       ∃ rs, derivedInOrder (getSchemaByType env h fuel) f (types d) rs st st' ∧
             r = set_oneOf rs (set_type "object" (defaultSchemaObject d)) ∧
             oneOf r = Some rs ∧ enum r = None).
Proof.
  intros env h ty d fuel f st Hd Hu.
  pose proof (defaultSchemaObject_fields d) as (Hty & Hen & Hoo).
  rewrite (run_union _ _ _ _ _ _ _ Hd Hu). split.
  - intros Hall. rewrite everyEnumLiteral_true by done.
    eexists _, _. split; [done|].
    destruct (defaultSchemaObject d); simpl in *. repeat split; [done|].
    apply literalValues_in_order.
    eapply Forall_impl; [exact Hall|]. intros t (m & Hm & _). eauto.
  - intros Hall Hex. rewrite everyEnumLiteral_false by done.
    split; [done|]. intros r st'. split.
    + intros H. apply bind_Ret_inv in H as (rs & st1 & Hrs & [= <- <-]).
      exists rs. split; [by apply mapSchemas_derivedInOrder|].
      by destruct (defaultSchemaObject d).
    + intros (rs & Hrs & -> & _). apply mapSchemas_derivedInOrder in Hrs.
      by rewrite Hrs.
Qed.

(** The enum [Status] and the union [string | number]. *)
Lemma union_is_enum_or_oneOf_witness :
  (dispatched statusTable 2 (unionType TypeFlags_EnumLiteral (Some "Status") [0; 1]) ∧
   unionKinded (unionType TypeFlags_EnumLiteral (Some "Status") [0; 1]) ∧
   Forall (enumLiteralKinded statusTable) [0; 1] ∧
   ∃ r, getSchemaByType statusTable schemaText 1 2 false freshState
        = Ret r freshState ∧
        type r = Some "string" ∧
        enum r = Some [LitString "Ok"; LitString "Error"]) ∧
  (dispatched statusTable 5 (unionType 0 None [3; 4]) ∧
   unionKinded (unionType 0 None [3; 4]) ∧
   Exists (otherKinded statusTable) [3; 4] ∧
   getSchemaByType statusTable schemaText 2 5 false freshState
   = Ret (set_oneOf [set_type "string" emptySchema; set_type "number" emptySchema]
            (set_type "object" emptySchema)) freshState).
Proof.
  assert (dispatched statusTable 2
            (unionType TypeFlags_EnumLiteral (Some "Status") [0; 1])) as Hd2
    by (split; [reflexivity | by vm_compute]).
  assert (unionKinded (unionType TypeFlags_EnumLiteral (Some "Status") [0; 1]))
    as Hu2 by (repeat split; by vm_compute).
  assert (Forall (enumLiteralKinded statusTable) [0; 1]) as Hall2
    by (repeat constructor; eexists; split; by vm_compute).
  assert (dispatched statusTable 5 (unionType 0 None [3; 4])) as Hd5
    by (split; [reflexivity | by vm_compute]).
  assert (unionKinded (unionType 0 None [3; 4])) as Hu5
    by (repeat split; by vm_compute).
  assert (Forall (fun t => is_Some (statusTable !! t)) [3; 4]) as Hall5
    by (repeat constructor; by eexists).
  assert (Exists (otherKinded statusTable) [3; 4]) as Hex5
    by (constructor; eexists; split; by vm_compute).
  split.
  - split; [exact Hd2|]. split; [exact Hu2|]. split; [exact Hall2|].
    destruct (union_is_enum_or_oneOf statusTable schemaText 2 _ 0 false
                freshState Hd2 Hu2) as [Henum _].
    destruct (Henum Hall2) as (r & vs & Hrun & Hty & Hen & _ & Hvs).
    exists r. split; [exact Hrun|]. split; [exact Hty|].
    rewrite Hen. f_equal.
    repeat match goal with
           | H : Forall2 _ _ _ |- _ => inversion H; clear H; subst
           | H : ∃ _, _ ∧ _ |- _ => destruct H as (? & [= <-] & ->)
           end.
    reflexivity.
  - split; [exact Hd5|]. split; [exact Hu5|]. split; [exact Hex5|].
    destruct (union_is_enum_or_oneOf statusTable schemaText 5 _ 1 false
                freshState Hd5 Hu5) as [_ HoneOf].
    destruct (HoneOf Hall5 Hex5) as [Heq _]. rewrite Heq. by vm_compute.
Defined.

(** C7.  A boolean-kinded type yields [{ type: 'boolean' }], in any
    context and mode, whether or not it is also a union and whatever its
    members are; the fragment has no [enum] and no [oneOf]. *)
Theorem boolean_is_never_an_enum :
  ∀ (env : list TsType) (h : SchemaObject → string) (ty : TypeId) (d : TsType)
    (fuel : nat) (f : bool) (st : State),
    dispatched env ty d → booleanKinded d →
    ∃ r, getSchemaByType env h (S fuel) ty f st = Ret r st ∧
         r = set_type "boolean" (defaultSchemaObject d) ∧
         type r = Some "boolean" ∧ enum r = None ∧ oneOf r = None.
Proof.
  intros env h ty d fuel f st Hd Hb. eexists. split; [by apply run_boolean|].
  pose proof (defaultSchemaObject_fields d) as (Hty & Hen & Hoo).
  by destruct (defaultSchemaObject d).
Qed.

(** [boolean], the union of [true] and [false]. *)
Lemma boolean_is_never_an_enum_witness :
  dispatched booleanTable 2 (unionType TypeFlags_Boolean None [0; 1]) ∧
  booleanKinded (unionType TypeFlags_Boolean None [0; 1]) ∧
  isUnion (unionType TypeFlags_Boolean None [0; 1]) = true ∧
  ∃ r, getSchemaByType booleanTable schemaText 1 2 false freshState
       = Ret r freshState ∧
       r = set_type "boolean" emptySchema.
Proof.
  assert (dispatched booleanTable 2 (unionType TypeFlags_Boolean None [0; 1]))
    as Hd by (split; [reflexivity | by vm_compute]).
  assert (booleanKinded (unionType TypeFlags_Boolean None [0; 1])) as Hb
    by (split; by vm_compute).
  split; [exact Hd|]. split; [exact Hb|]. split; [reflexivity|].
  destruct (boolean_is_never_an_enum booleanTable schemaText 2 _ 0 false
              freshState Hd Hb) as (r & Hrun & Hr & _).
  exists r. split; [exact Hrun | exact Hr].
Defined.

(** C8 (code defect).  A member of type [Function] whose symbol carries
    its type is derived like a data member and ends up in [properties] and
    [required]; the same member resolved through its declaration is
    skipped. *)
Theorem function_typed_member_is_kept :
  ∀ (h : SchemaObject → string) (n : nat),
    ∃ s st',
      getSchemaByType handlerTable h (5 + n) 2 false freshState = Ret s st' ∧
      propertiesOf s
      = [("count", numberSchema); ("handler", refSchema "Function")] ∧
      requiredOf s = ["count"; "handler"] ∧
      memberAction handlerTable (propertyOf "callback" 1 false) = Skip.
Proof.
  intros h n. eexists _, _. split; [vm_compute; reflexivity|].
  repeat split; by vm_compute.
Qed.

(** The context left by [class Foo { inner: Foo' }]: one key, two cache
    entries with the same name. *)
Definition nestedContext (h : SchemaObject → string) : State :=
  mkState {[ "Foo" := outerSchema ]}
    [ mkTypeCache "Foo" "Foo" 1 (Some (h outerSchema));
      mkTypeCache "Foo" "Foo" 2 (Some (h innerSchema)) ].

(** C9 (code defect).  Two classes called [Foo] with different members,
    the second met while the first is being expanded: the name of the
    first is not yet a key of the registry, so the second is assigned
    [Foo] as well; the fragment of the first then overwrites that of the
    second.  One key, not [Foo] and [Foo_1]. *)
Theorem nested_same_name_shares_one_entry :
  ∀ (h : SchemaObject → string) (n : nat),
    h innerSchema ≠ h outerSchema →
    getSchemaByType nestedTable h (5 + n) 1 false freshState
    = Ret (refSchema "Foo") (nestedContext h) ∧
    schemaName <$> typeCache (nestedContext h) = ["Foo"; "Foo"] ∧
    dom (schemaObjects (nestedContext h)) = {[ "Foo" ]}.
Proof.
  intros h n Hh. split; [|split; [reflexivity | by vm_compute]].
  change (5 + n) with (S (4 + n)).
  rewrite (run_nominal nestedTable h _ 1
             (classType "Foo" [propertyOf "inner" 2 false]) (namedSymbol "Foo")).
  2:{ split; [reflexivity | by vm_compute]. }
  2:{ repeat split; by vm_compute. }
  rewrite (addRefTypeSchema_register h _ 1 _ (namedSymbol "Foo") _ outerSchema
             (mkState {[ "Foo" := innerSchema ]}
                [ mkTypeCache "Foo" "Foo" 1 None;
                  mkTypeCache "Foo" "Foo" 2 (Some (h innerSchema)) ])).
  - vm_compute. reflexivity.
  - vm_compute. reflexivity.
  - reflexivity.
  - vm_compute. reflexivity.
  - apply list_find_None. repeat constructor; simpl; intros [Heq _].
    + discriminate.
    + injection Heq as Heq. by apply Hh.
Qed.

(** With the text of the fragment as its hash. *)
Lemma nested_same_name_shares_one_entry_witness :
  schemaText innerSchema ≠ schemaText outerSchema ∧
  getSchemaByType nestedTable schemaText 5 1 false freshState
  = Ret (refSchema "Foo") (nestedContext schemaText).
Proof.
  assert (schemaText innerSchema ≠ schemaText outerSchema) as Hh
    by (by vm_compute).
  split; [exact Hh|].
  apply (nested_same_name_shares_one_entry schemaText 0 Hh).
Defined.

(** C10.  An anonymous object type is expanded in place by [extendClass]
    whatever [config.extendClass] says, and the fragment returned is an
    object fragment, not a reference.  Whatever the outcome, the call adds
    no cache entry for the type; and when it returns, every registry key
    it wrote belongs to a new cache entry of another type, a class or
    interface. *)
Theorem anonymous_type_is_inlined :
  ∀ (env : list TsType) (h : SchemaObject → string) (ty : TypeId) (d : TsType),
    dispatched env ty d → anonymousKinded d →
    (∀ fuel f st,
       getSchemaByType env h (S fuel) ty f st
       = extendClass env (getSchemaByType env h fuel) d (defaultSchemaObject d) st) ∧
    (∀ fuel f st r st',
       getSchemaByType env h fuel ty f st = Ret r st' → objectShaped r) ∧
    (∀ fuel f st st',
       final_state (getSchemaByType env h fuel ty f st) = Some st' →
       ∀ c, c ∈ typeCache st' → cache_type c = ty → c ∈ typeCache st) ∧
    (∀ fuel f st r st',
       getSchemaByType env h fuel ty f st = Ret r st' →
       ∀ k, schemaObjects st' !! k ≠ schemaObjects st !! k →
            ∃ c, c ∈ typeCache st' ∧ schemaName c = k ∧ cache_type c ≠ ty ∧
                 classTyped env (cache_type c)).
Proof.
  intros env h ty d Hd Ha.
  assert (∀ c, classTyped env (cache_type c) → cache_type c ≠ ty) as Hother.
  { intros c (d' & Hd' & Hcls) Heq. rewrite Heq in Hd'.
    destruct Hd as [Hty _]. destruct Ha as (_&_&_&_&Hnot&_). congruence. }
  split; [|split; [|split]].
  - intros fuel f st. by apply run_anonymous.
  - intros [|fuel] f st r st'; [done|].
    rewrite (run_anonymous _ _ _ _ _ _ _ Hd Ha).
    apply extendClass_objectShaped, defaultSchemaObject_ref.
  - intros fuel f st st' Hfinal c Hc Hty.
    pose proof (getSchemaByType_ok env h fuel ty f st) as Hok.
    assert (provenance env st st') as Hprov.
    { destruct (getSchemaByType env h fuel ty f st) as [r st1|e st1|];
        simpl in *; [|by injection Hfinal as <- | done].
      injection Hfinal as <-. apply extends_provenance, Hok. }
    destruct (Hprov c Hc) as [?|Hcls]; [done|]. by apply Hother in Hcls.
  - intros fuel f st r st' Hrun k Hk.
    pose proof (getSchemaByType_ok env h fuel ty f st) as Hok.
    rewrite Hrun in Hok. destruct Hok as [(new & Hc & Hnew & Hgrow & Hkeys) _].
    destruct (schemaObjects st' !! k) as [s|] eqn:Hs.
    + destruct (Hkeys k s Hs) as [Hold|[_ Hin]]; [congruence|].
      apply list_elem_of_fmap in Hin as (c & -> & Hin).
      rewrite Forall_forall in Hnew. destruct (Hnew c Hin) as [Hcls _].
      exists c. repeat split; [|by apply Hother|done].
      rewrite Hc, elem_of_app. by right.
    + destruct (schemaObjects st !! k) as [s|] eqn:Hold; [|done].
      destruct (Hgrow k) as [s' Hs']; [by eauto | congruence].
Qed.

(** [{ head: Node; size: number }] in both modes: the only cache entry is
    the one of [Node]. *)
Lemma anonymous_type_is_inlined_witness :
  dispatched listTable 2
    (anonymousType [propertyOf "head" 1 false; propertyOf "size" 0 false]) ∧
  anonymousKinded
    (anonymousType [propertyOf "head" 1 false; propertyOf "size" 0 false]) ∧
  getSchemaByType listTable schemaText 5 2 true freshState
  = getSchemaByType listTable schemaText 5 2 false freshState ∧
  ∃ r st', getSchemaByType listTable schemaText 5 2 false freshState = Ret r st' ∧
           objectShaped r ∧
           cache_type <$> typeCache st' = [1].
Proof.
  assert (dispatched listTable 2
            (anonymousType [propertyOf "head" 1 false; propertyOf "size" 0 false]))
    as Hd by (split; [reflexivity | by vm_compute]).
  assert (anonymousKinded
            (anonymousType [propertyOf "head" 1 false; propertyOf "size" 0 false]))
    as Ha by (repeat split; by vm_compute).
  destruct (anonymous_type_is_inlined listTable schemaText 2 _ Hd Ha)
    as (Hflag & Hshape & _ & _).
  split; [exact Hd|]. split; [exact Ha|]. split.
  - by rewrite !(Hflag 4).
  - eexists _, _. split; [by vm_compute|].
    split; [|by vm_compute].
    eapply (Hshape 5 false freshState). by vm_compute.
Defined.

(** ** Properties of the context that every call keeps *)

Lemma final_state_bind {A B : Type} (m : Outcome A) (k : A → State → Outcome B)
    (st' : State) :
  final_state (bind m k) = Some st' →
  final_state m = Some st' ∧ (∀ a st1, m ≠ Ret a st1) ∨
  ∃ a st1, m = Ret a st1 ∧ final_state (k a st1) = Some st'.
Proof.
  destruct m as [a st1|e st1|]; simpl; [by eauto| |done].
  intros [= <-]. by left.
Qed.

Section Preserve.

Variable env : list TsType.
Variable getHashCode : SchemaObject → string.

(** A property of the context that survives the three writes of
    [addRefTypeSchema]: the push (line 122), the [splice] (lines 129-132),
    and the registration with the write of the hash (lines 135-136). *)
Variable I : State → Prop.

Hypothesis I_push : ∀ st ty d sy,
  I st → env !! ty = Some d → isClassOrInterface d = true →
  symbol d = Some sy → escapedName sy ≠ "Date" → escapedName sy ≠ "Object" →
  list_find (fun c => cache_type c = ty) (typeCache st) = None →
  I (pushed st (cacheDataFor st ty (escapedName sy))).

Hypothesis I_splice : ∀ st i,
  I st → I (mkState (schemaObjects st) (splice1 i (typeCache st))).

Hypothesis I_register : ∀ st ty sy schema st2,
  I st → I st2 →
  list_find (fun c => cache_type c = ty) (typeCache st) = None →
  extends env (pushed st (cacheDataFor st ty (escapedName sy))) st2 →
  list_find (fun c => hashCode c = Some (getHashCode schema) ∧
                      typeName c = escapedName sy) (typeCache st2) = None →
  I (mkState
       (<[allocateName (schemaObjects st) (escapedName sy) := schema]>
          (schemaObjects st2))
       (alter (set_hashCode (getHashCode schema)) (length (typeCache st))
          (typeCache st2))).

Definition keeps {A : Type} (o : Outcome A) : Prop :=
  ∀ st', final_state o = Some st' → I st'.

Lemma keeps_Ret {A : Type} (a : A) st : I st → keeps (Ret a st).
Proof. intros Hst st' [= <-]. done. Qed.

Lemma keeps_Throw {A : Type} e st : I st → keeps (A := A) (Throw e st).
Proof. intros Hst st' [= <-]. done. Qed.

Lemma keeps_bind {A B : Type} (m : Outcome A) (k : A → State → Outcome B) :
  keeps m → (∀ a st1, m = Ret a st1 → keeps (k a st1)) →
  keeps (bind m k).
Proof.
  intros Hm Hk st' Hfinal.
  apply final_state_bind in Hfinal as [[Hfinal _]|(a & st1 & -> & Hfinal)].
  - by apply Hm.
  - by eapply Hk.
Qed.

Section Step.

Variable rec : TypeId → bool → State → Outcome SchemaObject.
Hypothesis Hok : rec_ok env rec.
Hypothesis Hrec : ∀ ty f st, I st → keeps (rec ty f st).

Lemma rec_Ret_I ty f st r st1 : I st → rec ty f st = Ret r st1 → I st1.
Proof. intros Hst Hr. apply (Hrec ty f st Hst). by rewrite Hr. Qed.

Lemma mapSchemas_keeps tys f st :
  I st → keeps (mapSchemas rec tys f st).
Proof.
  revert st. induction tys as [|t tys IH]; intros st Hst; simpl.
  - by apply keeps_Ret.
  - apply keeps_bind; [by apply Hrec|]. intros r st1 Hr.
    apply keeps_bind; [apply IH; by eapply rec_Ret_I|].
    intros rs st2 Hrs. apply keeps_Ret.
    apply (IH st1); [by eapply rec_Ret_I | by rewrite Hrs].
Qed.

Lemma extendClass_member_keeps sym schema st :
  I st → keeps (extendClass_member env rec sym schema st).
Proof.
  intros Hst. rewrite extendClass_member_action.
  destruct (memberAction env sym) as [|t|]; [by apply keeps_Ret| |by apply keeps_Ret].
  apply keeps_bind; [by apply Hrec|]. intros v st1 Hv.
  apply keeps_Ret. by eapply rec_Ret_I.
Qed.

Lemma extendClass_members_keeps syms schema st :
  I st → keeps (extendClass_members env rec syms schema st).
Proof.
  revert schema st. induction syms as [|sym syms IH]; intros schema st Hst; simpl.
  - by apply keeps_Ret.
  - apply keeps_bind; [by apply extendClass_member_keeps|].
    intros schema1 st1 H1. apply IH.
    apply (extendClass_member_keeps sym schema st Hst). by rewrite H1.
Qed.

Lemma extendClass_keeps d dflt st :
  I st → keeps (extendClass env rec d dflt st).
Proof.
  intros Hst. unfold extendClass. apply keeps_bind.
  - case_match; [|by apply keeps_Ret].
    apply keeps_bind; [by apply Hrec|]. intros r st1 Hr.
    apply keeps_Ret. by eapply rec_Ret_I.
  - intros schema1 st1 H1. apply extendClass_members_keeps.
    destruct (match getNumberIndexType d with
              | Some t => Some t
              | None => getStringIndexType d
              end) as [it|].
    + apply bind_Ret_inv in H1 as (r & st1' & Hr & [= <- <-]).
      by eapply rec_Ret_I.
    + by injection H1 as <- <-.
Qed.

Lemma addRefTypeSchema_keeps ty d sy st :
  I st → env !! ty = Some d → isClassOrInterface d = true →
  symbol d = Some sy → escapedName sy ≠ "Date" → escapedName sy ≠ "Object" →
  keeps (addRefTypeSchema getHashCode rec ty d st).
Proof.
  intros Hst Hty Hcls Hsy HDate HObject. unfold addRefTypeSchema.
  destruct (list_find _ (typeCache st)) as [[i c]|] eqn:Hmiss;
    [by apply keeps_Ret|].
  rewrite Hsy.
  fold (cacheDataFor st ty (escapedName sy)).
  fold (pushed st (cacheDataFor st ty (escapedName sy))).
  assert (I (pushed st (cacheDataFor st ty (escapedName sy)))) as Hpushed
    by (by eapply I_push).
  apply keeps_bind; [by apply Hrec|]. intros schema st2 Hexp.
  assert (I st2) as Hst2 by (by eapply rec_Ret_I).
  assert (extends env (pushed st (cacheDataFor st ty (escapedName sy))) st2)
    as Hext.
  { pose proof (Hok ty true (pushed st (cacheDataFor st ty (escapedName sy))))
      as H. rewrite Hexp in H. apply H. }
  destruct (list_find _ (typeCache st2)) as [[j c]|] eqn:Hdup.
  - apply keeps_Throw. by apply I_splice.
  - apply keeps_Ret. by eapply I_register.
Qed.

Lemma getSchemaByType_body_keeps ty0 f st :
  I st → keeps (getSchemaByType_body env getHashCode rec ty0 f st).
Proof.
  intros Hst. unfold getSchemaByType_body.
  destruct (resolveType env ty0) as [[ty d]|] eqn:Hres; [|by apply keeps_Throw].
  apply resolveType_Some in Hres.
  destruct (isArrayType d).
  { destruct (typeArguments d ≫= head); [|by apply keeps_Throw].
    apply keeps_bind; [by apply Hrec|]. intros r st1 Hr.
    apply keeps_Ret. by eapply rec_Ret_I. }
  destruct (has_flag (flags d) TypeFlags_Boolean); [by apply keeps_Ret|].
  assert (∀ g : list SchemaObject → SchemaObject,
            keeps (let* (rs, st1) := mapSchemas rec (types d) f st in
                      Ret (g rs) st1)) as Hmap.
  { intros g. apply keeps_bind; [by apply mapSchemas_keeps|].
    intros rs st1 Hrs. apply keeps_Ret.
    apply (mapSchemas_keeps (types d) f st Hst). by rewrite Hrs. }
  destruct (isUnion d).
  { destruct (everyEnumLiteral env (types d)) as [[|]|];
      [by apply keeps_Ret | | by apply keeps_Throw].
    apply (Hmap (fun rs => set_oneOf rs _)). }
  destruct (isIntersection d); [apply (Hmap (fun rs => set_allOf rs _))|].
  destruct (isClassOrInterface d) eqn:Hcls.
  { destruct (symbol d) as [sy|] eqn:Hsy; [|by apply keeps_Throw].
    destruct (String.eqb_spec (escapedName sy) "Date"); [by apply keeps_Ret|].
    destruct (String.eqb_spec (escapedName sy) "Object"); [by apply keeps_Ret|].
    destruct f; [by apply extendClass_keeps|].
    by eapply addRefTypeSchema_keeps. }
  destruct (has_flag (objectFlags d) ObjectFlags_Anonymous);
    [by apply extendClass_keeps | by apply keeps_Ret].
Qed.

End Step.

(** Whatever the outcome of a call, the context it leaves has the
    property. *)
Lemma getSchemaByType_keeps fuel ty f st :
  I st → keeps (getSchemaByType env getHashCode fuel ty f st).
Proof.
  revert ty f st. induction fuel as [|fuel IH]; intros ty f st Hst; [done|].
  simpl. apply getSchemaByType_body_keeps; [apply getSchemaByType_ok | done | done].
Qed.

End Preserve.

(** *** The cache during and after a call *)

Lemma splice1_sublist {A : Type} (i : option nat) (l : list A) :
  splice1 i l `sublist_of` l.
Proof. destruct i; simpl; [apply sublist_delete | apply sublist_take]. Qed.

Lemma omap_sublist {A B : Type} (f : A → option B) (l1 l2 : list A) :
  l1 `sublist_of` l2 → omap f l1 `sublist_of` omap f l2.
Proof.
  induction 1 as [|x l1 l2 _ IH|x l1 l2 _ IH]; simpl.
  - constructor.
  - destruct (f x); [by constructor | done].
  - destruct (f x); [by constructor | done].
Qed.

(** The cache after the write of the hash, entry by entry. *)
Lemma register_cache env st cd st2 h :
  extends env (pushed st cd) st2 →
  ∃ new2,
    typeCache st2 = typeCache st ++ cd :: new2 ∧
    alter (set_hashCode h) (length (typeCache st)) (typeCache st2)
    = typeCache st ++ set_hashCode h cd :: new2.
Proof.
  intros (new2 & Hc & _). simpl in Hc. exists new2.
  rewrite Hc, <- app_assoc. split; [done|].
  rewrite <- (Nat.add_0_r (length (typeCache st))). by rewrite alter_app_r.
Qed.

(** At most one cache entry per type. *)
Definition uniqueTypes (st : State) : Prop :=
  NoDup (cache_type <$> typeCache st).

(** The finalized entries differ in declared name or in hash. *)
Definition hashKey (c : TypeCache) : option (string * string) :=
  (fun h => (typeName c, h)) <$> hashCode c.

Definition distinctHashes (st : State) : Prop :=
  NoDup (omap hashKey (typeCache st)).

(** Each entry belongs to a class or interface of the table that is not
    called [Date] or [Object], records its declared name, and is named by
    it or by it and a suffix [_i], [i >= 1]. *)
Definition entryNamed (env : list TsType) (c : TypeCache) : Prop :=
  ∃ d sy,
    env !! cache_type c = Some d ∧ isClassOrInterface d = true ∧
    symbol d = Some sy ∧ typeName c = escapedName sy ∧
    typeName c ≠ "Date" ∧ typeName c ≠ "Object" ∧
    (schemaName c = typeName c ∨
     ∃ i, 1 ≤ i ∧ schemaName c = suffixed (typeName c) i).

Definition wellNamed (env : list TsType) (st : State) : Prop :=
  Forall (entryNamed env) (typeCache st).

(** The fragments of [schemaObjects0] are still registered, unchanged. *)
Definition keepsFragments (schemaObjects0 : gmap string SchemaObject)
    (st : State) : Prop :=
  ∀ k s, schemaObjects0 !! k = Some s → schemaObjects st !! k = Some s.

Lemma uniqueTypes_push st c :
  list_find (fun c' => cache_type c' = cache_type c) (typeCache st) = None →
  uniqueTypes st → uniqueTypes (pushed st c).
Proof.
  unfold uniqueTypes. intros Hmiss H0. simpl. rewrite fmap_app.
  apply NoDup_app. split; [done|]. split; [|apply NoDup_singleton].
  intros t Ht Hin. apply list_elem_of_singleton in Hin as ->.
  apply list_find_None in Hmiss. rewrite Forall_forall in Hmiss.
  apply list_elem_of_fmap in Ht as (c' & Hc & Hin). by apply (Hmiss c').
Qed.

Lemma wellNamed_push env st ty d sy :
  env !! ty = Some d → isClassOrInterface d = true → symbol d = Some sy →
  escapedName sy ≠ "Date" → escapedName sy ≠ "Object" →
  wellNamed env st →
  wellNamed env (pushed st (cacheDataFor st ty (escapedName sy))).
Proof.
  unfold wellNamed. intros Hty Hcls Hsy HDate HObject H0. simpl.
  apply Forall_app. split; [done|]. constructor; [|done].
  exists d, sy. simpl. repeat split; try done.
  destruct (allocateName_spec (schemaObjects st) (escapedName sy))
    as [Hfree Hused].
  destruct (schemaObjects st !! escapedName sy) eqn:Hkey.
  - right. destruct Hused as (i & Hi & -> & _); eauto.
  - left. by apply Hfree.
Qed.

Section ContextInvariants.

Variable env : list TsType.
Variable getHashCode : SchemaObject → string.

Lemma uniqueTypes_kept fuel ty f st st' :
  uniqueTypes st →
  final_state (getSchemaByType env getHashCode fuel ty f st) = Some st' →
  uniqueTypes st'.
Proof.
  intros Hst Hfinal.
  apply (getSchemaByType_keeps env getHashCode uniqueTypes) with fuel ty f st;
    [| | |done|done]; unfold uniqueTypes.
  - intros st0 ty0 d sy H0 _ _ _ _ _ Hmiss. by apply uniqueTypes_push.
  - intros st0 i H0. simpl. eapply sublist_NoDup; [exact H0|].
    apply fmap_sublist, splice1_sublist.
  - intros st0 ty0 sy schema st2 _ H2 _ Hext _. simpl.
    destruct (register_cache _ _ _ _ (getHashCode schema) Hext)
      as (new2 & Hc & ->).
    by rewrite Hc, !fmap_app, !fmap_cons in *.
Qed.

Lemma distinctHashes_kept fuel ty f st st' :
  distinctHashes st →
  final_state (getSchemaByType env getHashCode fuel ty f st) = Some st' →
  distinctHashes st'.
Proof.
  intros Hst Hfinal.
  apply (getSchemaByType_keeps env getHashCode distinctHashes) with fuel ty f st;
    [| | |done|done]; unfold distinctHashes.
  - intros st0 ty0 d sy H0 _ _ _ _ _ _. simpl.
    by rewrite omap_app, app_nil_r.
  - intros st0 i H0. simpl. eapply sublist_NoDup; [exact H0|].
    apply omap_sublist, splice1_sublist.
  - intros st0 ty0 sy schema st2 _ H2 _ Hext Hdup. simpl.
    destruct (register_cache _ _ _ _ (getHashCode schema) Hext)
      as (new2 & Hc & ->).
    rewrite Hc in H2, Hdup. rewrite omap_app in *. simpl in *.
    apply NoDup_app in H2 as (H21 & H2x & H22).
    apply NoDup_app. split; [done|]. split.
    + intros p Hp. rewrite not_elem_of_cons. split; [|by apply H2x].
      intros ->. apply list_find_None in Hdup. rewrite Forall_forall in Hdup.
      apply list_elem_of_omap in Hp as (c & Hc1 & Hkey).
      apply (Hdup c); [rewrite elem_of_app; by left|].
      unfold hashKey in Hkey. destruct (hashCode c); by simplify_eq/=.
    + apply NoDup_cons. split; [|done].
      intros Hp. apply list_find_None in Hdup. rewrite Forall_forall in Hdup.
      apply list_elem_of_omap in Hp as (c & Hc1 & Hkey).
      apply (Hdup c); [rewrite elem_of_app; right; by apply list_elem_of_further|].
      unfold hashKey in Hkey. destruct (hashCode c); by simplify_eq/=.
Qed.

Lemma wellNamed_kept fuel ty f st st' :
  wellNamed env st →
  final_state (getSchemaByType env getHashCode fuel ty f st) = Some st' →
  wellNamed env st'.
Proof.
  intros Hst Hfinal.
  apply (getSchemaByType_keeps env getHashCode (wellNamed env)) with fuel ty f st;
    [| | |done|done]; unfold wellNamed.
  - intros st0 ty0 d sy H0 Hty Hcls Hsy HDate HObject _.
    by eapply wellNamed_push.
  - intros st0 i H0. simpl. rewrite Forall_forall in *.
    intros c Hc. apply H0. eapply elem_of_sublist; [exact Hc|].
    apply splice1_sublist.
  - intros st0 ty0 sy schema st2 _ H2 _ Hext _. simpl.
    destruct (register_cache _ _ _ _ (getHashCode schema) Hext)
      as (new2 & Hc & ->).
    rewrite Hc in H2. apply Forall_app in H2 as [H21 H22].
    apply Forall_cons in H22 as [Hcd H22].
    apply Forall_app. split; [done|]. by constructor.
Qed.

Lemma keepsFragments_kept fuel ty f st st' :
  final_state (getSchemaByType env getHashCode fuel ty f st) = Some st' →
  keepsFragments (schemaObjects st) st'.
Proof.
  intros Hfinal.
  apply (getSchemaByType_keeps env getHashCode
           (keepsFragments (schemaObjects st))) with fuel ty f st;
    [| | | |done]; unfold keepsFragments.
  - intros st0 ty0 d sy H0 _ _ _ _ _ _. done.
  - intros st0 i H0. done.
  - intros st0 ty0 sy schema st2 H0 H2 _ _ _ k s Hk. simpl.
    destruct (decide (allocateName (schemaObjects st0) (escapedName sy) = k))
      as [<-|Hne]; [|rewrite lookup_insert_ne by done; by apply H2].
    apply H0 in Hk. by rewrite allocateName_fresh in Hk.
  - done.
Qed.

End ContextInvariants.

(** ** Calling again *)

(** The name the cache holds for a type: that of the first entry found
    (line 103). *)
Definition cachedName (st : State) (ty : TypeId) : option string :=
  (fun p => schemaName (snd p))
  <$> list_find (fun c => cache_type c = ty) (typeCache st).

(** [st2] holds a name for every type [st1] holds one for, the same. *)
Definition remembers (st1 st2 : State) : Prop :=
  ∀ ty name, cachedName st1 ty = Some name → cachedName st2 ty = Some name.

Lemma remembers_refl st : remembers st st.
Proof. by intros ty name. Qed.

Lemma remembers_trans st1 st2 st3 :
  remembers st1 st2 → remembers st2 st3 → remembers st1 st3.
Proof. intros H12 H23 ty name H. by apply H23, H12. Qed.

Lemma extends_remembers env st st' : extends env st st' → remembers st st'.
Proof.
  intros Hext ty name. unfold cachedName.
  destruct (list_find _ (typeCache st)) as [[i c]|] eqn:Hfind; [|done].
  by rewrite (extends_cache_hit _ _ _ _ _ _ Hext Hfind).
Qed.

Lemma addRefTypeSchema_cachedName getHashCode rec ty d st name :
  cachedName st ty = Some name →
  addRefTypeSchema getHashCode rec ty d st = Ret (refSchema name) st.
Proof.
  unfold cachedName, addRefTypeSchema.
  destruct (list_find _ (typeCache st)) as [[i c]|]; [|done].
  by intros [= <-].
Qed.

(** A first resolution that returns leaves the type cached under the name
    its reference carries. *)
Lemma addRefTypeSchema_Ret_cachedName env getHashCode rec ty d st r st' :
  rec_ok env rec →
  addRefTypeSchema getHashCode rec ty d st = Ret r st' →
  ∃ name, r = refSchema name ∧ cachedName st' ty = Some name.
Proof.
  intros Hok Hrun.
  destruct (list_find (fun c => cache_type c = ty) (typeCache st))
    as [[i c]|] eqn:Hfind.
  - rewrite (addRefTypeSchema_hit _ _ _ _ _ _ _ Hfind) in Hrun.
    injection Hrun as <- <-. exists (schemaName c). split; [done|].
    unfold cachedName. by rewrite Hfind.
  - destruct (symbol d) as [sy|] eqn:Hsy.
    2:{ unfold addRefTypeSchema in Hrun. by rewrite Hfind, Hsy in Hrun. }
    apply (addRefTypeSchema_Ret_inv _ _ _ _ sy) in Hrun
      as (schema & st2 & Hexp & -> & ->); [|done|done].
    eexists. split; [done|]. unfold cachedName. simpl.
    pose proof (Hok ty true (pushed st (cacheDataFor st ty (escapedName sy))))
      as Hext.
    rewrite Hexp in Hext. destruct Hext as [Hext _].
    destruct (register_cache _ _ _ _ (getHashCode schema) Hext)
      as (new2 & _ & ->).
    rewrite list_find_app_r by done. simpl. by rewrite decide_True.
Qed.

Section Replay.

Variable env : list TsType.
Variable getHashCode : SchemaObject → string.

Definition replayable (rec : TypeId → bool → State → Outcome SchemaObject)
    : Prop :=
  ∀ ty f st r st', rec ty f st = Ret r st' →
    ∀ st'', remembers st' st'' → rec ty f st'' = Ret r st''.

Section Step.

Variable rec : TypeId → bool → State → Outcome SchemaObject.
Hypothesis Hok : rec_ok env rec.
Hypothesis Hrep : replayable rec.

Lemma rec_Ret_remembers ty f st r st' :
  rec ty f st = Ret r st' → remembers st st'.
Proof.
  intros Hr. pose proof (Hok ty f st) as H. rewrite Hr in H.
  eapply extends_remembers, H.
Qed.

Lemma mapSchemas_Ret_remembers tys f st rs st' :
  mapSchemas rec tys f st = Ret rs st' → remembers st st'.
Proof.
  intros Hr. pose proof (mapSchemas_ok env rec Hok tys f st) as H.
  rewrite Hr in H. eapply extends_remembers, H.
Qed.

Lemma mapSchemas_replay tys f st rs st' :
  mapSchemas rec tys f st = Ret rs st' →
  ∀ st'', remembers st' st'' → mapSchemas rec tys f st'' = Ret rs st''.
Proof.
  revert st rs. induction tys as [|t tys IH]; intros st rs; simpl.
  - by intros [= <- <-].
  - intros H st'' Hst''. apply bind_Ret_inv in H as (r & st1 & Hr & H).
    apply bind_Ret_inv in H as (rs' & st2 & Hrs & [= <- <-]).
    rewrite (Hrep _ _ _ _ _ Hr st''); simpl.
    + by rewrite (IH _ _ Hrs st'' Hst'').
    + eapply remembers_trans; [|exact Hst''].
      by eapply mapSchemas_Ret_remembers.
Qed.

Lemma extendClass_member_Ret_remembers sym schema st schema' st' :
  extendClass_member env rec sym schema st = Ret schema' st' →
  remembers st st'.
Proof.
  rewrite extendClass_member_action.
  destruct (memberAction env sym) as [|t|]; simpl.
  - intros [= <- <-]. apply remembers_refl.
  - intros H. apply bind_Ret_inv in H as (v & st1 & Hv & [= <- <-]).
    by eapply rec_Ret_remembers.
  - intros [= <- <-]. apply remembers_refl.
Qed.

Lemma extendClass_members_Ret_remembers syms schema st schema' st' :
  extendClass_members env rec syms schema st = Ret schema' st' →
  remembers st st'.
Proof.
  revert schema st. induction syms as [|sym syms IH]; intros schema st; simpl.
  - intros [= <- <-]. apply remembers_refl.
  - intros H. apply bind_Ret_inv in H as (schema1 & st1 & H1 & H).
    eapply remembers_trans; [by eapply extendClass_member_Ret_remembers|].
    by eapply IH.
Qed.

Lemma extendClass_member_replay sym schema st schema' st' :
  extendClass_member env rec sym schema st = Ret schema' st' →
  ∀ st'', remembers st' st'' →
    extendClass_member env rec sym schema st'' = Ret schema' st''.
Proof.
  intros H st'' Hst''. rewrite extendClass_member_action in *.
  destruct (memberAction env sym) as [|t|]; simpl in *.
  - by injection H as <- <-.
  - apply bind_Ret_inv in H as (v & st1 & Hv & [= <- <-]).
    by rewrite (Hrep _ _ _ _ _ Hv st'' Hst'').
  - by injection H as <- <-.
Qed.

Lemma extendClass_members_replay syms schema st schema' st' :
  extendClass_members env rec syms schema st = Ret schema' st' →
  ∀ st'', remembers st' st'' →
    extendClass_members env rec syms schema st'' = Ret schema' st''.
Proof.
  revert schema st. induction syms as [|sym syms IH]; intros schema st; simpl.
  - by intros [= <- <-].
  - intros H st'' Hst''. apply bind_Ret_inv in H as (schema1 & st1 & H1 & H).
    rewrite (extendClass_member_replay _ _ _ _ _ H1 st''); simpl.
    + by apply (IH _ _ H).
    + eapply remembers_trans; [|exact Hst''].
      by eapply extendClass_members_Ret_remembers.
Qed.

Lemma extendClass_replay d dflt st s st' :
  extendClass env rec d dflt st = Ret s st' →
  ∀ st'', remembers st' st'' → extendClass env rec d dflt st'' = Ret s st''.
Proof.
  unfold extendClass. intros H st'' Hst''.
  apply bind_Ret_inv in H as (schema1 & st1 & H1 & H).
  assert (remembers st1 st'') as Hst1.
  { eapply remembers_trans; [|exact Hst''].
    by eapply extendClass_members_Ret_remembers. }
  destruct (match getNumberIndexType d with
            | Some t => Some t
            | None => getStringIndexType d
            end) as [it|].
  - apply bind_Ret_inv in H1 as (r & st1' & Hr & [= <- <-]).
    rewrite (Hrep _ _ _ _ _ Hr st'' Hst1). simpl.
    by apply (extendClass_members_replay _ _ _ _ _ H).
  - injection H1 as <- <-. simpl.
    by apply (extendClass_members_replay _ _ _ _ _ H).
Qed.

Lemma addRefTypeSchema_replay ty d st r st' :
  addRefTypeSchema getHashCode rec ty d st = Ret r st' →
  ∀ st'', remembers st' st'' →
    addRefTypeSchema getHashCode rec ty d st'' = Ret r st''.
Proof.
  intros H st'' Hst''.
  apply (addRefTypeSchema_Ret_cachedName env) in H as (name & -> & Hname);
    [|done].
  by apply addRefTypeSchema_cachedName, Hst''.
Qed.

Lemma getSchemaByType_body_replay :
  replayable (getSchemaByType_body env getHashCode rec).
Proof.
  intros ty0 f st r st' H st'' Hst''. unfold getSchemaByType_body in *.
  destruct (resolveType env ty0) as [[ty d]|]; [|done].
  destruct (isArrayType d).
  { destruct (typeArguments d ≫= head) as [elt|]; [|done].
    apply bind_Ret_inv in H as (v & st1 & Hv & [= <- <-]).
    by rewrite (Hrep _ _ _ _ _ Hv st'' Hst''). }
  destruct (has_flag (flags d) TypeFlags_Boolean); [by injection H as <- <-|].
  destruct (isUnion d).
  { destruct (everyEnumLiteral env (types d)) as [[|]|];
      [by injection H as <- <-| |done].
    apply bind_Ret_inv in H as (rs & st1 & Hrs & [= <- <-]).
    by rewrite (mapSchemas_replay _ _ _ _ _ Hrs st'' Hst''). }
  destruct (isIntersection d).
  { apply bind_Ret_inv in H as (rs & st1 & Hrs & [= <- <-]).
    by rewrite (mapSchemas_replay _ _ _ _ _ Hrs st'' Hst''). }
  destruct (isClassOrInterface d).
  { destruct (symbol d) as [sy|]; [|done].
    destruct (String.eqb (escapedName sy) "Date"); [by injection H as <- <-|].
    destruct (String.eqb (escapedName sy) "Object"); [by injection H as <- <-|].
    destruct f; [by apply (extendClass_replay _ _ _ _ _ H)|].
    by apply (addRefTypeSchema_replay _ _ _ _ _ H). }
  destruct (has_flag (objectFlags d) ObjectFlags_Anonymous).
  - by apply (extendClass_replay _ _ _ _ _ H).
  - by injection H as <- <-.
Qed.

End Step.

(** A call that returned returns the same fragment again, and changes
    nothing, in every context that remembers the names of the context it
    left. *)
Lemma getSchemaByType_replay fuel :
  replayable (getSchemaByType env getHashCode fuel).
Proof.
  induction fuel as [|fuel IH]; [done|]. simpl.
  apply getSchemaByType_body_replay; [apply getSchemaByType_ok | done].
Qed.

End Replay.
(** ** The fragment of an expansion, member by member *)

(** The member is written to the fragment: the loop does not skip it. *)
Definition memberWritten (env : list TsType) (sym : TsSymbol) : bool :=
  match memberAction env sym with
  | Skip => false
  | _ => true
  end.

(** The member is written and has no question token. *)
Definition memberRequired (env : list TsType) (sym : TsSymbol) : bool :=
  memberWritten env sym && negb (hasQuestionToken sym).




Lemma setProp_frame sym v schema :
  description (setProp sym v schema) = description schema ∧
  additionalProperties (setProp sym v schema) = additionalProperties schema.
Proof. unfold setProp. by destruct (hasQuestionToken sym), schema. Qed.

Section Members.

Variable env : list TsType.
Variable rec : TypeId → bool → State → Outcome SchemaObject.

Lemma extendClass_member_frame sym schema st schema' st' :
  extendClass_member env rec sym schema st = Ret schema' st' →
  description schema' = description schema ∧
  additionalProperties schema' = additionalProperties schema.
Proof.
  rewrite extendClass_member_action.
  destruct (memberAction env sym) as [|t|]; simpl.
  - by intros [= <- <-].
  - intros H. apply bind_Ret_inv in H as (v & st1 & _ & [= <- <-]).
    apply setProp_frame.
  - intros [= <- <-]. apply setProp_frame.
Qed.

Lemma extendClass_members_frame syms schema st schema' st' :
  extendClass_members env rec syms schema st = Ret schema' st' →
  description schema' = description schema ∧
  additionalProperties schema' = additionalProperties schema.
Proof.
  revert schema st. induction syms as [|sym syms IH]; intros schema st; simpl.
  - by intros [= <- <-].
  - intros H. apply bind_Ret_inv in H as (schema1 & st1 & H1 & H).
    destruct (IH _ _ H) as [-> ->]. by eapply extendClass_member_frame.
Qed.

Lemma extendClass_member_required sym schema st schema' st' :
  extendClass_member env rec sym schema st = Ret schema' st' →
  requiredOf schema'
  = requiredOf schema
    ++ (if memberRequired env sym then [escapedName sym] else []).
Proof.
  rewrite extendClass_member_action. unfold memberRequired, memberWritten.
  destruct (memberAction env sym) as [|t|]; simpl.
  - intros [= <- <-]. by rewrite app_nil_r.
  - intros H. apply bind_Ret_inv in H as (v & st1 & _ & [= <- <-]).
    rewrite setProp_required.
    destruct (hasQuestionToken sym); simpl; by rewrite ?app_nil_r.
  - intros [= <- <-]. rewrite setProp_required.
    destruct (hasQuestionToken sym); simpl; by rewrite ?app_nil_r.
Qed.

Lemma extendClass_members_required syms schema st schema' st' :
  extendClass_members env rec syms schema st = Ret schema' st' →
  requiredOf schema'
  = requiredOf schema ++ (escapedName <$> filter (memberRequired env) syms).
Proof.
  revert schema st. induction syms as [|sym syms IH]; intros schema st; simpl.
  - intros [= <- <-]. by rewrite app_nil_r.
  - intros H. apply bind_Ret_inv in H as (schema1 & st1 & H1 & H).
    rewrite (IH _ _ H), (extendClass_member_required _ _ _ _ _ H1),
      filter_cons.
    destruct (memberRequired env sym); simpl.
    + by rewrite <- app_assoc.
    + by rewrite app_nil_r.
Qed.

(** The fragment before the first member: [properties: {}],
    [required: []], and [additionalProperties] when there is an index
    type. *)
Lemma extendClass_inv d dflt st s st' :
  extendClass env rec d dflt st = Ret s st' →
  ∃ schema1 st1,
    extendClass_members env rec (filter keptByFilter (getProperties d))
      schema1 st1 = Ret s st' ∧
    propertiesOf schema1 = [] ∧ requiredOf schema1 = [] ∧
    description schema1 = description dflt ∧
    match indexTypeOf d with
    | Some it =>
        ∃ v, rec it false st = Ret v st1 ∧
             additionalProperties schema1 = Some v
    | None =>
        st1 = st ∧ additionalProperties schema1 = additionalProperties dflt
    end.
Proof.
  unfold extendClass. fold (indexTypeOf d). intros H.
  apply bind_Ret_inv in H as (schema1 & st1 & H1 & H).
  exists schema1, st1. split; [done|].
  destruct (indexTypeOf d) as [it|].
  - apply bind_Ret_inv in H1 as (v & st1' & Hv & [= <- <-]).
    repeat split; [by destruct dflt..|]. by exists v.
  - injection H1 as <- <-. by destruct dflt.
Qed.

Hypothesis Hok : rec_ok env rec.
Hypothesis Hrep : replayable rec.



End Members.

(** ** What every returned fragment looks like *)

Section Fragments.

Variable env : list TsType.
Variable getHashCode : SchemaObject → string.

(** A fragment that is not a reference: it has a [type], no [$ref], and
    the description is the one of [defaultSchemaObject] (lines 30-34). *)
Definition describedAs (d : TsType) (r : SchemaObject) : Prop :=
  ref r = None ∧ is_Some (type r) ∧
  description r = description (defaultSchemaObject d).

Lemma extendClass_describedAs rec d st s st' :
  extendClass env rec d (defaultSchemaObject d) st = Ret s st' →
  describedAs d s.
Proof.
  intros H.
  pose proof (extendClass_objectShaped _ _ _ _ _ _ _
                (defaultSchemaObject_ref d) H) as (Hty & _ & _ & Href).
  apply extendClass_inv in H as (schema1 & st1 & H & _ & _ & Hde & _).
  apply extendClass_members_frame in H as [Hde' _].
  split; [done|]. split; [by rewrite Hty | by rewrite Hde', Hde].
Qed.

Lemma getSchemaByType_body_fragment rec ty0 f st r st' ty d :
  rec_ok env rec →
  resolveType env ty0 = Some (ty, d) →
  getSchemaByType_body env getHashCode rec ty0 f st = Ret r st' →
  (∃ name, r = refSchema name ∧ cachedName st' ty = Some name) ∨
  describedAs d r.
Proof.
  intros Hok Hres. unfold getSchemaByType_body. rewrite Hres.
  pose proof (defaultSchemaObject_ref d) as Href.
  assert (∀ s, ref s = None → is_Some (type s) →
            description s = description (defaultSchemaObject d) →
            describedAs d s) as Hdesc by (by intros s ? ? ?).
  destruct (isArrayType d).
  { destruct (typeArguments d ≫= head) as [elt|]; [|done]. intros H.
    apply bind_Ret_inv in H as (v & st1 & _ & [= <- <-]). right.
    destruct (defaultSchemaObject d); by apply Hdesc. }
  destruct (has_flag (flags d) TypeFlags_Boolean).
  { intros [= <- <-]. right. destruct (defaultSchemaObject d); by apply Hdesc. }
  destruct (isUnion d).
  { destruct (everyEnumLiteral env (types d)) as [[|]|]; [| |done].
    - intros [= <- <-]. right.
      destruct (defaultSchemaObject d); by apply Hdesc.
    - intros H. apply bind_Ret_inv in H as (rs & st1 & _ & [= <- <-]). right.
      destruct (defaultSchemaObject d); by apply Hdesc. }
  destruct (isIntersection d).
  { intros H. apply bind_Ret_inv in H as (rs & st1 & _ & [= <- <-]). right.
    destruct (defaultSchemaObject d); by apply Hdesc. }
  destruct (isClassOrInterface d).
  { destruct (symbol d) as [sy|]; [|done].
    destruct (String.eqb (escapedName sy) "Date").
    { intros [= <- <-]. right.
      destruct (defaultSchemaObject d); by apply Hdesc. }
    destruct (String.eqb (escapedName sy) "Object").
    { intros [= <- <-]. right.
      destruct (defaultSchemaObject d); by apply Hdesc. }
    destruct f.
    - intros H. right. by eapply extendClass_describedAs.
    - intros H. left. by eapply addRefTypeSchema_Ret_cachedName. }
  destruct (has_flag (objectFlags d) ObjectFlags_Anonymous).
  - intros H. right. by eapply extendClass_describedAs.
  - intros [= <- <-]. right. destruct (defaultSchemaObject d); by apply Hdesc.
Qed.

(** *** The arms that expand a type in place *)

(** The call on [ty] is an expansion: the type is anonymous, or it is a
    class or interface and the call runs with [extendClass: true]. *)
Definition expanded (ty : TypeId) (d : TsType) (f : bool) : Prop :=
  dispatched env ty d ∧
  (anonymousKinded d ∨ (f = true ∧ ∃ sy, nominalKinded d sy)).

Lemma run_expanded fuel ty d f st :
  expanded ty d f →
  getSchemaByType env getHashCode (S fuel) ty f st
  = extendClass env (getSchemaByType env getHashCode fuel) d
      (defaultSchemaObject d) st.
Proof.
  intros [Hd [Ha|[-> [sy Hn]]]].
  - by apply run_anonymous.
  - by rewrite (run_nominal _ _ _ _ _ _ _ _ Hd Hn).
Qed.

(** *** Intersections *)

Definition intersectionKinded (d : TsType) : Prop :=
  isArrayType d = false ∧ has_flag (flags d) TypeFlags_Boolean = false ∧
  isUnion d = false ∧ isIntersection d = true.

Lemma run_intersection fuel ty d f st :
  dispatched env ty d → intersectionKinded d →
  getSchemaByType env getHashCode (S fuel) ty f st
  = let* (rs, st1) :=
      mapSchemas (getSchemaByType env getHashCode fuel) (types d) f st in
    Ret (set_allOf rs (set_type "object" (defaultSchemaObject d))) st1.
Proof.
  intros Hd (Harr & Hbool & Hunion & Hinter). simpl.
  unfold getSchemaByType_body.
  by rewrite (resolveType_dispatched _ _ _ Hd), Harr, Hbool, Hunion, Hinter.
Qed.

End Fragments.

(** ** Calls that cannot throw *)

(** The handle names a type of the table: it is not [undefined]. *)
Definition knownType (env : list TsType) (t : TypeId) : bool :=
  bool_decide (t < length env).

(** Every handle of [d] that a call may follow names a type of the table: the
    first type argument of a type called [Promise] or of an array, the
    members of a union or intersection, the index type and the types of the
    members; and a class or interface has a symbol. *)
Definition wellFormedType (env : list TsType) (d : TsType) : bool :=
  (if bool_decide (symbolName d = Some "Promise") || isArrayType d
   then from_option (knownType env) false (typeArguments d ≫= head)
   else true)
  && (if isUnion d || isIntersection d
      then forallb (knownType env) (types d) else true)
  && (if isClassOrInterface d then bool_decide (is_Some (symbol d)) else true)
  && forallb (knownType env) (expansionTypes env d).

Definition closed (env : list TsType) : bool :=
  forallb (wellFormedType env) env.

(** The declared name of a class or interface. *)
Definition nominalName (d : TsType) : option string :=
  if isClassOrInterface d then escapedName <$> symbol d else None.

(** No two classes or interfaces of the table share their declared name. *)
Definition distinctNames (env : list TsType) : Prop :=
  NoDup (omap nominalName env).

Definition noThrow {A : Type} (o : Outcome A) : Prop :=
  ∀ e st', o ≠ Throw e st'.

(** The two properties of the cache the argument needs. *)
Definition tidy (env : list TsType) (st : State) : Prop :=
  wellNamed env st ∧ uniqueTypes st.

Lemma noThrow_bind {A B : Type} (m : Outcome A) (k : A → State → Outcome B) :
  noThrow m → (∀ a st1, m = Ret a st1 → noThrow (k a st1)) →
  noThrow (bind m k).
Proof.
  intros Hm Hk e st'. destruct m as [a st1|e1 st1|]; simpl; [|  |done].
  - by apply Hk.
  - by destruct (Hm e1 st1).
Qed.

Lemma NoDup_omap_lookup {A B : Type} (f : A → option B) (l : list A)
    (i j : nat) (x y : A) (b : B) :
  NoDup (omap f l) → l !! i = Some x → l !! j = Some y →
  f x = Some b → f y = Some b → i = j.
Proof.
  revert i j. induction l as [|a l IH]; intros i j Hnd Hi Hj Hx Hy; [done|].
  assert (∀ z, z ∈ l → f z = Some b → f a = Some b → False) as Hhead.
  { intros z Hz Hfz Hfa. simpl in Hnd. rewrite Hfa in Hnd.
    apply NoDup_cons in Hnd as [Hnot _]. apply Hnot.
    apply list_elem_of_omap. eauto. }
  destruct i as [|i], j as [|j]; simpl in *.
  - done.
  - injection Hi as ->. exfalso.
    apply (Hhead y); [by eapply list_elem_of_lookup_2 | done | done].
  - injection Hj as ->. exfalso.
    apply (Hhead x); [by eapply list_elem_of_lookup_2 | done | done].
  - f_equal. apply IH; [|done..].
    destruct (f a); [by apply NoDup_cons in Hnd as [_ ?] | done].
Qed.

Lemma knownType_forallb env l :
  forallb (knownType env) l = true → ∀ t, t ∈ l → t < length env.
Proof.
  rewrite forallb_forall. intros H t Ht. apply list_elem_of_In, H in Ht.
  by apply bool_decide_eq_true in Ht.
Qed.

Section NoThrow.

Variable env : list TsType.
Variable getHashCode : SchemaObject → string.

Hypothesis Hclosed : closed env = true.
Hypothesis Hnames : distinctNames env.

Lemma closed_lookup t d : env !! t = Some d → wellFormedType env d = true.
Proof.
  intros Ht. unfold closed in Hclosed. rewrite forallb_forall in Hclosed.
  apply Hclosed, list_elem_of_In. by eapply list_elem_of_lookup_2.
Qed.

Lemma resolveType_closed ty :
  ty < length env → is_Some (resolveType env ty).
Proof.
  intros Hty. apply lookup_lt_is_Some in Hty as [d0 Hd0].
  unfold resolveType, unwrapPromise. rewrite Hd0.
  pose proof (closed_lookup _ _ Hd0) as Hwf. unfold wellFormedType in Hwf.
  apply andb_prop in Hwf as [Hwf _]. apply andb_prop in Hwf as [Hwf _].
  apply andb_prop in Hwf as [Hwf _].
  case_bool_decide as Hname; simpl in *; [|by rewrite Hd0].
  destruct (typeArguments d0 ≫= head) as [arg|]; [|done]. simpl in *.
  apply bool_decide_eq_true in Hwf.
  apply lookup_lt_is_Some in Hwf as [d Hd]. by rewrite Hd.
Qed.

Lemma run_tidy fuel ty f st r st' :
  tidy env st → getSchemaByType env getHashCode fuel ty f st = Ret r st' →
  tidy env st'.
Proof.
  intros [Hwn Hut] Hrun. split.
  - eapply wellNamed_kept; [exact Hwn|]. by rewrite Hrun.
  - eapply uniqueTypes_kept; [exact Hut|]. by rewrite Hrun.
Qed.

(** Line 127 finds nothing: an entry with the declared name of [ty]
    belongs to [ty], so it is the entry just pushed, which has no hash
    yet. *)
Lemma no_duplicate st ty d sy st2 h :
  env !! ty = Some d → isClassOrInterface d = true → symbol d = Some sy →
  tidy env st2 →
  extends env (pushed st (cacheDataFor st ty (escapedName sy))) st2 →
  list_find (fun c => hashCode c = Some h ∧ typeName c = escapedName sy)
    (typeCache st2) = None.
Proof.
  intros Hty Hcls Hsy [Hwn Hut] Hext. apply list_find_None, Forall_forall.
  intros c Hc [Hhash Hname].
  destruct (register_cache _ _ _ _ h Hext) as (new2 & Hcache & _).
  unfold wellNamed in Hwn. rewrite Forall_forall in Hwn.
  destruct (Hwn c Hc) as (d' & sy' & Hd' & Hcls' & Hsy' & Htn & _).
  assert (cache_type c = ty) as Hsame.
  { apply (NoDup_omap_lookup nominalName env _ _ d' d (escapedName sy));
      [done|done|done| |].
    - unfold nominalName. rewrite Hcls', Hsy'. simpl. congruence.
    - unfold nominalName. by rewrite Hcls, Hsy. }
  assert (c = cacheDataFor st ty (escapedName sy)) as ->.
  { apply (NoDup_fmap_eq cache_type (typeCache st2)); [done|done| |done].
    rewrite Hcache, elem_of_app. right. apply list_elem_of_here. }
  done.
Qed.

Section Step.

Variable fuel : nat.

Hypothesis IH : ∀ ty f st,
  tidy env st → ty < length env →
  noThrow (getSchemaByType env getHashCode fuel ty f st).

#[local] Abbreviation run := (getSchemaByType env getHashCode fuel).

Lemma mapSchemas_noThrow tys f st :
  tidy env st → (∀ t, t ∈ tys → t < length env) →
  noThrow (mapSchemas run tys f st).
Proof.
  revert st. induction tys as [|t tys IHtys]; intros st Hst Htys; simpl.
  - done.
  - apply noThrow_bind; [apply IH; [done|apply Htys, list_elem_of_here]|].
    intros r st1 Hr. apply noThrow_bind; [|done].
    apply IHtys; [by eapply run_tidy|].
    intros t' Ht'. by apply Htys, list_elem_of_further.
Qed.

Lemma extendClass_member_tidy sym schema st schema' st' :
  tidy env st →
  extendClass_member env run sym schema st = Ret schema' st' → tidy env st'.
Proof.
  intros Hst. rewrite extendClass_member_action.
  destruct (memberAction env sym) as [|t|]; simpl.
  - by intros [= <- <-].
  - intros H. apply bind_Ret_inv in H as (v & st1 & Hv & [= <- <-]).
    by eapply run_tidy.
  - by intros [= <- <-].
Qed.

Lemma extendClass_members_noThrow syms schema st :
  tidy env st →
  (∀ t, t ∈ omap (memberTarget env) syms → t < length env) →
  noThrow (extendClass_members env run syms schema st).
Proof.
  revert schema st.
  induction syms as [|sym syms IHsyms]; intros schema st Hst Hsyms; simpl.
  - done.
  - apply noThrow_bind.
    + rewrite extendClass_member_action.
      destruct (memberAction env sym) as [|t|] eqn:Hact; [done| |done].
      apply noThrow_bind; [|done]. apply IH; [done|]. apply Hsyms.
      assert (memberTarget env sym = Some t) as Ht
        by (unfold memberTarget; by rewrite Hact).
      simpl. rewrite Ht. apply list_elem_of_here.
    + intros schema1 st1 H1. apply IHsyms; [by eapply extendClass_member_tidy|].
      intros t Ht. apply Hsyms. simpl.
      destruct (memberTarget env sym); [by apply list_elem_of_further | done].
Qed.

Lemma extendClass_noThrow d dflt st :
  tidy env st → (∀ t, t ∈ expansionTypes env d → t < length env) →
  noThrow (extendClass env run d dflt st).
Proof.
  intros Hst Hd. unfold extendClass, expansionTypes in *. fold (indexTypeOf d).
  assert (∀ t, t ∈ omap (memberTarget env) (filter keptByFilter (getProperties d)) →
            t < length env) as Hmem.
  { intros t Ht. apply Hd. rewrite elem_of_app. by right. }
  apply noThrow_bind.
  - destruct (indexTypeOf d) as [it|]; [|done].
    apply noThrow_bind; [|done]. apply IH; [done|]. apply Hd.
    rewrite elem_of_app. left. apply list_elem_of_here.
  - intros schema1 st1 H1. apply extendClass_members_noThrow; [|done].
    destruct (indexTypeOf d) as [it|].
    + apply bind_Ret_inv in H1 as (r & st1' & Hr & [= <- <-]).
      by eapply run_tidy.
    + by injection H1 as <- <-.
Qed.

Lemma addRefTypeSchema_noThrow ty d sy st :
  tidy env st → env !! ty = Some d → isClassOrInterface d = true →
  symbol d = Some sy → escapedName sy ≠ "Date" → escapedName sy ≠ "Object" →
  noThrow (addRefTypeSchema getHashCode run ty d st).
Proof.
  intros [Hwn Hut] Hty Hcls Hsy HDate HObject. unfold addRefTypeSchema.
  destruct (list_find _ (typeCache st)) as [[i c]|] eqn:Hmiss; [done|].
  rewrite Hsy.
  fold (cacheDataFor st ty (escapedName sy)).
  fold (pushed st (cacheDataFor st ty (escapedName sy))).
  assert (tidy env (pushed st (cacheDataFor st ty (escapedName sy)))) as Hpushed.
  { split; [by eapply wellNamed_push | by apply uniqueTypes_push]. }
  apply noThrow_bind; [apply IH; [done | by eapply lookup_lt_Some]|].
  intros schema st2 Hexp.
  rewrite (no_duplicate st ty d sy st2 (getHashCode schema)); try done.
  - by eapply run_tidy.
  - by eapply run_extends.
Qed.

Lemma getSchemaByType_body_noThrow ty0 f st :
  tidy env st → ty0 < length env →
  noThrow (getSchemaByType_body env getHashCode run ty0 f st).
Proof.
  intros Hst Hty0. unfold getSchemaByType_body.
  destruct (resolveType_closed _ Hty0) as [[ty d] Hres]. rewrite Hres.
  apply resolveType_Some in Hres.
  pose proof (closed_lookup _ _ Hres) as Hwf. unfold wellFormedType in Hwf.
  apply andb_prop in Hwf as [Hwf Hexp]. apply andb_prop in Hwf as [Hwf Hsym].
  apply andb_prop in Hwf as [Harg Htypes].
  pose proof (knownType_forallb _ _ Hexp) as Hexp'. clear Hexp.
  destruct (isArrayType d).
  { rewrite orb_true_r in Harg.
    destruct (typeArguments d ≫= head) as [elt|]; [|done]. simpl in Harg.
    apply bool_decide_eq_true in Harg.
    apply noThrow_bind; [by apply IH | done]. }
  destruct (has_flag (flags d) TypeFlags_Boolean); [done|].
  destruct (isUnion d).
  { simpl in Htypes. pose proof (knownType_forallb _ _ Htypes) as Htypes'.
    destruct (everyEnumLiteral env (types d)) as [[|]|] eqn:Hevery; [done| |].
    - apply noThrow_bind; [by apply mapSchemas_noThrow | done].
    - exfalso. clear -Htypes' Hevery.
      induction (types d) as [|t tys IHtys]; [done|]. simpl in Hevery.
      destruct (env !! t) as [m|] eqn:Hm.
      + destruct (has_flag (flags m) TypeFlags_EnumLiteral); [|done].
        apply IHtys; [|done]. intros t' Ht'.
        by apply Htypes', list_elem_of_further.
      + apply lookup_ge_None in Hm.
        specialize (Htypes' t (list_elem_of_here _ _)). lia. }
  destruct (isIntersection d).
  { simpl in Htypes. pose proof (knownType_forallb _ _ Htypes) as Htypes'.
    apply noThrow_bind; [by apply mapSchemas_noThrow | done]. }
  destruct (isClassOrInterface d) eqn:Hcls.
  { apply bool_decide_eq_true in Hsym as [sy Hsy]. rewrite Hsy.
    destruct (String.eqb_spec (escapedName sy) "Date"); [done|].
    destruct (String.eqb_spec (escapedName sy) "Object"); [done|].
    destruct f; [by apply extendClass_noThrow|].
    by eapply addRefTypeSchema_noThrow. }
  destruct (has_flag (objectFlags d) ObjectFlags_Anonymous); [|done].
  by apply extendClass_noThrow.
Qed.

End Step.

Lemma getSchemaByType_noThrow fuel ty f st :
  tidy env st → ty < length env →
  noThrow (getSchemaByType env getHashCode fuel ty f st).
Proof.
  revert ty f st. induction fuel as [|fuel IH]; intros ty f st Hst Hty; [done|].
  simpl. by apply getSchemaByType_body_noThrow.
Qed.

End NoThrow.

(** ** Sequences of calls *)

(** [st'] is the context [st] after any number of calls, each on the
    context the one before left, returning or throwing. *)
Inductive calls (env : list TsType) (getHashCode : SchemaObject → string)
    : State → State → Prop :=
| calls_refl st : calls env getHashCode st st
| calls_step st st1 st2 fuel ty f :
    calls env getHashCode st st1 →
    final_state (getSchemaByType env getHashCode fuel ty f st1) = Some st2 →
    calls env getHashCode st st2.

(** ** What a returning call leaves in the cache *)

(** The entry carries a hash: its fragment has been registered
    (lines 135-136). *)
Definition finalized (c : TypeCache) : Prop := is_Some (hashCode c).

(** [st'] has the cache of [st] followed by finalized entries. *)
Definition settles (st st' : State) : Prop :=
  ∃ new, typeCache st' = typeCache st ++ new ∧ Forall finalized new.

Lemma settles_refl st : settles st st.
Proof. exists []. by rewrite app_nil_r. Qed.

Lemma settles_trans st1 st2 st3 :
  settles st1 st2 → settles st2 st3 → settles st1 st3.
Proof.
  intros (new1 & H1 & Hf1) (new2 & H2 & Hf2). exists (new1 ++ new2).
  split; [by rewrite H2, H1, app_assoc | by apply Forall_app].
Qed.

(** Writing the hash of an entry does not change the name the cache gives
    for a type. *)
Lemma cachedName_set_hashCode so so' l i h ty :
  cachedName (mkState so (alter (set_hashCode h) i l)) ty
  = cachedName (mkState so' l) ty.
Proof.
  unfold cachedName, alter. simpl. revert i.
  induction l as [|c l IH]; intros i; [done|].
  destruct i as [|i]; simpl.
  - destruct (decide (cache_type c = ty)); simpl; [done|].
    by destruct (list_find _ l) as [[j c']|].
  - destruct (decide (cache_type c = ty)); simpl; [done|].
    specialize (IH i).
    destruct (list_find _ (list_alter _ i l)) as [[j c']|],
             (list_find _ l) as [[j' c'']|]; simpl in *; congruence.
Qed.

Section Settled.

Variable env : list TsType.
Variable getHashCode : SchemaObject → string.

Section Step.

Variable rec : TypeId → bool → State → Outcome SchemaObject.
Hypothesis Hok : rec_ok env rec.
Hypothesis Hrec : ∀ ty f st r st', rec ty f st = Ret r st' → settles st st'.

Lemma mapSchemas_settles tys f st rs st' :
  mapSchemas rec tys f st = Ret rs st' → settles st st'.
Proof.
  revert st rs. induction tys as [|t tys IH]; intros st rs; simpl.
  - intros [= <- <-]. apply settles_refl.
  - intros H. apply bind_Ret_inv in H as (r & st1 & Hr & H).
    apply bind_Ret_inv in H as (rs' & st2 & Hrs & [= <- <-]).
    eapply settles_trans; [by eapply Hrec | by eapply IH].
Qed.

Lemma extendClass_members_settles syms schema st schema' st' :
  extendClass_members env rec syms schema st = Ret schema' st' →
  settles st st'.
Proof.
  revert schema st. induction syms as [|sym syms IH]; intros schema st; simpl.
  - intros [= <- <-]. apply settles_refl.
  - intros H. apply bind_Ret_inv in H as (schema1 & st1 & H1 & H).
    eapply settles_trans; [|by eapply IH].
    rewrite extendClass_member_action in H1.
    destruct (memberAction env sym) as [|t|]; simpl in H1.
    + injection H1 as <- <-. apply settles_refl.
    + apply bind_Ret_inv in H1 as (v & st1' & Hv & [= <- <-]).
      by eapply Hrec.
    + injection H1 as <- <-. apply settles_refl.
Qed.

Lemma extendClass_settles d dflt st s st' :
  extendClass env rec d dflt st = Ret s st' → settles st st'.
Proof.
  intros H. apply extendClass_inv in H as (schema1 & st1 & H & _ & _ & _ & Hidx).
  eapply settles_trans; [|by eapply extendClass_members_settles].
  destruct (indexTypeOf d) as [it|].
  - destruct Hidx as (v & Hv & _). by eapply Hrec.
  - destruct Hidx as [-> _]. apply settles_refl.
Qed.

Lemma addRefTypeSchema_settles ty d st r st' :
  addRefTypeSchema getHashCode rec ty d st = Ret r st' → settles st st'.
Proof.
  intros Hrun.
  destruct (list_find (fun c => cache_type c = ty) (typeCache st))
    as [[i c]|] eqn:Hfind.
  { rewrite (addRefTypeSchema_hit _ _ _ _ _ _ _ Hfind) in Hrun.
    injection Hrun as <- <-. apply settles_refl. }
  destruct (symbol d) as [sy|] eqn:Hsy.
  2:{ unfold addRefTypeSchema in Hrun. by rewrite Hfind, Hsy in Hrun. }
  apply (addRefTypeSchema_Ret_inv _ _ _ _ sy) in Hrun
    as (schema & st2 & Hexp & -> & ->); [|done|done].
  pose proof (Hok ty true (pushed st (cacheDataFor st ty (escapedName sy))))
    as Hext.
  rewrite Hexp in Hext. destruct Hext as [Hext _].
  destruct (register_cache _ _ _ _ (getHashCode schema) Hext)
    as (new2 & Hcache & Halter).
  destruct (Hrec _ _ _ _ _ Hexp) as (new & Hnew & Hfin). simpl in Hnew.
  rewrite Hcache, <- app_assoc in Hnew. apply app_inv_head in Hnew.
  injection Hnew as <-.
  exists (set_hashCode (getHashCode schema)
            (cacheDataFor st ty (escapedName sy)) :: new2).
  split; [done|]. constructor; [by eexists | done].
Qed.

Lemma getSchemaByType_body_settles ty0 f st r st' :
  getSchemaByType_body env getHashCode rec ty0 f st = Ret r st' →
  settles st st'.
Proof.
  unfold getSchemaByType_body.
  destruct (resolveType env ty0) as [[ty d]|]; [|done].
  destruct (isArrayType d).
  { destruct (typeArguments d ≫= head) as [elt|]; [|done]. intros H.
    apply bind_Ret_inv in H as (v & st1 & Hv & [= <- <-]). by eapply Hrec. }
  destruct (has_flag (flags d) TypeFlags_Boolean).
  { intros [= <- <-]. apply settles_refl. }
  destruct (isUnion d).
  { destruct (everyEnumLiteral env (types d)) as [[|]|]; [| |done].
    - intros [= <- <-]. apply settles_refl.
    - intros H. apply bind_Ret_inv in H as (rs & st1 & Hrs & [= <- <-]).
      by eapply mapSchemas_settles. }
  destruct (isIntersection d).
  { intros H. apply bind_Ret_inv in H as (rs & st1 & Hrs & [= <- <-]).
    by eapply mapSchemas_settles. }
  destruct (isClassOrInterface d).
  { destruct (symbol d) as [sy|]; [|done].
    destruct (String.eqb (escapedName sy) "Date").
    { intros [= <- <-]. apply settles_refl. }
    destruct (String.eqb (escapedName sy) "Object").
    { intros [= <- <-]. apply settles_refl. }
    destruct f; [apply extendClass_settles | apply addRefTypeSchema_settles]. }
  destruct (has_flag (objectFlags d) ObjectFlags_Anonymous).
  - apply extendClass_settles.
  - intros [= <- <-]. apply settles_refl.
Qed.

End Step.

Lemma getSchemaByType_settles fuel ty f st r st' :
  getSchemaByType env getHashCode fuel ty f st = Ret r st' → settles st st'.
Proof.
  revert ty f st r st'. induction fuel as [|fuel IH]; [done|].
  intros ty f st r st'. simpl.
  apply getSchemaByType_body_settles; [apply getSchemaByType_ok | exact IH].
Qed.

End Settled.

(** ** More type tables *)

Definition TypeFlags_Any : Z := 1.
Definition TypeFlags_Intersection : Z := 2097152.

(** [{ [i: number]: number; [k: string]: any }] (type 2). *)
Definition dictionaryTable : list TsType :=
  [ intrinsicType TypeFlags_Number "number";
    intrinsicType TypeFlags_Any "any";
    mkType TypeFlags_Object ObjectFlags_Anonymous (Some (namedSymbol "__type"))
      None [] LitUndefined false false false false None "{ ... }"
      (Some 0) (Some 1) [] ].

(** A class with a documentation comment,
    [/** A document. */ class Doc { pages: number }] (type 1). *)
Definition docType : TsType :=
  mkType TypeFlags_Object ObjectFlags_Class (Some (namedSymbol "Doc")) None []
    LitUndefined false false false true (Some "A document.") "Doc" None None
    [propertyOf "pages" 0 false].

Definition describedTable : list TsType :=
  [ intrinsicType TypeFlags_Number "number"; docType ].

(** [{ a: number } & { b: number }] (type 3). *)
Definition bothType : TsType :=
  mkType TypeFlags_Intersection 0 None None [1; 2] LitUndefined
    false false true false None "{ a: number; } & { b: number; }" None None [].

Definition intersectionTable : list TsType :=
  [ intrinsicType TypeFlags_Number "number";
    anonymousType [propertyOf "a" 0 false];
    anonymousType [propertyOf "b" 0 false];
    bothType ].

(** The context after the inner [Foo] of [nestedTable] has been resolved. *)
Definition innerContext : State :=
  mkState {[ "Foo" := innerSchema ]}
    [mkTypeCache "Foo" "Foo" 2 (Some (schemaText innerSchema))].

(** ** Further properties of the code *)





(** X3.  The [required] list of an expansion holds, in declared order, the
    names of the members that pass the filter, are not skipped and have no
    question token; nothing else. *)
Theorem expansion_required_follows_members :
  ∀ (env : list TsType) (h : SchemaObject → string) (fuel : nat) (ty : TypeId)
    (d : TsType) (f : bool) (st : State) (s : SchemaObject) (st' : State),
    expanded env ty d f →
    getSchemaByType env h (S fuel) ty f st = Ret s st' →
    required s
    = Some (escapedName
              <$> filter (memberRequired env)
                    (filter keptByFilter (getProperties d))).
Proof.
  intros env h fuel ty d f st s st' Hexp Hrun.
  rewrite (run_expanded _ _ _ _ _ _ _ Hexp) in Hrun.
  pose proof (extendClass_objectShaped _ _ _ _ _ _ _
                (defaultSchemaObject_ref d) Hrun) as (_ & _ & [rq Hrq] & _).
  apply extendClass_inv in Hrun as (schema1 & st1 & Hmem & _ & Hr & _).
  apply extendClass_members_required in Hmem. rewrite Hr in Hmem.
  unfold requiredOf in Hmem. rewrite Hrq in Hmem. simpl in Hmem.
  by rewrite Hrq, Hmem.
Qed.

(** [class Node { value: number; next?: Node }] expanded in place: only
    [value] is required. *)
Lemma expansion_required_follows_members_witness :
  expanded nodeTable 1
    (classType "Node" [propertyOf "value" 0 false; propertyOf "next" 1 true])
    true ∧
  getSchemaByType nodeTable schemaText 4 1 true freshState
  = Ret (set_required ["value"]
           (set_properties [("value", numberSchema); ("next", refSchema "Node")]
              (set_type "object" emptySchema)))
      (mkState {[ "Node" := nodeSchema ]}
         [mkTypeCache "Node" "Node" 1 (Some (schemaText nodeSchema))]) ∧
  Some ["value"]
  = Some (escapedName
            <$> filter (memberRequired nodeTable)
                  (filter keptByFilter
                     [propertyOf "value" 0 false; propertyOf "next" 1 true])).
Proof.
  assert (expanded nodeTable 1
            (classType "Node" [propertyOf "value" 0 false; propertyOf "next" 1 true])
            true) as Hexp.
  { split; [split; [reflexivity | by vm_compute]|]. right. split; [done|].
    exists (namedSymbol "Node"). repeat split; by vm_compute. }
  assert (getSchemaByType nodeTable schemaText 4 1 true freshState
          = Ret (set_required ["value"]
                   (set_properties
                      [("value", numberSchema); ("next", refSchema "Node")]
                      (set_type "object" emptySchema)))
              (mkState {[ "Node" := nodeSchema ]}
                 [mkTypeCache "Node" "Node" 1 (Some (schemaText nodeSchema))]))
    as Hrun by (vm_compute; reflexivity).
  split; [exact Hexp|]. split; [exact Hrun|].
  exact (expansion_required_follows_members _ _ _ _ _ _ _ _ _ Hexp Hrun).
Defined.

(** X4.  [additionalProperties] of an expansion: with an index type (the
    number index type when there is one, else the string index type) it is
    the fragment that type resolves to with [extendClass: false], derived
    before any member, in the context the call received; the members leave
    it as it is, and the same fragment is what the index type resolves to
    in the context the expansion leaves.  Without an index type there is no
    [additionalProperties]. *)
Theorem expansion_index_type_is_additionalProperties :
  ∀ (env : list TsType) (h : SchemaObject → string) (fuel : nat) (ty : TypeId)
    (d : TsType) (f : bool) (st : State) (s : SchemaObject) (st' : State),
    expanded env ty d f →
    getSchemaByType env h (S fuel) ty f st = Ret s st' →
    match indexTypeOf d with
    | Some it =>
        ∃ v st1,
          getSchemaByType env h fuel it false st = Ret v st1 ∧
          additionalProperties s = Some v ∧
          getSchemaByType env h fuel it false st' = Ret v st'
    | None => additionalProperties s = None
    end.
Proof.
  intros env h fuel ty d f st s st' Hexp Hrun.
  rewrite (run_expanded _ _ _ _ _ _ _ Hexp) in Hrun.
  apply extendClass_inv in Hrun as (schema1 & st1 & Hmem & _ & _ & _ & Hidx).
  pose proof (extendClass_members_frame _ _ _ _ _ _ _ Hmem) as [_ Hap].
  destruct (indexTypeOf d) as [it|].
  - destruct Hidx as (v & Hv & Hv1). exists v, st1.
    split; [done|]. split; [by rewrite Hap|].
    apply (getSchemaByType_replay env h fuel _ _ _ _ _ Hv).
    by apply (extendClass_members_Ret_remembers env _
                (getSchemaByType_ok env h fuel) _ _ _ _ _ Hmem).
  - destruct Hidx as [_ Hdflt]. rewrite Hap, Hdflt.
    unfold defaultSchemaObject. by repeat case_match.
Qed.

(** [{ [i: number]: number; [k: string]: any }]: the number index type
    wins. *)
Lemma expansion_index_type_is_additionalProperties_witness :
  (∃ d, dictionaryTable !! 2 = Some d ∧ expanded dictionaryTable 2 d false ∧
        indexTypeOf d = Some 0) ∧
  getSchemaByType dictionaryTable schemaText 2 2 false freshState
  = Ret (set_additionalProperties numberSchema
           (set_required [] (set_properties [] (set_type "object" emptySchema))))
      freshState ∧
  ∃ v st1,
    getSchemaByType dictionaryTable schemaText 1 0 false freshState = Ret v st1 ∧
    Some numberSchema = Some v.
Proof.
  assert (∃ d, dictionaryTable !! 2 = Some d ∧
               expanded dictionaryTable 2 d false ∧ indexTypeOf d = Some 0)
    as (d & Hd & Hexp & Hidx).
  { eexists. split; [reflexivity|]. split; [|reflexivity].
    split; [split; [reflexivity | by vm_compute]|]. left.
    repeat split; by vm_compute. }
  assert (getSchemaByType dictionaryTable schemaText 2 2 false freshState
          = Ret (set_additionalProperties numberSchema
                   (set_required []
                      (set_properties [] (set_type "object" emptySchema))))
              freshState) as Hrun by (vm_compute; reflexivity).
  split; [by exists d|]. split; [exact Hrun|].
  pose proof (expansion_index_type_is_additionalProperties _ _ _ _ _ _ _ _ _
                Hexp Hrun) as H.
  rewrite Hidx in H. destruct H as (v & st1 & Hv & Hap & _).
  exists v, st1. split; [exact Hv | exact Hap].
Defined.

(** X5.  A returned fragment is of one of two kinds.  Either it is a bare
    reference [{ $ref: '#/components/schemas/<name>' }] with the name the
    cache holds for the type: it has no other field, so the comment of the
    type is not on it.  Or it is no reference: it has a [type], and its
    [description] is the comment of the type when that is a non-empty
    string and absent otherwise (the type meant is the argument, or its
    first type argument when the argument is called [Promise]). *)
Theorem fragment_is_reference_or_described :
  ∀ (env : list TsType) (h : SchemaObject → string) (fuel : nat)
    (ty0 : TypeId) (f : bool) (st : State) (r : SchemaObject) (st' : State)
    (ty : TypeId) (d : TsType),
    resolveType env ty0 = Some (ty, d) →
    getSchemaByType env h fuel ty0 f st = Ret r st' →
    (∃ name, r = refSchema name ∧ cachedName st' ty = Some name) ∨
    (ref r = None ∧ is_Some (type r) ∧
     description r
     = match type_comment d with
       | Some c => if String.eqb c EmptyString then None else Some c
       | None => None
       end).
Proof.
  intros env h fuel ty0 f st r st' ty d Hres Hrun.
  destruct fuel as [|fuel]; [done|]. simpl in Hrun.
  destruct (getSchemaByType_body_fragment env h _ _ _ _ _ _ _ _
              (getSchemaByType_ok env h fuel) Hres Hrun)
    as [?|(Href & Hty & Hde)]; [by left|].
  right. split; [done|]. split; [done|]. rewrite Hde.
  unfold defaultSchemaObject. by repeat case_match.
Qed.

(** The documented class [Doc] expanded in place carries its comment; in
    reference mode the caller gets the bare reference. *)
Lemma fragment_is_reference_or_described_witness :
  resolveType describedTable 1 = Some (1, docType) ∧
  getSchemaByType describedTable schemaText 3 1 true freshState
  = Ret (set_required ["pages"]
           (set_properties [("pages", numberSchema)]
              (set_type "object"
                 (set_description (Some "A document.") emptySchema))))
      freshState ∧
  ((∃ name,
      set_required ["pages"]
        (set_properties [("pages", numberSchema)]
           (set_type "object"
              (set_description (Some "A document.") emptySchema)))
      = refSchema name ∧ cachedName freshState 1 = Some name) ∨
   Some "A document." = Some "A document.").
Proof.
  assert (resolveType describedTable 1 = Some (1, docType)) as Hres
    by reflexivity.
  assert (getSchemaByType describedTable schemaText 3 1 true freshState
          = Ret (set_required ["pages"]
                   (set_properties [("pages", numberSchema)]
                      (set_type "object"
                         (set_description (Some "A document.") emptySchema))))
              freshState) as Hrun by (vm_compute; reflexivity).
  split; [exact Hres|]. split; [exact Hrun|].
  destruct (fragment_is_reference_or_described _ _ _ _ _ _ _ _ _ _ Hres Hrun)
    as [Href|(_ & _ & Hde)]; [left; exact Href | right; exact Hde].
Defined.

(** X6.  At most one cache entry per type: when the cache holds no type
    twice, it holds none twice after any sequence of calls, whether they
    return or throw.  The [find] of line 103 has at most one candidate. *)
Theorem one_cache_entry_per_type :
  ∀ (env : list TsType) (h : SchemaObject → string) (st st' : State),
    calls env h st st' → uniqueTypes st → uniqueTypes st'.
Proof.
  intros env h st st' Hcalls Hst.
  induction Hcalls as [st|st st1 st2 fuel ty f _ IH Hfinal]; [done|].
  eapply uniqueTypes_kept; [apply IH, Hst | exact Hfinal].
Qed.

Lemma one_cache_entry_per_type_witness :
  calls pairTable schemaText freshState (pairContext schemaText) ∧
  uniqueTypes freshState ∧ uniqueTypes (pairContext schemaText).
Proof.
  assert (calls pairTable schemaText freshState (pairContext schemaText))
    as Hcalls.
  { apply (calls_step _ _ _ (pairContext schemaText) _ 3 2 false).
    - apply (calls_step _ _ _ freshState _ 3 1 false); [apply calls_refl|].
      vm_compute. reflexivity.
    - vm_compute. reflexivity. }
  assert (uniqueTypes freshState) as Hst by apply NoDup_nil_2.
  split; [exact Hcalls|]. split; [exact Hst|].
  exact (one_cache_entry_per_type _ _ _ _ Hcalls Hst).
Defined.

(** X7.  A registered fragment is never removed or replaced: whatever is
    under a key of the registry before a sequence of calls is under that
    key after it, whether the calls return or throw.  A registration
    (line 136) only ever writes a key that was not in the registry when its
    name was allocated. *)
Theorem registered_fragments_are_kept :
  ∀ (env : list TsType) (h : SchemaObject → string) (st st' : State)
    (k : string) (s : SchemaObject),
    calls env h st st' →
    schemaObjects st !! k = Some s → schemaObjects st' !! k = Some s.
Proof.
  intros env h st st' k s Hcalls.
  induction Hcalls as [st|st st1 st2 fuel ty f _ IH Hfinal]; [done|].
  intros Hk. by apply (keepsFragments_kept _ _ _ _ _ _ _ Hfinal), IH.
Qed.

Lemma registered_fragments_are_kept_witness :
  calls nestedTable schemaText innerContext
    (mkState (<[ "Foo_1" := outerSchema ]> {[ "Foo" := innerSchema ]})
       [ mkTypeCache "Foo" "Foo" 2 (Some (schemaText innerSchema));
         mkTypeCache "Foo" "Foo_1" 1 (Some (schemaText outerSchema)) ]) ∧
  schemaObjects innerContext !! "Foo" = Some innerSchema ∧
  (<[ "Foo_1" := outerSchema ]> {[ "Foo" := innerSchema ]}
     : gmap string SchemaObject) !! "Foo" = Some innerSchema.
Proof.
  assert (calls nestedTable schemaText innerContext
            (mkState (<[ "Foo_1" := outerSchema ]> {[ "Foo" := innerSchema ]})
               [ mkTypeCache "Foo" "Foo" 2 (Some (schemaText innerSchema));
                 mkTypeCache "Foo" "Foo_1" 1 (Some (schemaText outerSchema)) ]))
    as Hcalls.
  { apply (calls_step _ _ _ innerContext _ 4 1 false); [apply calls_refl|].
    vm_compute. reflexivity. }
  assert (schemaObjects innerContext !! "Foo" = Some innerSchema) as Hk
    by reflexivity.
  split; [exact Hcalls|]. split; [exact Hk|].
  exact (registered_fragments_are_kept _ _ _ _ _ _ Hcalls Hk).
Defined.

(** X8.  Every cache entry belongs to a class or interface of the table
    that is not called [Date] or [Object], records the declared name of
    that type as [typeName], and has as [schemaName] the declared name or
    the declared name with a suffix [_i], [i >= 1].  A cache of which this
    holds keeps it through any sequence of calls, returning or throwing. *)
Theorem cache_entries_are_well_named :
  ∀ (env : list TsType) (h : SchemaObject → string) (st st' : State),
    calls env h st st' → wellNamed env st → wellNamed env st'.
Proof.
  intros env h st st' Hcalls Hst.
  induction Hcalls as [st|st st1 st2 fuel ty f _ IH Hfinal]; [done|].
  eapply wellNamed_kept; [apply IH, Hst | exact Hfinal].
Qed.

Lemma cache_entries_are_well_named_witness :
  calls nestedTable schemaText freshState innerContext ∧
  wellNamed nestedTable freshState ∧ wellNamed nestedTable innerContext.
Proof.
  assert (calls nestedTable schemaText freshState innerContext) as Hcalls.
  { apply (calls_step _ _ _ freshState _ 3 2 false); [apply calls_refl|].
    vm_compute. reflexivity. }
  assert (wellNamed nestedTable freshState) as Hst by apply Forall_nil_2.
  split; [exact Hcalls|]. split; [exact Hst|].
  exact (cache_entries_are_well_named _ _ _ _ Hcalls Hst).
Defined.

(** X9.  No two cache entries that carry a hash agree in both declared
    name and hash: the check of line 127 keeps a second such entry from
    being finalized.  A cache of which this holds keeps it through any
    sequence of calls, returning or throwing. *)
Theorem finalized_entries_differ_in_name_or_hash :
  ∀ (env : list TsType) (h : SchemaObject → string) (st st' : State),
    calls env h st st' → distinctHashes st → distinctHashes st'.
Proof.
  intros env h st st' Hcalls Hst.
  induction Hcalls as [st|st st1 st2 fuel ty f _ IH Hfinal]; [done|].
  eapply distinctHashes_kept; [apply IH, Hst | exact Hfinal].
Qed.

Lemma finalized_entries_differ_in_name_or_hash_witness :
  calls pairTable schemaText freshState (pairContext schemaText) ∧
  distinctHashes freshState ∧ distinctHashes (pairContext schemaText).
Proof.
  assert (calls pairTable schemaText freshState (pairContext schemaText))
    as Hcalls.
  { apply (calls_step _ _ _ (pairContext schemaText) _ 3 2 false).
    - apply (calls_step _ _ _ freshState _ 3 1 false); [apply calls_refl|].
      vm_compute. reflexivity.
    - vm_compute. reflexivity. }
  assert (distinctHashes freshState) as Hst by apply NoDup_nil_2.
  split; [exact Hcalls|]. split; [exact Hst|].
  exact (finalized_entries_differ_in_name_or_hash _ _ _ _ Hcalls Hst).
Defined.

(** X10.  Calling again changes nothing: when a call has returned, the
    same call on the context it left returns the same fragment and leaves
    that context as it is; so does the same call on any context in which
    the cache still gives the same name for every type it had a name
    for. *)
Theorem repeated_call_returns_the_same_fragment :
  ∀ (env : list TsType) (h : SchemaObject → string) (fuel : nat) (ty : TypeId)
    (f : bool) (st : State) (r : SchemaObject) (st' : State),
    getSchemaByType env h fuel ty f st = Ret r st' →
    getSchemaByType env h fuel ty f st' = Ret r st' ∧
    ∀ st'', remembers st' st'' →
            getSchemaByType env h fuel ty f st'' = Ret r st''.
Proof.
  intros env h fuel ty f st r st' Hrun.
  pose proof (getSchemaByType_replay env h fuel ty f st r st' Hrun) as Hrep.
  split; [apply Hrep, remembers_refl | exact Hrep].
Qed.

Lemma repeated_call_returns_the_same_fragment_witness :
  getSchemaByType nodeTable schemaText 4 1 false freshState
  = Ret (refSchema "Node")
      (mkState {[ "Node" := nodeSchema ]}
         [mkTypeCache "Node" "Node" 1 (Some (schemaText nodeSchema))]) ∧
  getSchemaByType nodeTable schemaText 4 1 false
    (mkState {[ "Node" := nodeSchema ]}
       [mkTypeCache "Node" "Node" 1 (Some (schemaText nodeSchema))])
  = Ret (refSchema "Node")
      (mkState {[ "Node" := nodeSchema ]}
         [mkTypeCache "Node" "Node" 1 (Some (schemaText nodeSchema))]).
Proof.
  assert (getSchemaByType nodeTable schemaText 4 1 false freshState
          = Ret (refSchema "Node")
              (mkState {[ "Node" := nodeSchema ]}
                 [mkTypeCache "Node" "Node" 1 (Some (schemaText nodeSchema))]))
    as Hrun by (vm_compute; reflexivity).
  split; [exact Hrun|].
  exact (proj1 (repeated_call_returns_the_same_fragment _ _ _ _ _ _ _ _ Hrun)).
Defined.

(** X11.  An intersection yields [{ type: 'object', allOf: [...] }] with
    the schemas derived from the members one after the other in declared
    order, each in the context the one before left and with the flag of the
    call; there is no [enum] and no [oneOf], whatever the members are. *)
Theorem intersection_is_allOf :
  ∀ (env : list TsType) (h : SchemaObject → string) (ty : TypeId) (d : TsType)
    (fuel : nat) (f : bool) (st : State) (r : SchemaObject) (st' : State),
    dispatched env ty d → intersectionKinded d →
    (getSchemaByType env h (S fuel) ty f st = Ret r st' ↔
     ∃ rs, derivedInOrder (getSchemaByType env h fuel) f (types d) rs st st' ∧
           r = set_allOf rs (set_type "object" (defaultSchemaObject d)) ∧
           allOf r = Some rs ∧ type r = Some "object" ∧
           enum r = None ∧ oneOf r = None).
Proof.
  intros env h ty d fuel f st r st' Hd Hi.
  pose proof (defaultSchemaObject_fields d) as (Hty & Hen & Hoo).
  rewrite (run_intersection _ _ _ _ _ _ _ Hd Hi). split.
  - intros H. apply bind_Ret_inv in H as (rs & st1 & Hrs & [= <- <-]).
    exists rs. split; [by apply mapSchemas_derivedInOrder|].
    by destruct (defaultSchemaObject d).
  - intros (rs & Hrs & -> & _). apply mapSchemas_derivedInOrder in Hrs.
    by rewrite Hrs.
Qed.

(** [{ a: number } & { b: number }]. *)
Lemma intersection_is_allOf_witness :
  dispatched intersectionTable 3 bothType ∧ intersectionKinded bothType ∧
  getSchemaByType intersectionTable schemaText 3 3 false freshState
  = Ret (set_allOf
           [ set_required ["a"]
               (set_properties [("a", numberSchema)]
                  (set_type "object" emptySchema));
             set_required ["b"]
               (set_properties [("b", numberSchema)]
                  (set_type "object" emptySchema)) ]
           (set_type "object" emptySchema))
      freshState ∧
  ∃ rs, derivedInOrder (getSchemaByType intersectionTable schemaText 2) false
          [1; 2] rs freshState freshState ∧
        length rs = 2.
Proof.
  assert (dispatched intersectionTable 3 bothType) as Hd
    by (split; [reflexivity | by vm_compute]).
  assert (intersectionKinded bothType) as Hi by (repeat split; by vm_compute).
  assert (getSchemaByType intersectionTable schemaText 3 3 false freshState
          = Ret (set_allOf
                   [ set_required ["a"]
                       (set_properties [("a", numberSchema)]
                          (set_type "object" emptySchema));
                     set_required ["b"]
                       (set_properties [("b", numberSchema)]
                          (set_type "object" emptySchema)) ]
                   (set_type "object" emptySchema))
              freshState) as Hrun by (vm_compute; reflexivity).
  split; [exact Hd|]. split; [exact Hi|]. split; [exact Hrun|].
  destruct (proj1 (intersection_is_allOf _ _ _ _ _ _ _ _ _ Hd Hi) Hrun)
    as (rs & Hrs & Hr & _).
  exists rs. split; [exact Hrs|].
  apply (f_equal allOf) in Hr. simpl in Hr. injection Hr as <-. reflexivity.
Defined.

(** X12.  On a table without [undefined] handles, in which no two classes
    or interfaces share their declared name and no cycle avoids the classes
    and interfaces, a call on a type of the table returns: it neither
    throws nor recurses forever, in the fresh context and in every context
    whose cache is well named and holds no type twice. *)
Theorem call_on_well_formed_table_returns :
  ∀ (env : list TsType) (h : SchemaObject → string) (ty : TypeId) (f : bool)
    (st : State),
    closed env = true → distinctNames env → acyclic env →
    wellNamed env st → uniqueTypes st → ty < length env →
    ∃ fuel r st',
      ∀ fuel', fuel ≤ fuel' → getSchemaByType env h fuel' ty f st = Ret r st'.
Proof.
  intros env h ty f st Hclosed Hnames Hacyc Hwn Hut Hty.
  destruct (acyclic_halts env h ty f st Hacyc) as (fuel & Hhalt & Hstable).
  pose proof (getSchemaByType_noThrow env h Hclosed Hnames fuel ty f st
                (conj Hwn Hut) Hty) as Hno.
  destruct (getSchemaByType env h fuel ty f st) as [r st'|e st'|] eqn:Hrun.
  - exists fuel, r, st'. intros fuel' Hle. by rewrite Hstable.
  - by destruct (Hno e st').
  - done.
Qed.

Lemma call_on_well_formed_table_returns_witness :
  closed listTable = true ∧ distinctNames listTable ∧ acyclic listTable ∧
  wellNamed listTable freshState ∧ uniqueTypes freshState ∧
  2 < length listTable ∧
  ∃ fuel r st',
    ∀ fuel', fuel ≤ fuel' →
             getSchemaByType listTable schemaText fuel' 2 false freshState
             = Ret r st'.
Proof.
  assert (closed listTable = true) as Hclosed by reflexivity.
  assert (distinctNames listTable) as Hnames
    by (apply (bool_decide_unpack _); by vm_compute).
  assert (acyclic listTable) as Hacyc.
  { apply (ranked_acyclic listTable (fun t => t)). by vm_compute. }
  assert (wellNamed listTable freshState) as Hwn by apply Forall_nil_2.
  assert (uniqueTypes freshState) as Hut by apply NoDup_nil_2.
  assert (2 < length listTable) as Hty by (simpl; lia).
  split; [exact Hclosed|]. split; [exact Hnames|]. split; [exact Hacyc|].
  split; [exact Hwn|]. split; [exact Hut|]. split; [exact Hty|].
  exact (call_on_well_formed_table_returns listTable schemaText 2 false
           freshState Hclosed Hnames Hacyc Hwn Hut Hty).
Defined.

(** X13.  When a call returns, the cache is the cache it received followed
    by the entries it added, and each added entry belongs to a class or
    interface, carries a hash, and has its name registered: a returning
    call removes, reorders and rewrites no earlier entry and leaves no
    entry behind that is still waiting for its fragment. *)
Theorem returning_call_leaves_no_pending_entry :
  ∀ (env : list TsType) (h : SchemaObject → string) (fuel : nat) (ty : TypeId)
    (f : bool) (st : State) (r : SchemaObject) (st' : State),
    getSchemaByType env h fuel ty f st = Ret r st' →
    ∃ new,
      typeCache st' = typeCache st ++ new ∧
      Forall (fun c => classTyped env (cache_type c) ∧
                       is_Some (hashCode c) ∧
                       is_Some (schemaObjects st' !! schemaName c)) new.
Proof.
  intros env h fuel ty f st r st' Hrun.
  destruct (run_extends _ _ _ _ _ _ _ _ Hrun) as (new & Hcache & Hnew & _).
  destruct (getSchemaByType_settles _ _ _ _ _ _ _ _ Hrun)
    as (new' & Hcache' & Hfin).
  rewrite Hcache in Hcache'. apply app_inv_head in Hcache' as <-.
  exists new. split; [done|]. rewrite Forall_forall in *.
  intros c Hc. destruct (Hnew c Hc). split; [done|]. split; [|done].
  by apply Hfin.
Qed.

Lemma returning_call_leaves_no_pending_entry_witness :
  getSchemaByType listTable schemaText 5 2 false freshState
  = Ret (set_required ["head"; "size"]
           (set_properties [("head", refSchema "Node"); ("size", numberSchema)]
              (set_type "object" emptySchema)))
      (mkState {[ "Node" := nodeSchema ]}
         [mkTypeCache "Node" "Node" 1 (Some (schemaText nodeSchema))]) ∧
  ∃ new,
    [mkTypeCache "Node" "Node" 1 (Some (schemaText nodeSchema))] = [] ++ new ∧
    Forall (fun c => is_Some (hashCode c)) new.
Proof.
  assert (getSchemaByType listTable schemaText 5 2 false freshState
          = Ret (set_required ["head"; "size"]
                   (set_properties
                      [("head", refSchema "Node"); ("size", numberSchema)]
                      (set_type "object" emptySchema)))
              (mkState {[ "Node" := nodeSchema ]}
                 [mkTypeCache "Node" "Node" 1 (Some (schemaText nodeSchema))]))
    as Hrun by (vm_compute; reflexivity).
  split; [exact Hrun|].
  destruct (returning_call_leaves_no_pending_entry _ _ _ _ _ _ _ _ Hrun)
    as (new & Hcache & Hnew).
  exists new. split; [exact Hcache|].
  eapply Forall_impl; [exact Hnew|]. intros c (_ & Hhash & _). exact Hhash.
Defined.

(** X14.  The fragment registered by a first resolution is the expansion
    of the type: after a call in reference mode on a class or interface
    without cache entry has returned [{ $ref: <name> }], the fragment under
    [<name>] is what the same type yields with [extendClass: true] in the
    context the call left, a call that changes nothing there. *)
Theorem registered_fragment_is_the_expansion :
  ∀ (env : list TsType) (h : SchemaObject → string) (fuel : nat) (ty : TypeId)
    (d : TsType) (sy : TsSymbol) (st : State) (r : SchemaObject) (st' : State),
    dispatched env ty d → nominalKinded d sy →
    cachedName st ty = None →
    getSchemaByType env h fuel ty false st = Ret r st' →
    ∃ name schema,
      r = refSchema name ∧
      schemaObjects st' !! name = Some schema ∧
      getSchemaByType env h fuel ty true st' = Ret schema st'.
Proof.
  intros env h fuel ty d sy st r st' Hd Hn Hmiss Hrun.
  destruct fuel as [|fuel]; [done|].
  rewrite (run_nominal _ _ _ _ _ _ _ _ Hd Hn) in Hrun.
  pose proof Hn as (_&_&_&_&_&Hsy&_).
  assert (list_find (fun c => cache_type c = ty) (typeCache st) = None) as Hfind.
  { unfold cachedName in Hmiss. by destruct (list_find _ (typeCache st)). }
  apply (addRefTypeSchema_Ret_inv _ _ _ _ sy) in Hrun
    as (schema & st2 & Hexp & -> & ->); [|done|done].
  exists (allocateName (schemaObjects st) (escapedName sy)), schema.
  split; [done|]. split; [apply lookup_insert_eq|].
  rewrite (getSchemaByType_mono env h fuel (S fuel)); [|lia|].
  - apply (getSchemaByType_replay env h fuel _ _ _ _ _ Hexp).
    intros t name. by rewrite (cachedName_set_hashCode _ (schemaObjects st2)).
  - rewrite (getSchemaByType_replay env h fuel _ _ _ _ _ Hexp); [done|].
    intros t name. by rewrite (cachedName_set_hashCode _ (schemaObjects st2)).
Qed.

(** [class Node { value: number; next?: Node }]: the fragment under [Node]
    is the expansion of [Node], which refers to [Node]. *)
Lemma registered_fragment_is_the_expansion_witness :
  dispatched nodeTable 1
    (classType "Node" [propertyOf "value" 0 false; propertyOf "next" 1 true]) ∧
  nominalKinded
    (classType "Node" [propertyOf "value" 0 false; propertyOf "next" 1 true])
    (namedSymbol "Node") ∧
  cachedName freshState 1 = None ∧
  getSchemaByType nodeTable schemaText 4 1 false freshState
  = Ret (refSchema "Node")
      (mkState {[ "Node" := nodeSchema ]}
         [mkTypeCache "Node" "Node" 1 (Some (schemaText nodeSchema))]) ∧
  ∃ name schema,
    refSchema "Node" = refSchema name ∧
    ({[ "Node" := nodeSchema ]} : gmap string SchemaObject) !! name
    = Some schema ∧
    getSchemaByType nodeTable schemaText 4 1 true
      (mkState {[ "Node" := nodeSchema ]}
         [mkTypeCache "Node" "Node" 1 (Some (schemaText nodeSchema))])
    = Ret schema
        (mkState {[ "Node" := nodeSchema ]}
           [mkTypeCache "Node" "Node" 1 (Some (schemaText nodeSchema))]).
Proof.
  assert (dispatched nodeTable 1
            (classType "Node"
               [propertyOf "value" 0 false; propertyOf "next" 1 true])) as Hd
    by (split; [reflexivity | by vm_compute]).
  assert (nominalKinded
            (classType "Node"
               [propertyOf "value" 0 false; propertyOf "next" 1 true])
            (namedSymbol "Node")) as Hn by (repeat split; by vm_compute).
  assert (cachedName freshState 1 = None) as Hmiss by reflexivity.
  assert (getSchemaByType nodeTable schemaText 4 1 false freshState
          = Ret (refSchema "Node")
              (mkState {[ "Node" := nodeSchema ]}
                 [mkTypeCache "Node" "Node" 1 (Some (schemaText nodeSchema))]))
    as Hrun by (vm_compute; reflexivity).
  split; [exact Hd|]. split; [exact Hn|]. split; [exact Hmiss|].
  split; [exact Hrun|].
  exact (registered_fragment_is_the_expansion _ _ _ _ _ _ _ _ _
           Hd Hn Hmiss Hrun).
Defined.
